(** * Maximus / Emergent Builder: the coordinator loop, the job directories
      and the dashboard server, embedded from [src/coordinator.ts],
      [src/dashboard/coordinator-events.ts] and
      [src/dashboard/dashboard-server.ts].

    Conventions of the embedding.
    - JavaScript strings are [string]; template literals are written with
      [+:+]; a JavaScript number that only ever holds a small non-negative
      integer (the iteration counter, the counts) is a [nat].
    - The job directories [orchestration/jobs/<bucket>/] are a finite map
      from the pair (bucket, name) to the job record stored in the file
      [<name>.json] of that directory. Where a path that is built from a job
      id ends up is worked out as the kernel does, component by component.
    - What the coordinator cannot decide by itself (the answers of the Claude
      API, the exit status of a git command, the order in which the workers of
      a batch finish, the clock) is an explicit argument of the embedded
      function.
    - [async] methods that can throw return a [Completion]. *)

From Stdlib Require Import Ascii Decimal DecimalString DecimalNat.
From stdpp Require Import base option list gmap strings sorting.


(** ** Strings *)

Module Str.

Fixpoint contains_char (c : ascii) (s : string) : bool :=
  match s with
  | EmptyString => false
  | String d s' => if Ascii.eqb c d then true else contains_char c s'
  end.

(** [s.startsWith(p)] *)
Fixpoint startsWith (p s : string) : bool :=
  match p, s with
  | EmptyString, _ => true
  | String a p', String b s' => if Ascii.eqb a b then startsWith p' s' else false
  | String _ _, EmptyString => false
  end.

(** the rest of [s] after the prefix [p], when [s] starts with [p] *)
Fixpoint strip_prefix (p s : string) : option string :=
  match p, s with
  | EmptyString, _ => Some s
  | String a p', String b s' => if Ascii.eqb a b then strip_prefix p' s' else None
  | String _ _, EmptyString => None
  end.

End Str.

(** ** The JavaScript built-ins the program relies on *)

Module JS.

(** [\d] *)
Definition is_digit (c : ascii) : bool :=
  (48 <=? nat_of_ascii c) && (nat_of_ascii c <=? 57).

(** [\s] restricted to the one-byte white space characters
    (tab, line feed, vertical tab, form feed, carriage return, space). *)
Definition is_space (c : ascii) : bool :=
  let n := nat_of_ascii c in
  ((9 <=? n) && (n <=? 13)) || (n =? 32).

Fixpoint all_chars (p : ascii → bool) (s : string) : bool :=
  match s with
  | EmptyString => true
  | String c s' => p c && all_chars p s'
  end.

(** [String(n)] / [`${n}`] for a number holding a non-negative integer:
    its decimal digits, no sign, no leading zero. *)
Definition toString (n : nat) : string :=
  NilEmpty.string_of_uint (Nat.to_uint n).

Definition LF : string := String (ascii_of_nat 10) "".

(** [xs.join(sep)] *)
Fixpoint join (sep : string) (xs : list string) : string :=
  match xs with
  | [] => ""
  | [x] => x
  | x :: xs' => x +:+ sep +:+ join sep xs'
  end.

(** [xs.slice(a, b)] for [0 <= a <= b] *)
Definition slice {A} (a b : nat) (xs : list A) : list A := take (b - a) (drop a xs).

(** the text from the first [c] on, that [c] included *)
Fixpoint from_first (c : ascii) (s : string) : option string :=
  match s with
  | EmptyString => None
  | String d s' => if Ascii.eqb d c then Some s else from_first c s'
  end.

(** the longest prefix of [s] that ends in [c] *)
Fixpoint upto_last (c : ascii) (s : string) : option string :=
  match s with
  | EmptyString => None
  | String d s' =>
      match upto_last c s' with
      | Some r => Some (String d r)
      | None => if Ascii.eqb d c then Some (String d "") else None
      end
  end.

(** the shortest prefix of [s] that ends in [c] *)
Fixpoint upto_first (c : ascii) (s : string) : option string :=
  match s with
  | EmptyString => None
  | String d s' =>
      if Ascii.eqb d c then Some (String d "") else String d <$> upto_first c s'
  end.

(** [text.match(/\[[\s\S]*\]/)]: [[\s\S]] is any character and the star
    is greedy, so the match runs from the first bracket that opens to the
    last bracket that closes after it. [Some m] is [match[0]]. *)
Definition match_bracketed_greedy (text : string) : option string :=
  match from_first "[" text with
  | Some (String _ rest) => String "[" <$> upto_last "]" rest
  | _ => None
  end.

(** [text.match(/\[[\s\S]*?\]/)]: the lazy star stops at the first
    bracket that closes. *)
Definition match_bracketed_lazy (text : string) : option string :=
  match from_first "[" text with
  | Some (String _ rest) => String "[" <$> upto_first "]" rest
  | _ => None
  end.

(** the longest prefix of [s] whose characters satisfy [p], and the rest *)
Fixpoint take_while (p : ascii → bool) (s : string) : string :=
  match s with
  | EmptyString => ""
  | String c s' => if p c then String c (take_while p s') else ""
  end.

Fixpoint drop_while (p : ascii → bool) (s : string) : string :=
  match s with
  | EmptyString => ""
  | String c s' => if p c then drop_while p s' else s
  end.

(** [parseInt(s)] for a string of decimal digits, which is all that the
    capture group [(\d+)] can hold *)
Definition digit_value (c : ascii) : nat := nat_of_ascii c - 48.

Fixpoint parseInt_acc (s : string) (acc : nat) : nat :=
  match s with
  | EmptyString => acc
  | String c s' => if is_digit c then parseInt_acc s' (10 * acc + digit_value c) else acc
  end.

Definition parseInt (s : string) : nat := parseInt_acc s 0.

(** A [Date], by its UTC fields. *)
Record Date := mkDate {
  year : nat; month : nat; day : nat;
  hours : nat; minutes : nat; seconds : nat; milliseconds : nat
}.

(** [String(n).padStart(width, "0")] *)
Fixpoint zeros (k : nat) : string :=
  match k with
  | 0 => ""
  | S k' => String "0" (zeros k')
  end.

Definition pad (width n : nat) : string :=
  let digits := toString n in
  zeros (width - String.length digits) +:+ digits.

(** [date.toISOString()]: [YYYY-MM-DDTHH:mm:ss.sssZ], and the expanded
    [+YYYYYY-...] for a year past 9999 *)
Definition toISOString (d : Date) : string :=
  (if year d <? 10 * 1000 then pad 4 (year d) else "+" +:+ pad 6 (year d)) +:+ "-" +:+
  pad 2 (month d) +:+ "-" +:+ pad 2 (day d) +:+ "T" +:+
  pad 2 (hours d) +:+ ":" +:+ pad 2 (minutes d) +:+ ":" +:+ pad 2 (seconds d) +:+ "." +:+
  pad 3 (milliseconds d) +:+ "Z".

(** [s.split(sep)] for a one-character separator *)
Fixpoint split (sep : ascii) (s : string) : list string :=
  match s with
  | EmptyString => [""]
  | String c s' =>
      if Ascii.eqb c sep then "" :: split sep s'
      else match split sep s' with
           | x :: xs => String c x :: xs
           | [] => [String c ""]
           end
  end.

End JS.

(** ** Data model ([coordinator.ts] lines 500-517) *)

Inductive Priority := critical | high | medium | low.
Inductive Complexity := trivial | small | medium_size | large.

Record Job := mkJob {
  id : string;
  title : string;
  description : string;
  priority : Priority;
  estimatedComplexity : Complexity;
  files : list string;
  acceptanceCriteria : list string;
  context : option string
}.

Record IterationResult := mkIterationResult {
  iteration : nat;
  jobsCompleted : nat;
  jobsFailed : nat;
  branches : list string;
  timestamp : string
}.

(** The branch of a job, [`emergent/${this.iteration}/${job.id}`]
    ([spawnWorker], line 724). *)
Definition branchName (this_iteration : nat) (job_id : string) : string :=
  "emergent/" +:+ JS.toString this_iteration +:+ "/" +:+ job_id.

(** ** The job directories *)

(** The four directories under [CONFIG.jobsDir] ([initialize], lines 540-543). *)
Inductive Bucket := pending | in_progress | completed | failed.

#[global] Instance Bucket_eq_dec : EqDecision Bucket.
Proof. solve_decision. Defined.

#[global] Instance Bucket_countable : Countable Bucket.
Proof.
  refine (inj_countable'
    (λ b, match b with pending => 0 | in_progress => 1 | completed => 2 | failed => 3 end)
    (λ n, match n with 0 => pending | 1 => in_progress | 2 => completed | _ => failed end)
    _).
  by intros [].
Defined.

Definition all_buckets : list Bucket := [pending; in_progress; completed; failed].

(** the directory name, which is also the status string of an event *)
Definition bucketName (b : Bucket) : string :=
  match b with
  | pending => "pending"
  | in_progress => "in-progress"
  | completed => "completed"
  | failed => "failed"
  end.

(** The file [<name>.json] of a bucket is the key (bucket, name); the file
    holds the job that was written there. The four directories exist (they
    are made by [initialize]), can be written to, and hold job files and
    nothing else, in particular no directory; the file system is that of
    Linux. What lies outside the four directories is not part of the model. *)
Abbreviation JobFiles := (gmap (Bucket * string) Job).

Module Fs.

(** [CONFIG.jobsDir] (line 491) *)
Definition jobsDir : string := "./orchestration/jobs".

(** the limits of Linux on a file name and on a path, in bytes *)
Definition NAME_MAX : nat := 255.
Definition PATH_MAX : nat := 4096.

(** What becomes of [fs.writeFileSync(path, ...)]. *)
Inductive Target :=
| Lands (b : Bucket) (name : string)   (* it writes the file [<name>.json] of a job directory *)
| Outside                              (* it writes a file that is in none of the four *)
| Fails (code : string).               (* it throws; [code] is the [code] of the error *)

Definition bucketNamed (name : string) : option Bucket :=
  if String.eqb name "pending" then Some pending
  else if String.eqb name "in-progress" then Some in_progress
  else if String.eqb name "completed" then Some completed
  else if String.eqb name "failed" then Some failed
  else None.

(** [file] without its extension [.json], when it has it *)
Definition withoutJson (file : string) : option string :=
  let n := String.length file - 5 in
  if (5 <=? String.length file) && String.eqb (String.substring n 5 file) ".json"
  then Some (String.substring 0 n file) else None.

(** Whether an id can be used as it is for the name of a job file: it holds
    no slash and no null byte, and [<id>.json] is not too long a name. *)
Definition plain (jobId : string) : bool :=
  negb (Str.contains_char "/" jobId)
  && negb (Str.contains_char Ascii.zero jobId)
  && (String.length jobId + 5 <=? NAME_MAX).

(** The kernel walks the components of [`${id}.json`] from a job
    directory. [place] is the directory reached so far: [Some b] is the
    directory of bucket [b], [None] is [CONFIG.jobsDir]. The last component
    names the file to write; the ones before it have to be directories, and
    a job directory holds none. Once the walk leaves [CONFIG.jobsDir], or
    takes a name of [CONFIG.jobsDir] that is not one of the four, [astray]
    (the world outside) says what becomes of the write. *)
Fixpoint walk (astray : string → Target) (fs : JobFiles) (path : string)
    (place : option Bucket) (components : list string) : Target :=
  match components with
  | [] => astray path
  | [name] =>
      match place with
      | Some b =>
          if NAME_MAX <? String.length name + 5 then Fails "ENAMETOOLONG"
          else Lands b name
      | None => astray path
      end
  | component :: rest =>
      if String.eqb component "" || String.eqb component "." then
        walk astray fs path place rest
      else if String.eqb component ".." then
        match place with
        | Some _ => walk astray fs path None rest
        | None => astray path
        end
      else
        match place with
        | Some b =>
            if NAME_MAX <? String.length component then Fails "ENAMETOOLONG"
            else match withoutJson component with
                 | Some name =>
                     if bool_decide (is_Some (fs !! (b, name)))
                     then Fails "ENOTDIR" else Fails "ENOENT"
                 | None => Fails "ENOENT"
                 end
        | None =>
            match bucketNamed component with
            | Some b => walk astray fs path (Some b) rest
            | None => astray path
            end
        end
  end.

(** Where [fs.writeFileSync(`${CONFIG.jobsDir}/<bucket>/${id}.json`, ...)]
    ends up (lines 716-717). Node refuses a path with a null byte, the
    kernel one of [PATH_MAX] bytes or more. *)
Definition target (astray : string → Target) (fs : JobFiles) (b : Bucket)
    (jobId : string) : Target :=
  let path := jobsDir +:+ "/" +:+ bucketName b +:+ "/" +:+ jobId +:+ ".json" in
  if Str.contains_char Ascii.zero jobId then Fails "ERR_INVALID_ARG_VALUE"
  else if PATH_MAX <=? String.length path then Fails "ENAMETOOLONG"
  else walk astray fs path (Some b) (JS.split "/" jobId).

Definition existsSync (fs : JobFiles) (p : Bucket * string) : bool :=
  bool_decide (is_Some (fs !! p)).

Definition writeFileSync (fs : JobFiles) (p : Bucket * string) (content : Job) : JobFiles :=
  <[p := content]> fs.

(** [fs.renameSync(oldPath, newPath)]: replaces the destination; [None]
    is the ENOENT exception of a missing source. *)
Definition renameSync (fs : JobFiles) (oldPath newPath : Bucket * string) : option JobFiles :=
  match fs !! oldPath with
  | Some content => Some (<[newPath := content]> (delete oldPath fs))
  | None => None
  end.

(** the buckets that hold a file for the id *)
Definition buckets_of (fs : JobFiles) (jobId : string) : list Bucket :=
  filter (λ b, is_Some (fs !! (b, jobId))) all_buckets.

Definition in_bucket (fs : JobFiles) (b : Bucket) (jobId : string) : Prop :=
  is_Some (fs !! (b, jobId)).

(** no id has a file in two directories *)
Definition exclusive (fs : JobFiles) : Prop :=
  ∀ jobId b1 b2, in_bucket fs b1 jobId → in_bucket fs b2 jobId → b1 = b2.

End Fs.

(** ** The event bus ([dashboard/coordinator-events.ts]) *)

Inductive EventData :=
| IterationStartData (iteration : nat)
| IterationCompleteData (result : IterationResult)
| JobCreatedData (job : Job)
| JobStatusData (jobId : string) (status : Bucket)
| WorkerSpawnedData (jobId workerName : string)
| MergeStartData (branches : list string)
| MergeCompleteData (success : bool) (successCount failCount : nat).

Record DashboardEvent := mkEvent {
  ev_timestamp : string;
  ev_type : string;
  ev_data : EventData
}.

(** A listener is known by a number; what it does with an event is its own
    business, so a call of a listener is recorded as a [Delivery]. *)
Record Delivery := mkDelivery {
  dl_listener : nat;
  dl_channel : string;
  dl_event : DashboardEvent
}.

(** [CoordinatorEvents]: the [enabled] flag and the [EventEmitter]'s
    listeners, as (event name, listener) in registration order. *)
Record CoordinatorEvents := mkBus {
  enabled : bool;
  listeners : list (string * nat)
}.

Module Bus.

(** the singleton as constructed at line 93: enabled, nobody listening *)
Definition initial : CoordinatorEvents := mkBus true [].

Definition on (bus : CoordinatorEvents) (name : string) (l : nat) : CoordinatorEvents :=
  mkBus (enabled bus) (listeners bus ++ [(name, l)]).

Definition listenersOf (bus : CoordinatorEvents) (name : string) : list nat :=
  snd <$> filter (λ nl, nl.1 = name) (listeners bus).

Definition listenerCount (bus : CoordinatorEvents) (name : string) : nat :=
  length (listenersOf bus name).

(** [this.emit(name, event)]: calls every listener of [name], in order *)
Definition emit (bus : CoordinatorEvents) (name : string) (event : DashboardEvent)
  : list Delivery :=
  (λ l, mkDelivery l name event) <$> listenersOf bus name.

(** the guard of [emitEvent] (line 43): disabled, or nobody listens *)
Definition silent (bus : CoordinatorEvents) (type : string) : bool :=
  negb (enabled bus)
  || (listenerCount bus "*" =? 0) && (listenerCount bus type =? 0).

(** [emitEvent] (lines 41-57); [now] is [new Date().toISOString()] *)
Definition emitEvent (bus : CoordinatorEvents) (now : string)
    (type : string) (data : EventData) : list Delivery :=
  if silent bus type then []
  else
    let event := mkEvent now type data in
    emit bus type event ++ emit bus "*" event.

End Bus.

(** ** The coordinator's world *)

(** git commands run in the coordinator sprite by [mergeBranches] *)
Inductive GitCmd := GitFetchAll | GitMerge (ref : string) | GitMergeAbort | GitPush.

#[global] Instance GitCmd_eq_dec : EqDecision GitCmd.
Proof. solve_decision. Defined.

(** The methods of [EmergentBuilder] that were entered, in order. Nothing in
    the program reads this list; it is there to say which stage ran. *)
Inductive Call :=
| CallCheckpoint (name : string)
| CallRunAnalysis
| CallWriteJobFiles
| CallRunWorkers
| CallSpawnWorker (jobId : string)
| CallMergeBranches
| CallUpdateProductState.

(** [CONFIG] (lines 488-498), the two numbers the control flow reads *)
Record Config := mkConfig {
  maxWorkers : nat;
  maxIterations : nat
}.

Definition CONFIG_source : Config := mkConfig 2 10.

(** a sprite: all the coordinator asks of it is whether it can checkpoint *)
Record Sprite := mkSprite { hasCheckpoint : bool }.

Record World := mkWorld {
  (* the fields of [this] *)
  coordinatorSprite : option Sprite;
  this_iteration : nat;
  this_results : list IterationResult;
  (* the local disk *)
  jobFiles : JobFiles;
  productStateFile : option string;
  (* the event bus singleton and the calls of its listeners so far *)
  bus : CoordinatorEvents;
  delivered : list Delivery;
  (* standard output and standard error, one entry per console call *)
  console : list string;
  (* the git commands run in the coordinator sprite *)
  gitLog : list GitCmd;
  checkpoints : list string;
  calls : list Call;
  (* the number of [new Date()] evaluated so far *)
  ticks : nat
}.

(** What the analysis stage meets outside the coordinator. *)
Inductive AnalysisRun :=
| SetupThrows                  (* reading the prompt or the codebase throws (lines 576-589) *)
| ApiThrows                    (* [messages.create] rejects *)
| ApiResponds (textContent : string).

(** What one worker meets: whether [createSprite] resolves (line 735, before
    the [try]), whether every awaited step inside the [try] resolves
    (lines 738-860), whether [worker.delete()] in the [finally] resolves. *)
Record WorkerRun := mkWorkerRun {
  createSprite_ok : bool;
  steps_ok : bool;
  delete_ok : bool
}.

Record Env := mkEnv {
  (* what [createSprite] of [initialize] gives; [None]: it throws *)
  createCoordinator : option Sprite;
  (* [new Date()] at the n-th reading of the clock *)
  clock : nat → JS.Date;
  (* by iteration number *)
  analysisRun : nat → AnalysisRun;
  (* [JSON.parse] followed by the unchecked cast to [Job[]]; [None]: it throws *)
  JSON_parse : string → option (list Job);
  (* by iteration number and position of the job in the iteration's list *)
  workerRun : nat → nat → WorkerRun;
  (* when, relative to its siblings, the worker at that position finishes *)
  finishTime : nat → nat → nat;
  (* whether a git command exits with 0, given the commands run before it *)
  gitExit : list GitCmd → GitCmd → bool;
  (* what becomes of a write to a path that leaves the job directories *)
  astray : string → Fs.Target;
  (* whether [fs.mkdirSync(dir, { recursive: true })] returns for the
     directory of the bucket (lines 540-543) *)
  mkdirSync_ok : Bucket → bool;
  (* whether [git clone] in the coordinator sprite resolves (lines 558-564) *)
  cloneRepo_ok : bool;
  (* whether [coordinatorSprite.delete()] resolves (line 1069) *)
  coordinatorDelete_ok : bool
}.

(** ** Completions and the monad of [async] methods *)

Inductive Completion (A : Type) :=
| Normal (a : A)
| Throw (error : string)
| Diverge.                     (* the loop bound of the model was exhausted *)
Arguments Normal {A} a.
Arguments Throw {A} error.
Arguments Diverge {A}.

Definition M (A : Type) : Type := World → Completion A * World.

Definition ret {A} (a : A) : M A := λ w, (Normal a, w).

Definition bind {A B} (m : M A) (k : A → M B) : M B := λ w,
  match m w with
  | (Normal a, w') => k a w'
  | (Throw e, w') => (Throw e, w')
  | (Diverge, w') => (Diverge, w')
  end.

Definition throw {A} (error : string) : M A := λ w, (Throw error, w).

(** [try { body } catch (e) { handler }] *)
Definition try_catch {A} (body : M A) (handler : string → M A) : M A := λ w,
  match body w with
  | (Throw e, w') => handler e w'
  | r => r
  end.

(** [try { body } finally { final }] *)
Definition try_finally {A} (body : M A) (final : M unit) : M A := λ w,
  match body w with
  | (Diverge, w') => (Diverge, w')
  | (c, w') =>
      match final w' with
      | (Normal _, w'') => (c, w'')
      | (Throw e, w'') => (Throw e, w'')
      | (Diverge, w'') => (Diverge, w'')
      end
  end.

(** run [m] and hand back how it completed, as a settled promise does *)
Definition settle {A} (m : M A) : M (Completion A) := λ w,
  let '(c, w') := m w in (Normal c, w').

Declare Scope M_scope.
Delimit Scope M_scope with M.
Notation "'let*' x ':=' m 'in' k" := (bind m (λ x, k))
  (at level 10, x name, m at level 100, k at level 200) : M_scope.
Notation "m >> k" := (bind m (λ _, k))
  (at level 90, right associativity) : M_scope.
Open Scope M_scope.

Definition get : M World := λ w, (Normal w, w).
Definition modify (f : World → World) : M unit := λ w, (Normal (), f w).
Definition diverge {A} : M A := λ w, (Diverge, w).

(** [for (const x of xs) { body(x) }] *)
Fixpoint for_of {A} (xs : list A) (body : A → M unit) : M unit :=
  match xs with
  | [] => ret ()
  | x :: xs' => body x >> for_of xs' body
  end.

(** [for (const x of xs) ys.push(await f(x))] *)
Fixpoint map_of {A B} (xs : list A) (f : A → M B) : M (list B) :=
  match xs with
  | [] => ret []
  | x :: xs' => let* y := f x in let* ys := map_of xs' f in ret (y :: ys)
  end.

(** Field updates of the world. *)
Definition set_coordinatorSprite (s : option Sprite) (w : World) : World :=
  mkWorld s (this_iteration w) (this_results w) (jobFiles w)
    (productStateFile w) (bus w) (delivered w) (console w) (gitLog w)
    (checkpoints w) (calls w) (ticks w).
Definition set_iteration (n : nat) (w : World) : World :=
  mkWorld (coordinatorSprite w) n (this_results w) (jobFiles w)
    (productStateFile w) (bus w) (delivered w) (console w) (gitLog w)
    (checkpoints w) (calls w) (ticks w).
Definition set_results (rs : list IterationResult) (w : World) : World :=
  mkWorld (coordinatorSprite w) (this_iteration w) rs (jobFiles w)
    (productStateFile w) (bus w) (delivered w) (console w) (gitLog w)
    (checkpoints w) (calls w) (ticks w).
Definition set_jobFiles (fs : JobFiles) (w : World) : World :=
  mkWorld (coordinatorSprite w) (this_iteration w) (this_results w) fs
    (productStateFile w) (bus w) (delivered w) (console w) (gitLog w)
    (checkpoints w) (calls w) (ticks w).
Definition set_productStateFile (f : option string) (w : World) : World :=
  mkWorld (coordinatorSprite w) (this_iteration w) (this_results w) (jobFiles w)
    f (bus w) (delivered w) (console w) (gitLog w)
    (checkpoints w) (calls w) (ticks w).
Definition set_delivered (ds : list Delivery) (w : World) : World :=
  mkWorld (coordinatorSprite w) (this_iteration w) (this_results w) (jobFiles w)
    (productStateFile w) (bus w) ds (console w) (gitLog w)
    (checkpoints w) (calls w) (ticks w).
Definition set_console (c : list string) (w : World) : World :=
  mkWorld (coordinatorSprite w) (this_iteration w) (this_results w) (jobFiles w)
    (productStateFile w) (bus w) (delivered w) c (gitLog w)
    (checkpoints w) (calls w) (ticks w).
Definition set_gitLog (g : list GitCmd) (w : World) : World :=
  mkWorld (coordinatorSprite w) (this_iteration w) (this_results w) (jobFiles w)
    (productStateFile w) (bus w) (delivered w) (console w) g
    (checkpoints w) (calls w) (ticks w).
Definition set_checkpoints (c : list string) (w : World) : World :=
  mkWorld (coordinatorSprite w) (this_iteration w) (this_results w) (jobFiles w)
    (productStateFile w) (bus w) (delivered w) (console w) (gitLog w)
    c (calls w) (ticks w).
Definition set_calls (c : list Call) (w : World) : World :=
  mkWorld (coordinatorSprite w) (this_iteration w) (this_results w) (jobFiles w)
    (productStateFile w) (bus w) (delivered w) (console w) (gitLog w)
    (checkpoints w) c (ticks w).
Definition set_ticks (t : nat) (w : World) : World :=
  mkWorld (coordinatorSprite w) (this_iteration w) (this_results w) (jobFiles w)
    (productStateFile w) (bus w) (delivered w) (console w) (gitLog w)
    (checkpoints w) (calls w) t.

(** [console.log] and [console.error]: one more line on the terminal *)
Definition console_log (line : string) : M unit :=
  modify (λ w, set_console (console w ++ [line]) w).

Definition enter (c : Call) : M unit :=
  modify (λ w, set_calls (calls w ++ [c]) w).

(** the world a fresh [EmergentBuilder] starts in: [iteration = 0],
    [results = []], no coordinator sprite, the given disk and bus *)
Definition fresh_world (fs : JobFiles) (b : CoordinatorEvents) : World :=
  mkWorld None 0 [] fs None b [] [] [] [] [] 0.

(** ** [EmergentBuilder] ([coordinator.ts], lines 519-1073) *)

Record SpawnResult := mkSpawnResult { success : bool; branch : string }.

Section Coordinator.

Context (CONFIG : Config) (env : Env).

(** [new Date().toISOString()] *)
Definition now : M string := λ w,
  (Normal (JS.toISOString (clock env (ticks w))), set_ticks (S (ticks w)) w).

(** [coordinatorEvents.emitEvent(type, data)]: the clock is read only
    when the event is built *)
Definition emitEvent (type : string) (data : EventData) : M unit :=
  let* w := get in
  if Bus.silent (bus w) type then ret ()
  else
    let* t := now in
    modify (λ w, set_delivered (delivered w ++ Bus.emitEvent (bus w) t type data) w).

Definition emitIterationStart (iteration : nat) : M unit :=
  emitEvent "iteration:start" (IterationStartData iteration).
Definition emitIterationComplete (result : IterationResult) : M unit :=
  emitEvent "iteration:complete" (IterationCompleteData result).
Definition emitJobCreated (job : Job) : M unit :=
  emitEvent "job:created" (JobCreatedData job).
Definition emitJobStatus (jobId : string) (status : Bucket) : M unit :=
  emitEvent "job:status" (JobStatusData jobId status).

(** The three moves of [spawnWorker] (lines 730-733, 864-867, 876-879):
    [if (fs.existsSync(from)) { fs.renameSync(from, to);
    coordinatorEvents.emitJobStatus(job.id, to) }]. *)
Definition transition (jobId : string) (from to : Bucket) : M unit :=
  let* w := get in
  if Fs.existsSync (jobFiles w) (from, jobId) then
    match Fs.renameSync (jobFiles w) (from, jobId) (to, jobId) with
    | Some fs' =>
        modify (set_jobFiles fs') >>
        emitJobStatus jobId to
    | None => throw "ENOENT"
    end
  else ret ().

(** the body of the loop of [writeJobFiles] (lines 716-719) *)
Definition writeJobFile (job : Job) : M unit :=
  (let* w := get in
   match Fs.target (astray env) (jobFiles w) pending (id job) with
   | Fs.Lands b name => modify (set_jobFiles (Fs.writeFileSync (jobFiles w) (b, name) job))
   | Fs.Outside => ret ()
   | Fs.Fails code => throw code
   end) >>
  console_log ("📝 Created job: " +:+ id job +:+ " - " +:+ title job) >>
  emitJobCreated job.

Definition writeJobFiles (jobs : list Job) : M unit :=
  enter CallWriteJobFiles >>
  for_of jobs writeJobFile.

(** [runAnalysis] (lines 570-659). *)
Definition runAnalysis : M (list Job) :=
  enter CallRunAnalysis >>
  let* w := get in
  match coordinatorSprite w with
  | None => throw "Coordinator not initialized"
  | Some _ =>
    console_log (JS.LF +:+ "🔍 Running analysis (iteration "
                 +:+ JS.toString (this_iteration w + 1) +:+ ")...") >>
    match analysisRun env (this_iteration w) with
    | SetupThrows => throw "reading the prompt or the codebase failed"
    | run =>
      console_log "📖 Reading codebase files..." >>
      try_catch
        (console_log "🤖 Calling Claude API for analysis..." >>
         match run with
         | ApiResponds textContent =>
             console_log "📝 Response received, parsing jobs..." >>
             match JS.match_bracketed_greedy textContent with
             | None =>
                 console_log "❌ Failed to find JSON array in response" >>
                 console_log ("Response: " +:+ String.substring 0 500 textContent) >>
                 ret []
             | Some jsonMatch =>
                 match JSON_parse env jsonMatch with
                 | Some jobs =>
                     console_log ("✅ Generated " +:+ JS.toString (length jobs) +:+ " jobs") >>
                     ret jobs
                 | None => throw "SyntaxError"
                 end
             end
         | _ => throw "API call failed"
         end)
        (λ e, console_log ("❌ API call or parsing failed: " +:+ e) >> ret [])
    end
  end.

(** *** [spawnWorker] (lines 723-885)

    The method runs synchronously up to its first [await], the
    [createSprite] of line 735: that part is [spawnWorker_start]. What
    follows the [await] touches the job directories once, at the very end
    of the [try] or in the [catch]: that part is [spawnWorker_finish], and
    the narration it prints on the way is not modelled. [idx] is the
    position of the job in the list of the iteration. *)
Definition spawnWorker_start (job : Job) : M unit :=
  enter (CallSpawnWorker (id job)) >>
  console_log (JS.LF +:+ "🔧 Spawning worker for " +:+ id job +:+ ": " +:+ title job) >>
  transition (id job) pending in_progress.

Definition spawnWorker_finish (idx : nat) (job : Job) : M SpawnResult :=
  let* w := get in
  let branchName := branchName (this_iteration w) (id job) in
  let run := workerRun env (this_iteration w) idx in
  if createSprite_ok run then
    try_finally
      (try_catch
         ((if steps_ok run then ret () else throw "a step of the worker failed") >>
          transition (id job) in_progress completed >>
          console_log ("✅ Worker " +:+ id job +:+ " completed successfully") >>
          ret (mkSpawnResult true branchName))
         (λ error,
            console_log ("❌ Worker " +:+ id job +:+ " failed: " +:+ error) >>
            transition (id job) in_progress failed >>
            ret (mkSpawnResult false branchName)))
      (if delete_ok run then ret () else throw "worker.delete failed")
  else throw "createSprite failed".

(** one worker on its own *)
Definition spawnWorker (idx : nat) (job : Job) : M SpawnResult :=
  spawnWorker_start job >> spawnWorker_finish idx job.

(** *** [runWorkers] (lines 887-910) *)

(** [Promise.all] over promises that have all settled: the array of the
    values in the order of [keys], or the rejection that came first in
    time. [settled] is in the order of settling. *)
Fixpoint first_rejection {A} (settled : list (nat * Completion A)) : option string :=
  match settled with
  | [] => None
  | (_, Throw e) :: _ => Some e
  | _ :: rest => first_rejection rest
  end.

Fixpoint value_of {A} (key : nat) (settled : list (nat * Completion A)) : option A :=
  match settled with
  | [] => None
  | (k, c) :: rest =>
      if k =? key then match c with Normal a => Some a | _ => None end
      else value_of key rest
  end.

Definition Promise_all {A} (keys : list nat) (settled : list (nat * Completion A))
  : M (list A) :=
  match first_rejection settled with
  | Some e => throw e
  | None =>
      map_of keys (λ key,
        match value_of key settled with
        | Some a => ret a
        | None => diverge
        end)
  end.

(** the workers of a batch in the order they finish *)
Definition finishes_before (iteration : nat) (a b : nat * Job) : Prop :=
  finishTime env iteration a.1 ≤ finishTime env iteration b.1.

#[local] Instance finishes_before_dec iteration : RelDecision (finishes_before iteration).
Proof. intros a b; unfold finishes_before; apply _. Defined.

Definition finish_order (iteration : nat) (indexed : list (nat * Job)) : list (nat * Job) :=
  merge_sort (finishes_before iteration) indexed.

(** [await Promise.all(batch.map((job) => this.spawnWorker(job)))] for
    the batch that starts at position [i]: [map] calls [spawnWorker] on each
    job in turn, which runs every start; the workers then finish in the
    order the environment decides, each on its own whatever became of its
    siblings. *)
Definition runBatch (i : nat) (batch : list Job) : M (list SpawnResult) :=
  let indexed := imap (λ k job, (i + k, job)) batch in
  for_of indexed (λ ij, spawnWorker_start ij.2) >>
  let* w := get in
  let* settled :=
    map_of (finish_order (this_iteration w) indexed) (λ ij,
      let* c := settle (spawnWorker_finish ij.1 ij.2) in ret (ij.1, c)) in
  Promise_all (fst <$> indexed) settled.

(** the inner loop, lines 900-906 *)
Definition collect (acc : list string * nat) (results : list SpawnResult)
  : list string * nat :=
  foldl (λ acc result,
           if success result then (acc.1 ++ [branch result], acc.2)
           else (acc.1, S acc.2))
        acc results.

(** the outer loop, lines 892-907; [fuel] bounds the number of tests of
    [i < jobs.length] *)
Fixpoint runWorkers_loop (fuel : nat) (jobs : list Job) (i : nat)
    (acc : list string * nat) : M (list string * nat) :=
  match fuel with
  | 0 => diverge
  | S fuel' =>
      if i <? length jobs then
        let batch := JS.slice i (i + maxWorkers CONFIG) jobs in
        console_log (JS.LF +:+ "📦 Processing batch "
                     +:+ JS.toString (i / maxWorkers CONFIG + 1)
                     +:+ " (" +:+ JS.toString (length batch) +:+ " jobs)") >>
        let* results := runBatch i batch in
        runWorkers_loop fuel' jobs (i + maxWorkers CONFIG) (collect acc results)
      else ret acc
  end.

Definition runWorkers (jobs : list Job) : M (list string * nat) :=
  enter CallRunWorkers >>
  runWorkers_loop (S (length jobs)) jobs 0 ([], 0).

(** *** [mergeBranches] (lines 912-950) *)

(** [await this.coordinatorSprite.execFile("git", ...)] *)
Definition execGit (cmd : GitCmd) : M unit := λ w,
  let w' := set_gitLog (gitLog w ++ [cmd]) w in
  if gitExit env (gitLog w) cmd then (Normal (), w')
  else (Throw "git exited with an error", w').

Definition mergeBranches (branches : list string) : M bool :=
  enter CallMergeBranches >>
  let* w := get in
  if negb (bool_decide (is_Some (coordinatorSprite w))) || (length branches =? 0)
  then ret true
  else
    console_log (JS.LF +:+ "🔀 Merging " +:+ JS.toString (length branches)
                 +:+ " branches...") >>
    try_catch
      (execGit GitFetchAll >>
       for_of branches (λ branch,
         console_log ("  Merging " +:+ branch +:+ "...") >>
         try_catch
           (execGit (GitMerge ("origin/" +:+ branch)))
           (λ e,
              console_log ("  ⚠️ Merge conflict on " +:+ branch +:+ ", skipping") >>
              execGit GitMergeAbort)) >>
       execGit GitPush >>
       console_log "✅ Merge complete" >>
       ret true)
      (λ error, console_log ("❌ Merge failed: " +:+ error) >> ret false).

(** *** [updateProductState] (lines 952-973) *)

Definition historyLine (r : IterationResult) : string :=
  "- Iteration " +:+ JS.toString (iteration r) +:+ ": "
  +:+ JS.toString (jobsCompleted r) +:+ " completed, "
  +:+ JS.toString (jobsFailed r) +:+ " failed".

Definition stateContent (w : World) (result : IterationResult) : string :=
  "# Product State" +:+ JS.LF +:+
  JS.LF +:+
  "Last updated: " +:+ timestamp result +:+ JS.LF +:+
  "Total iterations: " +:+ JS.toString (this_iteration w) +:+ JS.LF +:+
  JS.LF +:+
  "## Latest Iteration (#" +:+ JS.toString (iteration result) +:+ ")" +:+ JS.LF +:+
  "- Jobs completed: " +:+ JS.toString (jobsCompleted result) +:+ JS.LF +:+
  "- Jobs failed: " +:+ JS.toString (jobsFailed result) +:+ JS.LF +:+
  "- Branches merged: "
    +:+ (let joined := JS.join ", " (branches result) in
         if String.eqb joined "" then "none" else joined) +:+ JS.LF +:+
  JS.LF +:+
  "## History" +:+ JS.LF +:+
  JS.join JS.LF (historyLine <$> this_results w) +:+ JS.LF.

Definition updateProductState (result : IterationResult) : M unit :=
  enter CallUpdateProductState >>
  modify (λ w, set_productStateFile (Some (stateContent w result)) w).

(** *** [checkpoint] (lines 975-983) *)
Definition checkpoint (name : string) : M unit :=
  enter (CallCheckpoint name) >>
  let* w := get in
  match coordinatorSprite w with
  | None => ret ()
  | Some sprite =>
      if hasCheckpoint sprite then
        console_log ("💾 Creating checkpoint: " +:+ name) >>
        modify (λ w, set_checkpoints (checkpoints w ++ [name]) w)
      else ret ()
  end.

(** *** [runIteration] (lines 995-1044) *)
Definition banner : string :=
  "============================================================".

Definition runIteration : M bool :=
  modify (λ w, set_iteration (S (this_iteration w)) w) >>
  let* w := get in
  let n := this_iteration w in
  emitIterationStart n >>
  console_log (JS.LF +:+ banner) >>
  console_log ("🔄 ITERATION " +:+ JS.toString n) >>
  console_log banner >>
  checkpoint ("pre-iteration-" +:+ JS.toString n) >>
  let* jobs := runAnalysis in
  if length jobs =? 0 then
    console_log "No jobs generated. Stopping." >>
    ret false
  else
    writeJobFiles jobs >>
    let* bf := runWorkers jobs in
    mergeBranches bf.1 >>
    let* t := now in
    let result := mkIterationResult n (length bf.1) bf.2 bf.1 t in
    modify (λ w, set_results (this_results w ++ [result]) w) >>
    updateProductState result >>
    checkpoint ("post-iteration-" +:+ JS.toString n) >>
    console_log (JS.LF +:+ "✅ Iteration " +:+ JS.toString n +:+ " complete") >>
    console_log ("   Jobs completed: " +:+ JS.toString (length bf.1)) >>
    console_log ("   Jobs failed: " +:+ JS.toString bf.2) >>
    emitIterationComplete result >>
    ret (n <? maxIterations CONFIG).

(** *** [initialize] and [run] (lines 536-568, 1046-1072) *)
Definition mkdirSync (b : Bucket) : M unit :=
  if mkdirSync_ok env b then ret () else throw "mkdirSync failed".

(** [CONFIG.repoUrl] is never empty (line 492), so the repository is
    always cloned; the token only changes the address. *)
Definition initialize : M unit :=
  console_log "🚀 Initializing Emergent Builder..." >>
  mkdirSync pending >>
  mkdirSync in_progress >>
  mkdirSync completed >>
  mkdirSync failed >>
  console_log "📦 Creating coordinator Sprite..." >>
  match createCoordinator env with
  | None => throw "createSprite failed"
  | Some sprite =>
      modify (set_coordinatorSprite (Some sprite)) >>
      console_log "📥 Cloning repository..." >>
      (if cloneRepo_ok env then ret () else throw "git clone failed") >>
      console_log "✅ Coordinator initialized"
  end.

(** [while (continueLoop) { continueLoop = await this.runIteration(); ... }];
    the pause of two seconds has no effect on the world *)
Fixpoint run_loop (fuel : nat) : M unit :=
  match fuel with
  | 0 => diverge
  | S fuel' =>
      let* continueLoop := runIteration in
      if continueLoop then run_loop fuel' else ret ()
  end.

Definition run : M unit :=
  try_finally
    (try_catch
       (initialize >>
        let* w := get in
        run_loop (S (maxIterations CONFIG - this_iteration w)) >>
        let* w := get in
        console_log (JS.LF +:+ "🎉 Emergent Builder complete!") >>
        console_log ("Total iterations: " +:+ JS.toString (this_iteration w)) >>
        console_log ("Total jobs completed: "
                     +:+ JS.toString (foldl (λ a r, a + jobsCompleted r) 0 (this_results w))))
       (λ error, console_log ("Fatal error: " +:+ error) >> throw error))
    (let* w := get in
     match coordinatorSprite w with
     | Some _ =>
         console_log (JS.LF +:+ "🧹 Cleaning up coordinator Sprite...") >>
         (if coordinatorDelete_ok env then ret ()
          else throw "coordinatorSprite.delete failed")
     | None => ret ()
     end).

End Coordinator.



(** ** The simple local runner ([coordinator.ts], lines 1158-1216) *)

Module SimpleRunner.

(** what [runAnalysis] does with the output of the [claude] process
    (lines 1201-1215); the second component is the console *)
Definition parseJobs (JSON_parse : string → option (list Job)) (output : string)
  : list Job * list string :=
  match JS.match_bracketed_lazy output with
  | None => ([], ["⚠️ No jobs found in analysis output"])
  | Some jsonMatch =>
      match JSON_parse jsonMatch with
      | Some jobs => (jobs, ["✅ Generated " +:+ JS.toString (length jobs) +:+ " jobs"])
      | None => ([], ["❌ Failed to parse jobs: SyntaxError"])
      end
  end.

End SimpleRunner.

(** ** Node's [path] module, POSIX flavour *)

Module Path.

(** one step of [normalizeString]: [stack] holds the segments kept so far,
    the last one first *)
Definition push_segment (allowAboveRoot : bool) (stack : list string) (seg : string)
  : list string :=
  if String.eqb seg "" || String.eqb seg "." then stack
  else if String.eqb seg ".." then
    match stack with
    | top :: below =>
        if String.eqb top ".." then (if allowAboveRoot then ".." :: stack else stack)
        else below
    | [] => if allowAboveRoot then [".."] else []
    end
  else seg :: stack.

Definition normalizeString (path : string) (allowAboveRoot : bool) : string :=
  JS.join "/" (rev (foldl (push_segment allowAboveRoot) [] (JS.split "/" path))).

Definition endsWith_slash (path : string) : bool :=
  match String.rev path with
  | String c _ => Ascii.eqb c "/"
  | EmptyString => false
  end.

(** [path.normalize] *)
Definition normalize (path : string) : string :=
  match path with
  | EmptyString => "."
  | String c _ =>
      let isAbsolute := Ascii.eqb c "/" in
      let trailingSeparator := endsWith_slash path in
      let p := normalizeString path (negb isAbsolute) in
      if String.eqb p "" then
        if isAbsolute then "/" else if trailingSeparator then "./" else "."
      else
        let p := if trailingSeparator then p +:+ "/" else p in
        if isAbsolute then "/" +:+ p else p
  end.

(** [path.join(a, b)] *)
Definition join (a b : string) : string :=
  match a, b with
  | EmptyString, EmptyString => "."
  | EmptyString, _ => normalize b
  | _, EmptyString => normalize a
  | _, _ => normalize (a +:+ "/" +:+ b)
  end.

(** [path.extname]: from the last dot of the last segment on, unless that
    dot is its first character *)
Fixpoint last_dot_suffix (s : string) : option string :=
  match s with
  | EmptyString => None
  | String c s' =>
      match last_dot_suffix s' with
      | Some r => Some r
      | None => if Ascii.eqb c "." then Some s else None
      end
  end.

Definition extname (path : string) : string :=
  match last (JS.split "/" path) with
  | Some (String c base') =>
      match last_dot_suffix base' with
      | Some ext => ext
      | None => ""
      end
  | _ => ""
  end.

End Path.

(** ** The dashboard server ([dashboard/dashboard-server.ts]) *)

Module Dashboard.

Definition PUBLIC_DIR : string := "./dashboard/public".

Record Response := mkResponse {
  status : nat;
  contentType : string;
  body : string
}.

Inductive Route := StateRequest | JobsRequest | StaticRequest.

(** the dispatch of [setupHttpServer] (lines 57-65); [None] is an
    undefined [req.url] *)
Definition route (url : option string) : Route :=
  match url with
  | Some u =>
      if String.eqb u "/api/state" then StateRequest
      else if Str.startsWith "/api/jobs/" u then JobsRequest
      else StaticRequest
  | None => StaticRequest
  end.

(** line 230: [req.url === '/' ? '/index.html' : req.url || '/index.html'] *)
Definition requested (url : option string) : string :=
  match url with
  | Some u =>
      if String.eqb u "/" then "/index.html"
      else if String.eqb u "" then "/index.html"
      else u
  | None => "/index.html"
  end.

Definition contentTypeOf (ext : string) : string :=
  if String.eqb ext ".html" then "text/html"
  else if String.eqb ext ".js" then "application/javascript"
  else if String.eqb ext ".css" then "text/css"
  else if String.eqb ext ".json" then "application/json"
  else "text/plain".

(** the path handed to [fs.readFile] by [serveStatic], if it gets there *)
Definition serveStatic_reads (url : option string) : option string :=
  let filePath := Path.join PUBLIC_DIR (requested url) in
  if negb (Str.startsWith PUBLIC_DIR filePath) then None else Some filePath.

(** [serveStatic] (lines 229-258); [disk] gives the contents of the file
    at a path, [None] when reading it fails *)
Definition serveStatic (disk : string → option string) (url : option string) : Response :=
  let filePath := Path.join PUBLIC_DIR (requested url) in
  if negb (Str.startsWith PUBLIC_DIR filePath) then
    mkResponse 403 "text/plain" "Forbidden"
  else
    match disk filePath with
    | None => mkResponse 404 "text/plain" "Not Found"
    | Some data => mkResponse 200 (contentTypeOf (Path.extname filePath)) data
    end.

(** [content.match(/Total iterations:\s*(\d+)/)], tried at the start of
    [s]; the result is the capture group *)
Definition match_total_here (s : string) : option string :=
  match Str.strip_prefix "Total iterations:" s with
  | Some rest =>
      let digits := JS.take_while JS.is_digit (JS.drop_while JS.is_space rest) in
      if String.eqb digits "" then None else Some digits
  | None => None
  end.

(** the leftmost match *)
Fixpoint match_total_iterations (s : string) : option string :=
  match match_total_here s with
  | Some digits => Some digits
  | None =>
      match s with
      | EmptyString => None
      | String _ s' => match_total_iterations s'
      end
  end.

(** what [updateStateFromFiles] (lines 169-181) makes of
    [currentState.iteration], given the contents of [PRODUCT_STATE.md]
    ([None]: the file does not exist) *)
Definition iteration_from_file (current : nat) (productState : option string) : nat :=
  match productState with
  | Some content =>
      match match_total_iterations content with
      | Some digits => JS.parseInt digits
      | None => current
      end
  | None => current
  end.

End Dashboard.

(** ** The analysis contract read literally

    Modelled from the spec: the sentence of section 4.2, a list of jobs
    parsed from the oracle's raw text response by locating the first top-level
    array-shaped JSON substring in the output. The first array that is not
    inside another one starts at the first opening bracket and ends where
    that bracket is closed. *)
Fixpoint closing_of (depth : nat) (s : string) : option string :=
  match s with
  | EmptyString => None
  | String c s' =>
      if Ascii.eqb c "[" then String c <$> closing_of (S depth) s'
      else if Ascii.eqb c "]" then
        match depth with
        | 0 => Some (String c "")
        | S depth' => String c <$> closing_of depth' s'
        end
      else String c <$> closing_of depth s'
  end.

Definition first_top_level_array (text : string) : option string :=
  match JS.from_first "[" text with
  | Some (String _ rest) => String "[" <$> closing_of 0 rest
  | _ => None
  end.

(** ** The Job Lifecycle Store seen as operations

    [create] is the body of the loop of [writeJobFiles]; [transition] is the
    guarded rename of [spawnWorker]. *)
Inductive StoreOp :=
| Create (job : Job)
| Transition (jobId : string) (from to : Bucket).

Definition apply_op (env : Env) (op : StoreOp) : M unit :=
  match op with
  | Create job => writeJobFile env job
  | Transition jobId from to => transition env jobId from to
  end.

Definition apply_ops (env : Env) (ops : list StoreOp) : M unit :=
  for_of ops (apply_op env).

(** what an operation does to the directories, when the id that it names
    is a plain file name *)
Definition move (fs : JobFiles) (jobId : string) (from to : Bucket) : JobFiles :=
  match fs !! (from, jobId) with
  | Some content => <[(to, jobId) := content]> (delete (from, jobId) fs)
  | None => fs
  end.

Definition op_files (fs : JobFiles) (op : StoreOp) : JobFiles :=
  match op with
  | Create job => <[(pending, id job) := job]> fs
  | Transition jobId from to => move fs jobId from to
  end.

(** [create] is only ever applied to an id that has no file outside
    [pending] at that moment *)
Fixpoint creates_fresh (fs : JobFiles) (ops : list StoreOp) : Prop :=
  match ops with
  | [] => True
  | op :: ops' =>
      match op with
      | Create job => ∀ b, b ≠ pending → fs !! (b, id job) = None
      | Transition _ _ _ => True
      end
      ∧ creates_fresh (op_files fs op) ops'
  end.

(** every id that the operation names is a plain file name *)
Definition plain_op (op : StoreOp) : Prop :=
  match op with
  | Create job => Fs.plain (id job) = true
  | Transition jobId _ _ => Fs.plain jobId = true
  end.

(** the ids of the jobs are plain file names *)
Definition plain_ids (jobs : list Job) : Prop :=
  Forall (λ job, Fs.plain (id job) = true) jobs.

Definition somewhere (fs : JobFiles) (jobId : string) : Prop :=
  ∃ b, Fs.in_bucket fs b jobId.

Definition terminal (fs : JobFiles) (jobId : string) : Prop :=
  Fs.in_bucket fs completed jobId ∨ Fs.in_bucket fs failed jobId.

(** the id has left [pending]: it is in progress or in a terminal bucket *)
Definition started (fs : JobFiles) (jobId : string) : Prop :=
  Fs.in_bucket fs in_progress jobId ∨ terminal fs jobId.

(** two states of the directories hold the same files for the id *)
Definition agree (jobId : string) (fs1 fs2 : JobFiles) : Prop :=
  ∀ b, fs1 !! (b, jobId) = fs2 !! (b, jobId).

(** an environment for the examples: every worker succeeds, every git
    command succeeds, the oracle answers with no array *)
Definition env_example : Env :=
  mkEnv (Some (mkSprite false))
        (λ _, JS.mkDate 2026 1 1 0 0 0 0)
        (λ _, ApiResponds "nothing to do")
        (λ _, None)
        (λ _ _, mkWorkerRun true true true)
        (λ _ k, k)
        (λ _ _, true)
        (λ _, Fs.Outside) (λ _, true) true true.

Definition job_example (jobId : string) : Job :=
  mkJob jobId "Short title" "What needs to be done" high small [] [] None.


(** Scenario C: the merge of branch [B] conflicts, every other command
    succeeds *)
Definition env_scenario_C : Env :=
  mkEnv (Some (mkSprite false))
        (λ _, JS.mkDate 2026 1 1 0 0 0 0)
        (λ _, ApiResponds "nothing to do")
        (λ _, None)
        (λ _ _, mkWorkerRun true true true)
        (λ _ k, k)
        (λ _ cmd, negb (bool_decide (cmd = GitMerge "origin/B")))
        (λ _, Fs.Outside) (λ _, true) true true.


(** a world whose coordinator has been initialised *)
Definition ready_world (fs : JobFiles) (b : CoordinatorEvents) : World :=
  set_coordinatorSprite (Some (mkSprite false)) (fresh_world fs b).

(** ** What a batch does to the directories, and what it returns *)

(** the directory a finished worker moves its job to *)
Definition finish_bucket (run : WorkerRun) : Bucket :=
  if steps_ok run then completed else failed.

Definition start_files (fs : JobFiles) (ij : nat * Job) : JobFiles :=
  move fs (id ij.2) pending in_progress.

Definition finish_files (env : Env) (iteration : nat) (fs : JobFiles) (ij : nat * Job)
  : JobFiles :=
  let run := workerRun env iteration ij.1 in
  if createSprite_ok run then move fs (id ij.2) in_progress (finish_bucket run) else fs.

Definition finish_completion (env : Env) (iteration : nat) (ij : nat * Job)
  : Completion SpawnResult :=
  let run := workerRun env iteration ij.1 in
  if createSprite_ok run then
    if delete_ok run
    then Normal (mkSpawnResult (steps_ok run) (branchName iteration (id ij.2)))
    else Throw "worker.delete failed"
  else Throw "createSprite failed".

(** what a worker that is neither refused a sprite nor fails to delete it
    returns *)
Definition result_of (env : Env) (iteration : nat) (ij : nat * Job) : SpawnResult :=
  mkSpawnResult (steps_ok (workerRun env iteration ij.1))
                (branchName iteration (id ij.2)).

(** no promise of a worker at a position below [n] rejects *)
Definition no_rejection (env : Env) (iteration n : nat) : Prop :=
  ∀ k, k < n →
    createSprite_ok (workerRun env iteration k) = true
    ∧ delete_ok (workerRun env iteration k) = true.


(** the value of [Promise_all], which does not touch the world *)
Fixpoint values_of {A} (keys : list nat) (settled : list (nat * Completion A))
  : Completion (list A) :=
  match keys with
  | [] => Normal []
  | key :: keys' =>
      match value_of key settled with
      | Some a =>
          match values_of keys' settled with
          | Normal values => Normal (a :: values)
          | other => other
          end
      | None => Diverge
      end
  end.

Definition Promise_all_result {A} (keys : list nat) (settled : list (nat * Completion A))
  : Completion (list A) :=
  match first_rejection settled with
  | Some e => Throw e
  | None => values_of keys settled
  end.

(** the jobs of a list with their positions, from position [i] on *)
Definition indexed_from (i : nat) (jobs : list Job) : list (nat * Job) :=
  imap (λ k job, (i + k, job)) jobs.




(** Scenario D: five jobs *)
Definition five_jobs : list Job :=
  job_example <$> ["job-001"; "job-002"; "job-003"; "job-004"; "job-005"].


(** an iteration of three jobs in which the execution of the second one
    throws: the oracle's answer holds one array, every sprite is created and
    deleted, every git command succeeds *)
Definition three_jobs : list Job :=
  job_example <$> ["job-001"; "job-002"; "job-003"].


(** ** More of the built-ins: strings and arrays *)

Module Text.

(** [s.endsWith(suffix)]: the last [suffix.length] characters of [s] are
    [suffix] *)
Definition endsWith (suffix s : string) : bool :=
  (String.length suffix <=? String.length s)
  && String.eqb (String.substring (String.length s - String.length suffix)
                                  (String.length suffix) s) suffix.

(** [s.includes(p)] *)
Fixpoint includes (p s : string) : bool :=
  Str.startsWith p s ||
  match s with
  | EmptyString => false
  | String _ s' => includes p s'
  end.

End Text.

Module Arr.

Section Sort.

Context {A : Type} (compareFn : A → A → Z).

(** [x] goes in front of the first element that it does not come after *)
Fixpoint insert (x : A) (sorted : list A) : list A :=
  match sorted with
  | [] => [x]
  | y :: rest => if (compareFn x y <=? 0)%Z then x :: sorted else y :: insert x rest
  end.

(** [xs.sort(compareFn)] for a consistent comparator: the sort is stable,
    elements that compare equal keep their order *)
Definition sort (xs : list A) : list A := foldr insert [] xs.

End Sort.

End Arr.

(** ** The state of the dashboard server ([dashboard/dashboard-server.ts]) *)

Module Server.

Definition JOBS_DIR : string := "./orchestration/jobs".

(** The local disk as the dashboard reads it: for each job directory the
    entries that [readdirSync] lists, in its order, each with what
    [readFileSync] gives for it ([None]: it throws); a directory that does not
    exist is [None]. [productStateMd] is the text of [PRODUCT_STATE.md],
    [None] when the file is absent or cannot be read. *)
Record Disk := mkDisk {
  readdir : Bucket → option (list (string * option string));
  productStateMd : option string
}.

Record JobCounts := mkJobCounts {
  n_pending : nat; n_inProgress : nat; n_completed : nat; n_failed : nat
}.

Record JobLists := mkJobLists {
  l_pending : list Job; l_inProgress : list Job; l_completed : list Job; l_failed : list Job
}.

(** [DashboardState] (lines 13-29); a missing [iteration] is the
    [undefined] that an event without that field leaves there *)
Record DashboardState := mkDashboardState {
  st_iteration : option nat;
  st_jobs : JobCounts;
  st_jobsList : JobLists;
  st_lastUpdate : string;
  st_coordinatorConnected : bool
}.

Section Files.

(** [JSON.parse(content) as Job]: the job that a file holds, [None] when
    parsing throws or gives [null]; [a.localeCompare(b)] as the host
    computes it, which is a consistent comparator *)
Context (JSON_parse : string → option Job) (localeCompare : string → string → Z).

(** [fs.readdirSync(dir).filter(f => f.endsWith('.json'))], and nothing
    for a directory that does not exist (lines 185-187, 191-195) *)
Definition jsonFiles (disk : Disk) (status : Bucket) : list (string * option string) :=
  match readdir disk status with
  | None => []
  | Some entries => filter (λ entry, Text.endsWith ".json" entry.1 = true) entries
  end.

(** [countJobFiles] (lines 184-188) *)
Definition countJobFiles (disk : Disk) (status : Bucket) : nat :=
  length (jsonFiles disk status).

Definition priorityOrder (p : Priority) : Z :=
  match p with critical => 0 | high => 1 | medium => 2 | low => 3 end.

(** the comparator of lines 207-213 *)
Definition compareJobs (a b : Job) : Z :=
  let priorityDiff := (priorityOrder (priority a) - priorityOrder (priority b))%Z in
  if (priorityDiff =? 0)%Z then localeCompare (id a) (id b) else priorityDiff.

(** the body of the [map] of lines 196-205: [None] is the [null] of the
    [catch] *)
Definition readJobFile (entry : string * option string) : option Job :=
  match entry.2 with
  | Some content => JSON_parse content
  | None => None
  end.

(** [readJobFiles] (lines 190-214) *)
Definition readJobFiles (disk : Disk) (status : Bucket) : list Job :=
  Arr.sort compareJobs (omap readJobFile (jsonFiles disk status)).

(** [updateStateFromFiles] (lines 150-182); [now] is
    [new Date().toISOString()] *)
Definition updateStateFromFiles (disk : Disk) (now : string) (st : DashboardState)
  : DashboardState :=
  mkDashboardState
    (match productStateMd disk with
     | Some content =>
         match Dashboard.match_total_iterations content with
         | Some digits => Some (JS.parseInt digits)
         | None => st_iteration st
         end
     | None => st_iteration st
     end)
    (mkJobCounts (countJobFiles disk pending) (countJobFiles disk in_progress)
                 (countJobFiles disk completed) (countJobFiles disk failed))
    (mkJobLists (readJobFiles disk pending) (readJobFiles disk in_progress)
                (readJobFiles disk completed) (readJobFiles disk failed))
    now
    (st_coordinatorConnected st).

(** [event.data.iteration] *)
Definition data_iteration (data : EventData) : option nat :=
  match data with
  | IterationStartData n => Some n
  | IterationCompleteData result => Some (iteration result)
  | _ => None
  end.

(** the listener on ['*'] of [setupCoordinatorListeners] (lines 112-127),
    up to the broadcast *)
Definition onCoordinatorEvent (disk : Disk) (now : string) (event : DashboardEvent)
    (st : DashboardState) : DashboardState :=
  let st1 := mkDashboardState (st_iteration st) (st_jobs st) (st_jobsList st)
               (ev_timestamp event) true in
  let st2 :=
    if String.eqb (ev_type event) "iteration:start"
    then mkDashboardState (data_iteration (ev_data event)) (st_jobs st1) (st_jobsList st1)
           (st_lastUpdate st1) (st_coordinatorConnected st1)
    else st1 in
  if Str.startsWith "job:" (ev_type event) then updateStateFromFiles disk now st2 else st2.

End Files.

(** a connected client: whether its socket is open, and the error that
    [send] on it throws, if it throws *)
Record Client := mkClient {
  client : nat;
  readyState_OPEN : bool;
  send_throws : option string
}.

(** [broadcast] (lines 130-148): the clients that were sent the message,
    in order, and the lines printed *)
Definition broadcast (clients : list Client) (event : DashboardEvent)
  : list nat * list string :=
  let '(sent, errors) :=
    foldl (λ acc c,
             if readyState_OPEN c then
               match send_throws c with
               | None => (acc.1 ++ [client c], acc.2)
               | Some error => (acc.1, acc.2 ++ ["Failed to send to client: " +:+ error])
               end
             else acc)
          ([], []) clients in
  (sent,
   errors ++
   if 0 <? length sent
   then ["📤 Broadcast " +:+ ev_type event +:+ " to "
         +:+ JS.toString (length sent) +:+ " client(s)"]
   else []).

(** the list of a bucket *)
Definition jobsOf (lists : JobLists) (b : Bucket) : list Job :=
  match b with
  | pending => l_pending lists
  | in_progress => l_inProgress lists
  | completed => l_completed lists
  | failed => l_failed lists
  end.

(** what [jobsList[key]] finds: one of the four lists, a property that
    every object inherits, or nothing *)
Inductive Property := OwnList (jobs : list Job) | Inherited | Undefined.

Definition Object_prototype : list string :=
  ["constructor"; "hasOwnProperty"; "isPrototypeOf"; "propertyIsEnumerable";
   "toLocaleString"; "toString"; "valueOf"; "__proto__";
   "__defineGetter__"; "__defineSetter__"; "__lookupGetter__"; "__lookupSetter__"].

Definition jobsList_get (lists : JobLists) (key : string) : Property :=
  if String.eqb key "pending" then OwnList (l_pending lists)
  else if String.eqb key "inProgress" then OwnList (l_inProgress lists)
  else if String.eqb key "completed" then OwnList (l_completed lists)
  else if String.eqb key "failed" then OwnList (l_failed lists)
  else if bool_decide (key ∈ Object_prototype) then Inherited
  else Undefined.

(** [handleJobsRequest] (lines 221-227): the jobs written to the
    response, [None] when what was found is not a list of jobs *)
Definition handleJobsRequest (url : string) (st : DashboardState) : option (list Job) :=
  let status := default "" (last (JS.split "/" url)) in
  match jobsList_get (st_jobsList st)
          (if String.eqb status "in-progress" then "inProgress" else status) with
  | OwnList jobs => Some jobs
  | Inherited => None
  | Undefined => Some []
  end.

End Server.

(** ** The file watcher ([dashboard/file-watcher.ts]) *)

Module Watcher.

(** [extractStatus] (lines 81-87) *)
Definition extractStatus (filePath : string) : Bucket :=
  if Text.includes "/pending/" filePath then pending
  else if Text.includes "/in-progress/" filePath then in_progress
  else if Text.includes "/completed/" filePath then completed
  else if Text.includes "/failed/" filePath then failed
  else pending.

(** the path of a job file as the watcher is told it:
    [`${jobsDir}/<bucket>/<name>`] *)
Definition watched (jobsDir : string) (b : Bucket) (name : string) : string :=
  jobsDir +:+ "/" +:+ bucketName b +:+ "/" +:+ name.

End Watcher.

(** ** The state report of the simple local runner ([coordinator.ts], lines 1316-1331) *)

Module LocalRunner.

(** the text of [updateProductState] (lines 1316-1331) *)
Definition stateContent (timestamp : string) (iteration completed failed : nat) : string :=
  "# Product State" +:+ JS.LF +:+
  JS.LF +:+
  "Last updated: " +:+ timestamp +:+ JS.LF +:+
  "Current iteration: " +:+ JS.toString iteration +:+ JS.LF +:+
  JS.LF +:+
  "## Latest Results" +:+ JS.LF +:+
  "- Jobs completed: " +:+ JS.toString completed +:+ JS.LF +:+
  "- Jobs failed: " +:+ JS.toString failed +:+ JS.LF +:+
  JS.LF +:+
  "## Notes" +:+ JS.LF +:+
  "This file is automatically updated after each iteration." +:+ JS.LF.

End LocalRunner.

(** ** Vocabulary of the proofs *)

(** [m] leaves the part [proj] of the world as it found it, however it
    completes. *)
Definition preserves {A B} (proj : World → B) (m : M A) : Prop :=
  ∀ w, proj (m w).2 = proj w.

(** [m] never exhausts the loop bound of the model. *)
Definition settles {A} (m : M A) : Prop :=
  ∀ w, (m w).1 ≠ Diverge.

(** [m] completes normally from every world. *)
Definition total {A} (m : M A) : Prop :=
  ∀ w, ∃ a, (m w).1 = Normal a.

(** [proj] does not read the field that [set] writes. *)
Definition ignores {B X} (proj : World → B) (set : X → World → World) : Prop :=
  ∀ x w, proj (set x w) = proj w.


(** the directories after a batch, as [runBatch_run] gives them *)
Definition batch_files (env : Env) (it i : nat) (batch : list Job) (fs : JobFiles)
  : JobFiles :=
  foldl (finish_files env it) (foldl start_files fs (indexed_from i batch))
        (finish_order env it (indexed_from i batch)).

(** the characters of an ISO timestamp *)
Definition iso_char (c : ascii) : bool :=
  JS.is_digit c
  || Ascii.eqb c "-" || Ascii.eqb c ":" || Ascii.eqb c "." || Ascii.eqb c "T"
  || Ascii.eqb c "Z" || Ascii.eqb c "+".

(** a segment that [normalizeString] keeps *)
Definition kept (seg : string) : Prop :=
  seg ≠ "" ∧ seg ≠ "." ∧ Str.contains_char "/" seg = false.

(** ** Vocabulary of the further properties *)

(** what [runIteration] does once the workers have returned
    (lines 1018-1043) *)
Definition iteration_tail (CONFIG : Config) (env : Env) (n : nat)
    (bf : list string * nat) : M bool :=
  mergeBranches env bf.1 >>
  let* t := now env in
  let result := mkIterationResult n (length bf.1) bf.2 bf.1 t in
  modify (λ w, set_results (this_results w ++ [result]) w) >>
  updateProductState result >>
  checkpoint ("post-iteration-" +:+ JS.toString n) >>
  console_log (JS.LF +:+ "✅ Iteration " +:+ JS.toString n +:+ " complete") >>
  console_log ("   Jobs completed: " +:+ JS.toString (length bf.1)) >>
  console_log ("   Jobs failed: " +:+ JS.toString bf.2) >>
  emitIterationComplete env result >>
  ret (n <? maxIterations CONFIG).

(** the world in which [runIteration] calls [runAnalysis] *)
Definition before_analysis (env : Env) (w : World) : World :=
  let n := S (this_iteration w) in
  let w2 := (emitIterationStart env n (set_iteration n w)).2 in
  (checkpoint ("pre-iteration-" +:+ JS.toString n)
     (set_console (console w2 ++ [JS.LF +:+ banner; "🔄 ITERATION " +:+ JS.toString n; banner]) w2)).2.

(** five jobs, of which the third is refused its sprite *)
Definition env_sprite_refused : Env :=
  mkEnv (Some (mkSprite false))
        (λ _, JS.mkDate 2026 1 1 0 0 0 0)
        (λ _, ApiResponds "[five jobs]")
        (λ text, if String.eqb text "[five jobs]" then Some five_jobs else None)
        (λ _ i, mkWorkerRun (negb (i =? 2)) true true)
        (λ _ k, k)
        (λ _ _, true)
        (λ _, Fs.Outside) (λ _, true) true true.

(** three jobs of which the second fails, the workers finishing in the
    reverse of the order they were started in, every merge in conflict *)
Definition env_reverse_finish : Env :=
  mkEnv (Some (mkSprite false))
        (λ _, JS.mkDate 2026 1 1 0 0 0 0)
        (λ _, ApiResponds "Jobs: [job-001, job-002, job-003]")
        (λ text, if String.eqb text "[job-001, job-002, job-003]"
                 then Some three_jobs else None)
        (λ _ i, mkWorkerRun true (negb (i =? 1)) true)
        (λ _ k, 10 - k)
        (λ _ cmd, match cmd with GitMerge _ => false | _ => true end)
        (λ _, Fs.Outside) (λ _, true) true true.

(** an environment in which [git fetch --all] fails *)
Definition env_fetch_fails : Env :=
  mkEnv (Some (mkSprite false))
        (λ _, JS.mkDate 2026 1 1 0 0 0 0)
        (λ _, ApiResponds "nothing to do")
        (λ _, None)
        (λ _ _, mkWorkerRun true true true)
        (λ _ k, k)
        (λ _ cmd, negb (bool_decide (cmd = GitFetchAll)))
        (λ _, Fs.Outside) (λ _, true) true true.

(** a disk with the report of the first iteration and no job directory *)
Definition disk_after_first_iteration : Server.Disk :=
  Server.mkDisk (λ _, None)
    (Some (stateContent
             (set_iteration 1 (fresh_world ∅ Bus.initial))
             (mkIterationResult 1 0 0 [] (JS.toISOString (JS.mkDate 2026 1 1 0 0 0 0))))).

Definition state_example : Server.DashboardState :=
  Server.mkDashboardState (Some 0) (Server.mkJobCounts 0 0 0 0) (Server.mkJobLists [] [] [] [])
    "2026-01-01T00:00:00.000Z" false.

(** the events that the coordinator builds: the type goes with the
    payload, and a [job:status] never announces [pending] *)
Definition coordinator_event (event : DashboardEvent) : Prop :=
  match ev_data event with
  | IterationStartData _ => ev_type event = "iteration:start"
  | IterationCompleteData _ => ev_type event = "iteration:complete"
  | JobCreatedData _ => ev_type event = "job:created"
  | JobStatusData _ status => ev_type event = "job:status" ∧ status ≠ pending
  | _ => False
  end.

(** [m] leaves the bus as it is, and every call of a listener that it
    adds hands over an event that satisfies [ok] *)
Definition emits {A} (ok : DashboardEvent → Prop) (m : M A) : Prop :=
  ∀ w, ∃ ds, delivered (m w).2 = delivered w ++ ds
             ∧ Forall (λ d, ok (dl_event d)) ds.

(** * Facts about strings and the built-ins *)

Module StrFacts.

Import Str.

(** string concatenation computes under [simpl] in this module *)
#[local] Arguments String.append !s1 s2 : simpl nomatch.

Lemma app_nil_r (s : string) : s +:+ "" = s.
Proof. induction s as [|c s IH]; simpl; [done | by rewrite IH]. Qed.

Lemma app_assoc (a b c : string) : (a +:+ b) +:+ c = a +:+ b +:+ c.
Proof. induction a as [|x a IH]; simpl; [done | by rewrite IH]. Qed.

Lemma app_inv_head (p a b : string) : p +:+ a = p +:+ b → a = b.
Proof. induction p as [|x p IH]; simpl; [done | intros [= H]; auto]. Qed.

Lemma contains_char_app c (a b : string) :
  contains_char c (a +:+ b) = contains_char c a || contains_char c b.
Proof. induction a as [|x a IH]; simpl; [done | by destruct (Ascii.eqb c x)]. Qed.

Lemma strip_prefix_app (p s : string) : strip_prefix p (p +:+ s) = Some s.
Proof. induction p as [|x p IH]; simpl; [done | by rewrite Ascii.eqb_refl]. Qed.

Lemma strip_prefix_Some (p s r : string) : strip_prefix p s = Some r → s = p +:+ r.
Proof.
  revert s; induction p as [|x p IH]; intros [|y s]; simpl; try congruence.
  destruct (Ascii.eqb_spec x y) as [->|]; [|done].
  intros H; f_equal; auto.
Qed.

(** Splitting at the first occurrence of a separator is unambiguous. *)
Lemma split_at_sep c (a1 a2 b1 b2 : string) :
  contains_char c a1 = false → contains_char c a2 = false →
  a1 +:+ String c b1 = a2 +:+ String c b2 → a1 = a2 ∧ b1 = b2.
Proof.
  revert a2; induction a1 as [|x a1 IH]; intros [|y a2]; simpl.
  - by intros _ _ [= ->].
  - intros _. destruct (Ascii.eqb_spec c y) as [->|Hne]; [done |].
    intros _ [= Hc _]; congruence.
  - destruct (Ascii.eqb_spec c x) as [->|Hne]; [done |].
    intros _ _ [= Hc _]; congruence.
  - destruct (Ascii.eqb c x); [done |]. destruct (Ascii.eqb c y); [done |].
    intros H1 H2 [= -> H]. destruct (IH a2 H1 H2 H) as [-> ->]; done.
Qed.

End StrFacts.

Module JSFacts.

Import JS.

#[local] Arguments String.append !s1 s2 : simpl nomatch.

Lemma all_digits_of_uint (d : uint) :
  all_chars is_digit (NilEmpty.string_of_uint d) = true.
Proof. induction d; simpl; auto. Qed.

Lemma toString_digits n : all_chars is_digit (toString n) = true.
Proof. apply all_digits_of_uint. Qed.

Lemma toString_inj n m : toString n = toString m → n = m.
Proof.
  unfold toString; intros H.
  apply (f_equal NilEmpty.uint_of_string) in H.
  rewrite !NilEmpty.usu in H. injection H as H.
  apply (f_equal Nat.of_uint) in H.
  by rewrite !DecimalNat.Unsigned.of_to in H.
Qed.

Lemma all_chars_no_char p c s :
  p c = false → all_chars p s = true → Str.contains_char c s = false.
Proof.
  intros Hc; induction s as [|d s IH]; simpl; [done |].
  intros [Hd Hs]%andb_prop.
  destruct (Ascii.eqb_spec c d) as [->|]; [congruence | auto].
Qed.

End JSFacts.

(** * Branch names *)

Lemma branchName_inj n1 id1 n2 id2 :
  branchName n1 id1 = branchName n2 id2 → n1 = n2 ∧ id1 = id2.
Proof.
  unfold branchName; intros H%StrFacts.app_inv_head.
  apply StrFacts.split_at_sep in H as [Hn ->];
    try (eapply JSFacts.all_chars_no_char; [|apply JSFacts.toString_digits]; done).
  split; [by apply JSFacts.toString_inj | done].
Qed.

(** C8. The branch of a job is [branchName] of the iteration number and
    the job id, and nothing else. In a run whose jobs, taken as pairs of
    iteration number and job id, are pairwise distinct (they differ in the
    iteration or, within an iteration, in the id), the branch names are
    pairwise distinct. *)
Theorem branch_names_pairwise_distinct (run_jobs : list (nat * string)) :
  NoDup run_jobs →
  NoDup ((λ job, branchName job.1 job.2) <$> run_jobs).
Proof.
  intros Hnd. apply NoDup_fmap_2; [|done].
  intros [n1 id1] [n2 id2] Heq; simpl in Heq.
  by destruct (branchName_inj _ _ _ _ Heq) as [-> ->].
Qed.

Lemma branch_names_pairwise_distinct_witness :
  NoDup ((λ job, branchName job.1 job.2)
           <$> [(1, "job-001"); (1, "job-002"); (2, "job-001"); (12, "/job-001"); (1, "2/job-001")]).
Proof.
  apply (branch_names_pairwise_distinct
           [(1, "job-001"); (1, "job-002"); (2, "job-001"); (12, "/job-001"); (1, "2/job-001")]).
  apply (bool_decide_unpack _). vm_compute. reflexivity.
Defined.

(** * The job directories and the event bus *)

Module FsFacts.

Import Fs.

Lemma elem_of_buckets_of fs jobId b : b ∈ buckets_of fs jobId ↔ in_bucket fs b jobId.
Proof.
  unfold buckets_of, in_bucket. rewrite list_elem_of_filter.
  split; [by intros [? _] | intros H; split; [done |]].
  destruct b; unfold all_buckets; set_solver.
Qed.

Lemma buckets_of_singleton fs jobId b :
  exclusive fs → in_bucket fs b jobId → buckets_of fs jobId = [b].
Proof.
  intros Hex Hin.
  assert (∀ b', in_bucket fs b' jobId → b' = b) as Huniq by (intros; by eapply Hex).
  unfold buckets_of, all_buckets, in_bucket in *.
  rewrite !filter_cons, filter_nil.
  destruct b; repeat case_decide; try done;
    repeat match goal with
           | H : is_Some (fs !! (?b', jobId)) |- _ => apply Huniq in H; try discriminate H; clear H
           end; done.
Qed.

Lemma length_append (a b : string) :
  String.length (a +:+ b) = String.length a + String.length b.
Proof. induction a as [|c a IH]; simpl; [done | by rewrite IH]. Qed.

Lemma split_plain (s : string) : Str.contains_char "/" s = false → JS.split "/" s = [s].
Proof.
  induction s as [|c s IH]; [done |]. cbn [Str.contains_char JS.split].
  destruct (Ascii.eqb_spec "/" c) as [<-|Hne]; [done |].
  intros Hs. rewrite (IH Hs).
  destruct (Ascii.eqb_spec c "/") as [->|_]; done.
Qed.

(** A plain id names the file it says, in the directory it is written to. *)
Lemma target_plain astray fs b jobId :
  plain jobId = true → target astray fs b jobId = Lands b jobId.
Proof.
  unfold plain, target. intros Hplain.
  apply andb_prop in Hplain as [Hplain Hlen].
  apply andb_prop in Hplain as [Hslash Hnul].
  apply negb_true_iff in Hslash, Hnul. apply Nat.leb_le in Hlen.
  unfold NAME_MAX in Hlen. rewrite Hnul.
  assert ((PATH_MAX <=? String.length
             (jobsDir +:+ "/" +:+ bucketName b +:+ "/" +:+ jobId +:+ ".json")) = false) as ->.
  { apply Nat.leb_gt. rewrite !length_append. unfold PATH_MAX, jobsDir.
    destruct b; cbn [bucketName String.length]; lia. }
  rewrite split_plain by done. cbn [walk].
  assert ((NAME_MAX <? String.length jobId + 5) = false) as ->;
    [apply Nat.ltb_ge; unfold NAME_MAX; lia | done].
Qed.

Lemma existsSync_true fs p : existsSync fs p = true ↔ is_Some (fs !! p).
Proof. unfold existsSync. by rewrite bool_decide_eq_true. Qed.

Lemma existsSync_false fs p : existsSync fs p = false ↔ fs !! p = None.
Proof.
  unfold existsSync. rewrite bool_decide_eq_false.
  by rewrite eq_None_not_Some.
Qed.

End FsFacts.

(** [transition] never throws, and all it changes is named here. *)
Lemma transition_present env jobId from to w job :
  jobFiles w !! (from, jobId) = Some job →
  transition env jobId from to w =
    emitJobStatus env jobId to
      (set_jobFiles (<[(to, jobId) := job]> (delete (from, jobId) (jobFiles w))) w).
Proof.
  intros Hjob. unfold transition, bind, get, Fs.renameSync.
  assert (Fs.existsSync (jobFiles w) (from, jobId) = true) as ->
    by (apply FsFacts.existsSync_true; eauto).
  by rewrite Hjob.
Qed.

Lemma transition_absent env jobId from to w :
  jobFiles w !! (from, jobId) = None →
  transition env jobId from to w = (Normal (), w).
Proof.
  intros Hjob. unfold transition, bind, get.
  by apply FsFacts.existsSync_false in Hjob as ->.
Qed.

Lemma emitEvent_silent env type data w :
  Bus.silent (bus w) type = true → emitEvent env type data w = (Normal (), w).
Proof. intros H. unfold emitEvent, bind, get. by rewrite H. Qed.

Lemma emitEvent_heard env type data w :
  Bus.silent (bus w) type = false →
  emitEvent env type data w =
    (Normal (),
     let event := mkEvent (JS.toISOString (clock env (ticks w))) type data in
     set_delivered (delivered w ++ Bus.emit (bus w) type event ++ Bus.emit (bus w) "*" event)
       (set_ticks (S (ticks w)) w)).
Proof.
  intros H. unfold emitEvent, bind, get, now, modify, Bus.emitEvent; simpl.
  by rewrite !H.
Qed.




(** * Reasoning about [M] *)

Section Frame.

Context {B : Type} (proj : World → B).

Lemma preserves_ret {A} (a : A) : preserves proj (ret a).
Proof. by intros w. Qed.

Lemma preserves_throw {A} e : preserves proj (@throw A e).
Proof. by intros w. Qed.

Lemma preserves_diverge {A} : preserves proj (@diverge A).
Proof. by intros w. Qed.

Lemma preserves_get : preserves proj get.
Proof. by intros w. Qed.

Lemma preserves_modify f : (∀ w, proj (f w) = proj w) → preserves proj (modify f).
Proof. intros H w. apply H. Qed.

Lemma preserves_bind {A C} (m : M A) (k : A → M C) :
  preserves proj m → (∀ a, preserves proj (k a)) → preserves proj (bind m k).
Proof.
  intros Hm Hk w. unfold bind. specialize (Hm w).
  destruct (m w) as [[a|e|] w']; simpl in *; [|done..].
  by rewrite Hk.
Qed.

Lemma preserves_try_catch {A} (m : M A) h :
  preserves proj m → (∀ e, preserves proj (h e)) → preserves proj (try_catch m h).
Proof.
  intros Hm Hh w. unfold try_catch. specialize (Hm w).
  destruct (m w) as [[a|e|] w']; simpl in *; [done| |done].
  by rewrite Hh.
Qed.

Lemma preserves_try_finally {A} (m : M A) f :
  preserves proj m → preserves proj f → preserves proj (try_finally m f).
Proof.
  intros Hm Hf w. unfold try_finally. specialize (Hm w).
  destruct (m w) as [[a|e|] w']; simpl in *; [| |done];
    specialize (Hf w'); destruct (f w') as [[?|?|] w'']; simpl in *; congruence.
Qed.

Lemma preserves_settle {A} (m : M A) : preserves proj m → preserves proj (settle m).
Proof. intros Hm w. unfold settle. specialize (Hm w). by destruct (m w). Qed.

Lemma preserves_for_of {A} (xs : list A) body :
  (∀ x, preserves proj (body x)) → preserves proj (for_of xs body).
Proof.
  intros Hb. induction xs as [|x xs IH]; simpl.
  - apply preserves_ret.
  - apply preserves_bind; auto.
Qed.

Lemma preserves_map_of {A C} (xs : list A) (f : A → M C) :
  (∀ x, preserves proj (f x)) → preserves proj (map_of xs f).
Proof.
  intros Hf. induction xs as [|x xs IH]; simpl.
  - apply preserves_ret.
  - apply preserves_bind; [auto | intros y].
    apply preserves_bind; [auto | intros ys]. apply preserves_ret.
Qed.

End Frame.

(** Decompose a goal [preserves proj m] along the shape of [m]. *)
Ltac frame_step :=
  lazymatch goal with
  | |- preserves _ (bind _ _) => apply preserves_bind; [|intros ?]
  | |- preserves _ (ret _) => apply preserves_ret
  | |- preserves _ (throw _) => apply preserves_throw
  | |- preserves _ diverge => apply preserves_diverge
  | |- preserves _ get => apply preserves_get
  | |- preserves _ (modify _) => apply preserves_modify; intros ?; reflexivity
  | |- preserves _ (console_log _) => apply preserves_modify; intros ?; reflexivity
  | |- preserves _ (enter _) => apply preserves_modify; intros ?; reflexivity
  | |- preserves _ (try_catch _ _) => apply preserves_try_catch; [|intros ?]
  | |- preserves _ (try_finally _ _) => apply preserves_try_finally
  | |- preserves _ (settle _) => apply preserves_settle
  | |- preserves _ (for_of _ _) => apply preserves_for_of; intros ?
  | |- preserves _ (map_of _ _) => apply preserves_map_of; intros ?
  | |- preserves _ (if ?b then _ else _) => destruct b
  | |- preserves _ (match ?x with _ => _ end) => destruct x
  end.

Create HintDb frame.

#[export] Hint Extern 1 (ignores _ _) => (intros ? ?; reflexivity) : frame.

Ltac frame := repeat first [ frame_step | solve [eauto with frame] ].

Section Frames.

Context (CONFIG : Config) (env : Env) {B : Type} (proj : World → B).

Lemma now_preserves : ignores proj set_ticks → preserves proj (now env).
Proof. intros H w. apply H. Qed.

Lemma emitEvent_preserves type data :
  ignores proj set_ticks → ignores proj set_delivered →
  preserves proj (emitEvent env type data).
Proof.
  intros Ht Hd. unfold emitEvent. frame.
  - by apply now_preserves.
  - intros w. apply Hd.
Qed.

Lemma transition_preserves jobId from to :
  ignores proj set_ticks → ignores proj set_delivered → ignores proj set_jobFiles →
  preserves proj (transition env jobId from to).
Proof.
  intros Ht Hd Hf. unfold transition, emitJobStatus. frame.
  - intros w. apply Hf.
  - by apply emitEvent_preserves.
Qed.

Lemma writeJobFile_preserves job :
  ignores proj set_ticks → ignores proj set_delivered → ignores proj set_jobFiles →
  ignores proj set_console →
  preserves proj (writeJobFile env job).
Proof.
  intros Ht Hd Hf Hc. unfold writeJobFile, emitJobCreated, console_log. frame.
  - intros w. apply Hf.
  - intros w. apply Hc.
  - by apply emitEvent_preserves.
Qed.

End Frames.

#[export] Hint Resolve now_preserves emitEvent_preserves transition_preserves
  writeJobFile_preserves : frame.

Lemma bind_normal {A C} (m : M A) (k : A → M C) w a :
  (m w).1 = Normal a → bind m k w = k a (m w).2.
Proof. unfold bind. destruct (m w) as [c w']; simpl. by intros ->. Qed.

Lemma bind_throw {A C} (m : M A) (k : A → M C) w e :
  (m w).1 = Throw e → bind m k w = (Throw e, (m w).2).
Proof. unfold bind. destruct (m w) as [c w']; simpl. by intros ->. Qed.

Lemma try_catch_run {A} (m : M A) h w c w' :
  m w = (c, w') →
  try_catch m h w = match c with Throw e => h e w' | _ => (c, w') end.
Proof. unfold try_catch. intros ->. by destruct c. Qed.

Lemma bind_run {A C} (m : M A) (k : A → M C) w a w' :
  m w = (Normal a, w') → bind m k w = k a w'.
Proof. unfold bind. by intros ->. Qed.

Lemma settle_bind {A C} (m : M A) (k : Completion A → M C) w c w' :
  m w = (c, w') → bind (settle m) k w = k c w'.
Proof. unfold bind, settle. by intros ->. Qed.

Lemma run_pair {A} (m : M A) w : m w = ((m w).1, (m w).2).
Proof. by destruct (m w). Qed.

Lemma emitEvent_normal env type data w : (emitEvent env type data w).1 = Normal ().
Proof.
  destruct (Bus.silent (bus w) type) eqn:Hs.
  - by rewrite emitEvent_silent.
  - by rewrite emitEvent_heard.
Qed.

Lemma transition_normal env jobId from to w :
  (transition env jobId from to w).1 = Normal ().
Proof.
  destruct (jobFiles w !! (from, jobId)) as [job|] eqn:Hjob.
  - rewrite (transition_present _ _ _ _ _ _ Hjob). apply emitEvent_normal.
  - by rewrite transition_absent.
Qed.

Lemma transition_files env jobId from to w :
  jobFiles (transition env jobId from to w).2 = move (jobFiles w) jobId from to.
Proof.
  unfold move. destruct (jobFiles w !! (from, jobId)) as [job|] eqn:Hjob.
  - rewrite (transition_present _ _ _ _ _ _ Hjob).
    unfold emitJobStatus. by rewrite emitEvent_preserves by eauto with frame.
  - by rewrite transition_absent.
Qed.

(** The write of a job whose id is a plain file name puts the file into
    [pending] under that name. *)
Lemma writeJobFile_plain env job w :
  Fs.plain (id job) = true →
  writeJobFile env job w
  = (console_log ("📝 Created job: " +:+ id job +:+ " - " +:+ title job) >>
     emitJobCreated env job)
      (set_jobFiles (<[(pending, id job) := job]> (jobFiles w)) w).
Proof.
  intros Hplain. unfold writeJobFile.
  rewrite (bind_run _ _ w () (set_jobFiles (<[(pending, id job) := job]> (jobFiles w)) w));
    [done |].
  unfold bind, get. by rewrite FsFacts.target_plain by done.
Qed.

Lemma writeJobFile_normal env job w :
  Fs.plain (id job) = true → (writeJobFile env job w).1 = Normal ().
Proof.
  intros Hplain. rewrite writeJobFile_plain by done. unfold emitJobCreated.
  rewrite (bind_normal _ _ _ ()) by done.
  apply emitEvent_normal.
Qed.

Lemma writeJobFile_files env job w :
  Fs.plain (id job) = true →
  jobFiles (writeJobFile env job w).2 = <[(pending, id job) := job]> (jobFiles w).
Proof.
  intros Hplain. rewrite writeJobFile_plain by done. unfold emitJobCreated.
  rewrite (bind_normal _ _ _ ()) by done.
  by rewrite emitEvent_preserves by eauto with frame.
Qed.

Lemma apply_op_normal env op w : plain_op op → (apply_op env op w).1 = Normal ().
Proof. destruct op; intros Hp; [by apply writeJobFile_normal | apply transition_normal]. Qed.

Lemma apply_op_files env op w :
  plain_op op → jobFiles (apply_op env op w).2 = op_files (jobFiles w) op.
Proof. destruct op; intros Hp; [by apply writeJobFile_files | apply transition_files]. Qed.

Lemma apply_ops_normal env ops w :
  Forall plain_op ops → (apply_ops env ops w).1 = Normal ().
Proof.
  intros Hplain. revert w; induction Hplain as [|op ops Hop _ IH]; intros w; [done |].
  unfold apply_ops in *; simpl.
  rewrite (bind_normal _ _ _ ()) by (by apply apply_op_normal). apply IH.
Qed.

Lemma apply_ops_files env ops w :
  Forall plain_op ops →
  jobFiles (apply_ops env ops w).2 = foldl op_files (jobFiles w) ops.
Proof.
  intros Hplain. revert w; induction Hplain as [|op ops Hop _ IH]; intros w; [done |].
  unfold apply_ops in *; simpl.
  rewrite (bind_normal _ _ _ ()) by (by apply apply_op_normal).
  by rewrite IH, apply_op_files.
Qed.

(** ** How a move changes where an id is *)

Lemma move_lookup_other fs jobId from to b x :
  x ≠ jobId → move fs jobId from to !! (b, x) = fs !! (b, x).
Proof.
  intros Hne. unfold move. destruct (fs !! (from, jobId)); [|done].
  rewrite lookup_insert_ne by congruence.
  by rewrite lookup_delete_ne by congruence.
Qed.

Lemma move_in_bucket fs jobId from to b x :
  Fs.in_bucket (move fs jobId from to) b x ↔
    (if decide (x = jobId ∧ Fs.in_bucket fs from jobId)
     then b = to ∨ (b ≠ from ∧ Fs.in_bucket fs b x)
     else Fs.in_bucket fs b x).
Proof.
  unfold Fs.in_bucket, move.
  destruct (fs !! (from, jobId)) as [job|] eqn:Hjob.
  - rewrite lookup_insert_is_Some, lookup_delete_is_Some.
    case_decide as Hd.
    + destruct Hd as [-> _]. split.
      * intros [[= ->]|[Hne [Hne' Hb]]]; [by left | right].
        split; [congruence | done].
      * intros [->|[Hne Hb]]; [by left |].
        destruct (decide (b = to)) as [->|]; [by left | right].
        split; [congruence |]. split; [congruence | done].
    + assert (x ≠ jobId) as Hx by (intros ->; apply Hd; eauto).
      split; [intros [[=]|(_ & _ & ?)]; done |].
      intros Hb. right. repeat split; congruence.
  - case_decide as Hd; [|done]. destruct Hd as [_ [? ?]]; congruence.
Qed.

(** * Bucket exclusivity *)

Lemma move_exclusive fs jobId from to :
  Fs.exclusive fs → Fs.exclusive (move fs jobId from to).
Proof.
  intros Hex x b1 b2. rewrite !move_in_bucket.
  case_decide as Hd; [|apply Hex].
  destruct Hd as [-> Hfrom].
  intros [->|[Hne1 H1]] [->|[Hne2 H2]]; try done.
  - destruct Hne2. by eapply Hex.
  - destruct Hne1. by eapply Hex.
  - by eapply Hex.
Qed.

Lemma create_exclusive fs job :
  Fs.exclusive fs → (∀ b, b ≠ pending → fs !! (b, id job) = None) →
  Fs.exclusive (<[(pending, id job) := job]> fs).
Proof.
  intros Hex Hfresh x b1 b2. unfold Fs.in_bucket.
  rewrite !lookup_insert_is_Some.
  intros [H1|[Hne1 H1]] [H2|[Hne2 H2]].
  - congruence.
  - injection H1 as <- <-.
    destruct (decide (b2 = pending)) as [->|Hb]; [done |].
    rewrite Hfresh in H2 by done. by destruct H2.
  - injection H2 as <- <-.
    destruct (decide (b1 = pending)) as [->|Hb]; [done |].
    rewrite Hfresh in H1 by done. by destruct H1.
  - by eapply Hex.
Qed.

Lemma op_files_exclusive fs op :
  Fs.exclusive fs →
  match op with
  | Create job => ∀ b, b ≠ pending → fs !! (b, id job) = None
  | Transition _ _ _ => True
  end →
  Fs.exclusive (op_files fs op).
Proof.
  destruct op; simpl; intros Hex Hf; [by apply create_exclusive | by apply move_exclusive].
Qed.

Lemma move_somewhere fs jobId from to x :
  somewhere fs x → somewhere (move fs jobId from to) x.
Proof.
  intros [b Hb]. unfold somewhere.
  destruct (decide (x = jobId ∧ Fs.in_bucket fs from jobId)) as [Hd|Hd].
  - exists to. rewrite move_in_bucket. rewrite decide_True by done. by left.
  - exists b. rewrite move_in_bucket. by rewrite decide_False by done.
Qed.

Lemma op_files_somewhere fs op x :
  somewhere fs x → somewhere (op_files fs op) x.
Proof.
  destruct op as [job|jobId from to]; simpl; [|apply move_somewhere].
  intros [b Hb]. exists b. unfold Fs.in_bucket in *.
  rewrite lookup_insert_is_Some.
  destruct (decide ((pending, id job) = (b, x))); [by left | by right].
Qed.

Lemma foldl_op_files_somewhere ops fs x :
  somewhere fs x ∨ (∃ job, Create job ∈ ops ∧ id job = x) →
  somewhere (foldl op_files fs ops) x.
Proof.
  revert fs; induction ops as [|op ops IH]; intros fs; simpl.
  - intros [H|(job & Hin & _)]; [done | by apply elem_of_nil in Hin].
  - intros [H|(job & Hin & Hid)].
    + apply IH. left. by apply op_files_somewhere.
    + apply elem_of_cons in Hin as [<-|Hin].
      * apply IH. left. exists pending. unfold Fs.in_bucket; simpl.
        subst x. rewrite lookup_insert_eq. eauto.
      * apply IH. right. eauto.
Qed.

Lemma foldl_op_files_exclusive ops fs :
  Fs.exclusive fs → creates_fresh fs ops → Fs.exclusive (foldl op_files fs ops).
Proof.
  revert fs; induction ops as [|op ops IH]; intros fs Hex; simpl; [done |].
  intros [Hop Hrest]. apply IH; [|done]. by apply op_files_exclusive.
Qed.

Lemma creates_fresh_take n ops fs :
  creates_fresh fs ops → creates_fresh fs (take n ops).
Proof.
  revert fs ops; induction n as [|n IH]; intros fs [|op ops]; simpl; try done.
  intros [Hop Hrest]. split; [done | by apply IH].
Qed.

(** C1, as the code has it. Start from directories in which no id has two
    files, and apply any sequence of [create] and [transition] whose ids are
    plain file names (no slash, no null byte, at most 250 bytes) and in which
    [create] is only applied to an id that has, at that moment, no file
    outside [pending]. Then every operation returns, at every point of the
    sequence no id is in two buckets, and every id that was in a bucket at
    the start or has been created since is in exactly one bucket. The store
    keeps nothing else about a job: a [Job] has no status field and the
    directories are a map from (bucket, file name). An id that is not a
    plain file name is a path: [create] then throws or writes somewhere else
    ([Fs.target]), and the claim is not made for it. *)
Theorem bucket_exclusivity env ops w n :
  Forall plain_op ops →
  Fs.exclusive (jobFiles w) →
  creates_fresh (jobFiles w) ops →
  ∃ w', apply_ops env (take n ops) w = (Normal (), w')
    ∧ Fs.exclusive (jobFiles w')
    ∧ ∀ jobId,
        somewhere (jobFiles w) jobId ∨ (∃ job, Create job ∈ take n ops ∧ id job = jobId) →
        ∃ b, Fs.buckets_of (jobFiles w') jobId = [b].
Proof.
  intros Hplain Hex Hfresh.
  assert (Forall plain_op (take n ops)) as Hplain' by (by apply Forall_take).
  exists (apply_ops env (take n ops) w).2.
  assert (Fs.exclusive (jobFiles (apply_ops env (take n ops) w).2)) as Hex'.
  { rewrite apply_ops_files by done.
    apply foldl_op_files_exclusive; [done | by apply creates_fresh_take]. }
  split; [|split; [done |]].
  - rewrite (run_pair (apply_ops _ _) w) at 1. by rewrite apply_ops_normal.
  - intros jobId Hid.
    assert (somewhere (jobFiles (apply_ops env (take n ops) w).2) jobId) as [b Hb].
    { rewrite apply_ops_files by done. by apply foldl_op_files_somewhere. }
    exists b. by apply FsFacts.buckets_of_singleton.
Qed.

(** Scenario A: [job-007] is created, started and completed. *)
Lemma bucket_exclusivity_witness :
  ∃ w', apply_ops env_example
          (take 3 [Create (job_example "job-007");
                   Transition "job-007" pending in_progress;
                   Transition "job-007" in_progress completed])
          (fresh_world ∅ Bus.initial) = (Normal (), w')
    ∧ Fs.exclusive (jobFiles w')
    ∧ ∀ jobId,
        somewhere ∅ jobId
        ∨ (∃ job, Create job ∈ take 3 [Create (job_example "job-007");
                                       Transition "job-007" pending in_progress;
                                       Transition "job-007" in_progress completed]
                  ∧ id job = jobId) →
        ∃ b, Fs.buckets_of (jobFiles w') jobId = [b].
Proof.
  apply (bucket_exclusivity env_example
           [Create (job_example "job-007");
            Transition "job-007" pending in_progress;
            Transition "job-007" in_progress completed]
           (fresh_world ∅ Bus.initial) 3).
  - repeat constructor.
  - intros x b1 b2 [? H]. simpl in H. by rewrite lookup_empty in H.
  - simpl. split; [by intros; apply lookup_empty |]. done.
Defined.

(** C1 as stated fails when an id comes back: the oracle names the first job
    of every iteration [job-001], the job of iteration 1 ends in [completed],
    and [writeJobFiles] of iteration 2 writes the same id into [pending]. *)
Lemma bucket_exclusivity_counterexample :
  Fs.buckets_of
    (jobFiles (apply_ops env_example
                 [Create (job_example "job-001");
                  Transition "job-001" pending in_progress;
                  Transition "job-001" in_progress completed;
                  Create (job_example "job-001")]
                 (fresh_world ∅ Bus.initial)).2)
    "job-001"
  = [pending; completed].
Proof. vm_compute. reflexivity. Qed.

(** * The merge stage *)

Section Merge.

Context (env : Env).

Hypothesis abort_ok : ∀ log, gitExit env log GitMergeAbort = true.



End Merge.




(** Scenario C, computed: [B] is aborted, [A] and [C] are merged, one push. *)
Example merge_scenario_C :
  gitLog (mergeBranches env_scenario_C ["A"; "B"; "C"] (ready_world ∅ Bus.initial)).2
  = [GitFetchAll; GitMerge "origin/A"; GitMerge "origin/B"; GitMergeAbort;
     GitMerge "origin/C"; GitPush].
Proof. vm_compute. reflexivity. Qed.

(** * The iteration controller *)

Section Controller.

Context (CONFIG : Config) (env : Env).

Lemma checkpoint_preserves {B} (proj : World → B) name :
  ignores proj set_calls → ignores proj set_console → ignores proj set_checkpoints →
  preserves proj (checkpoint name).
Proof.
  intros Hc Hl Hk. unfold checkpoint, enter, console_log. frame.
  - intros w. apply Hc.
  - intros w. apply Hl.
  - intros w. apply Hk.
Qed.

Lemma checkpoint_normal name w : (checkpoint name w).1 = Normal ().
Proof.
  unfold checkpoint, bind, enter, modify, get, console_log; simpl.
  destruct (coordinatorSprite w) as [[[]]|]; done.
Qed.

Lemma checkpoint_calls name w :
  calls (checkpoint name w).2 = calls w ++ [CallCheckpoint name].
Proof.
  unfold checkpoint, bind, enter, modify, get, console_log; simpl.
  destruct (coordinatorSprite w) as [[[]]|]; done.
Qed.

Lemma runAnalysis_preserves {B} (proj : World → B) :
  ignores proj set_calls → ignores proj set_console →
  preserves proj (runAnalysis env).
Proof.
  intros Hc Hl. unfold runAnalysis, enter, console_log.
  frame; try (intros w; first [apply Hc | apply Hl]).
Qed.

Lemma runAnalysis_calls w :
  calls (runAnalysis env w).2 = calls w ++ [CallRunAnalysis].
Proof.
  unfold runAnalysis. rewrite (bind_normal _ _ _ ()) by done.
  match goal with
  | |- calls (?m ?w0).2 = _ => assert (preserves calls m) as ->; [|done]
  end.
  unfold console_log. frame.
Qed.

(** C2. Take any iteration in which the analysis stage returns the empty
    list. Then [runIteration] returns [false], so the loop of [run] is left
    at once: the controller stops. In that iteration the only stages entered
    are the pre-iteration checkpoint and the analysis: [writeJobFiles],
    [runWorkers], [spawnWorker], [mergeBranches] and [updateProductState] are
    not called, no job file is written or moved, no git command is run, and
    no iteration result is recorded. *)
Theorem stopping_law w fuel :
  (∀ w1, this_iteration w1 = S (this_iteration w) →
         coordinatorSprite w1 = coordinatorSprite w →
         (runAnalysis env w1).1 = Normal []) →
  ∃ w',
    runIteration CONFIG env w = (Normal false, w')
    ∧ run_loop CONFIG env (S fuel) w = (Normal (), w')
    ∧ calls w' = calls w
        ++ [CallCheckpoint ("pre-iteration-" +:+ JS.toString (S (this_iteration w)));
            CallRunAnalysis]
    ∧ jobFiles w' = jobFiles w
    ∧ gitLog w' = gitLog w
    ∧ this_results w' = this_results w
    ∧ productStateFile w' = productStateFile w.
Proof.
  intros Hempty.
  set (n := S (this_iteration w)).
  set (w1 := set_iteration n w).
  set (w2 := (emitIterationStart env n w1).2).
  set (w3 := set_console (console w2 ++ [JS.LF +:+ banner; "🔄 ITERATION " +:+ JS.toString n; banner]) w2).
  set (w4 := (checkpoint ("pre-iteration-" +:+ JS.toString n) w3).2).
  set (w5 := (runAnalysis env w4).2).
  set (w' := set_console (console w5 ++ ["No jobs generated. Stopping."]) w5).
  assert (∀ {B} (proj : World → B),
            ignores proj set_iteration → ignores proj set_ticks →
            ignores proj set_delivered → ignores proj set_console →
            ignores proj set_calls → ignores proj set_checkpoints →
            proj w5 = proj w) as Hframe.
  { intros B proj Hi Ht Hd Hl Hc Hk. unfold w5, w4.
    rewrite runAnalysis_preserves, checkpoint_preserves by done.
    unfold w3. rewrite Hl. unfold w2, emitIterationStart.
    rewrite emitEvent_preserves by done. apply Hi. }
  assert (this_iteration w4 = n ∧ coordinatorSprite w4 = coordinatorSprite w) as [Hn4 Hs4].
  { unfold w4. rewrite !checkpoint_preserves by eauto with frame.
    unfold w3, w2, emitIterationStart; cbn [this_iteration coordinatorSprite set_console].
    by rewrite !emitEvent_preserves by eauto with frame. }
  assert (runIteration CONFIG env w = (Normal false, w')) as Hrun.
  { unfold runIteration.
    rewrite (bind_normal _ _ _ ()) by done.
    rewrite (bind_normal _ _ _ w1) by done.
    cbn [get modify snd]. fold n. fold w1.
    replace (this_iteration w1) with n by done.
    rewrite (bind_normal _ _ _ ()) by apply emitEvent_normal. fold w2.
    do 3 rewrite (bind_normal _ _ _ ()) by done.
    replace ((console_log banner (console_log _ (console_log _ w2).2).2).2) with w3
      by (unfold w3, console_log, modify; cbn; by rewrite <- !app_assoc).
    rewrite (bind_normal _ _ _ ()) by apply checkpoint_normal. fold w4.
    rewrite (bind_normal _ _ _ []) by (apply Hempty; done). fold w5.
    done. }
  exists w'. split; [exact Hrun |]. split.
  - cbn [run_loop]. by rewrite (bind_normal _ _ _ false), Hrun by (by rewrite Hrun).
  - repeat split.
    + unfold w', w5. cbn [calls set_console]. rewrite runAnalysis_calls.
      unfold w4. rewrite checkpoint_calls.
      unfold w3, w2, emitIterationStart. cbn [calls set_console].
      rewrite emitEvent_preserves by eauto with frame.
      cbn. by rewrite <- app_assoc.
    + unfold w'. cbn [jobFiles set_console]. apply (Hframe _ jobFiles); eauto with frame.
    + unfold w'. cbn [gitLog set_console]. apply (Hframe _ gitLog); eauto with frame.
    + unfold w'. cbn [this_results set_console]. apply (Hframe _ this_results); eauto with frame.
    + unfold w'. cbn [productStateFile set_console].
      apply (Hframe _ productStateFile); eauto with frame.
Qed.

End Controller.

Lemma stopping_law_witness :
  ∃ w',
    runIteration CONFIG_source env_example (ready_world ∅ Bus.initial) = (Normal false, w')
    ∧ run_loop CONFIG_source env_example 11 (ready_world ∅ Bus.initial) = (Normal (), w')
    ∧ calls w' = [] ++ [CallCheckpoint ("pre-iteration-" +:+ JS.toString 1); CallRunAnalysis]
    ∧ jobFiles w' = ∅
    ∧ gitLog w' = []
    ∧ this_results w' = []
    ∧ productStateFile w' = None.
Proof.
  apply (stopping_law CONFIG_source env_example (ready_world ∅ Bus.initial) 10).
  intros w1 Hn Hs.
  unfold runAnalysis, bind, enter, modify, get, console_log, try_catch, ret; simpl.
  simpl in Hn, Hs. rewrite Hs, Hn. reflexivity.
Defined.

(** * The analysis stage *)

Module MatchFacts.

Import Str JS.

#[local] Arguments String.append !s1 s2 : simpl nomatch.

Lemma from_first_None c s : from_first c s = None ↔ contains_char c s = false.
Proof.
  induction s as [|d s IH]; simpl; [done |].
  rewrite (Ascii.eqb_sym c d). destruct (Ascii.eqb d c); [|done].
  split; discriminate.
Qed.

Lemma from_first_Some c s r :
  from_first c s = Some r →
  ∃ pre r', s = pre +:+ r ∧ r = String c r' ∧ contains_char c pre = false.
Proof.
  induction s as [|d s IH]; simpl; [done |].
  destruct (Ascii.eqb_spec d c) as [->|Hne].
  - intros [= <-]. by exists "", s.
  - intros (pre & r' & -> & -> & Hpre)%IH.
    exists (String d pre), r'. simpl. repeat split.
    destruct (Ascii.eqb_spec c d) as [->|]; [done | exact Hpre].
Qed.

Lemma upto_last_None c s : upto_last c s = None ↔ contains_char c s = false.
Proof.
  induction s as [|d s IH]; simpl; [done |].
  rewrite (Ascii.eqb_sym c d).
  destruct (upto_last c s) as [r|].
  - destruct (Ascii.eqb d c); [split; discriminate |].
    split; [discriminate |]. intros H. by apply IH in H.
  - destruct (Ascii.eqb d c); [split; discriminate |].
    split; [intros _; by apply IH | done].
Qed.

Lemma upto_last_Some c s r :
  upto_last c s = Some r →
  ∃ inner post, s = r +:+ post ∧ r = inner +:+ String c "" ∧ contains_char c post = false.
Proof.
  revert r; induction s as [|d s IH]; intros r; simpl; [done |].
  destruct (upto_last c s) as [r0|] eqn:Hr0.
  - intros [= <-]. destruct (IH r0 eq_refl) as (inner & post & -> & -> & Hpost).
    exists (String d inner), post. by simpl.
  - destruct (Ascii.eqb_spec d c) as [->|]; [|done].
    intros [= <-]. exists "", s. simpl. repeat split.
    by apply upto_last_None.
Qed.

(** whatever follows an occurrence of [c] follows its first occurrence *)
Lemma after_first_occurrence c (pre0 rest pre post : string) :
  contains_char c pre0 = false →
  pre0 +:+ String c rest = pre +:+ String c post →
  ∃ x, rest = x +:+ post.
Proof.
  revert pre; induction pre0 as [|d pre0 IH]; intros pre; simpl.
  - intros _. destruct pre as [|e pre]; simpl.
    + intros [= ->]. by exists "".
    + intros [= _ ->]. exists (pre +:+ String c "").
      by rewrite StrFacts.app_assoc.
  - destruct (Ascii.eqb_spec c d) as [->|Hne]; [done |].
    intros Hpre0. destruct pre as [|e pre]; simpl.
    + intros [= Hd _]. congruence.
    + intros [= _ H]. by apply (IH pre).
Qed.

(** The greedy match is the text from the first opening bracket to the last
    closing bracket. *)
Lemma match_bracketed_greedy_Some text m :
  match_bracketed_greedy text = Some m →
  ∃ pre inner post,
    text = pre +:+ m +:+ post
    ∧ m = "[" +:+ inner +:+ "]"
    ∧ contains_char "[" pre = false
    ∧ contains_char "]" post = false.
Proof.
  unfold match_bracketed_greedy.
  destruct (from_first "[" text) as [r|] eqn:Hr; [|done].
  apply from_first_Some in Hr as (pre & rest & -> & -> & Hpre).
  destruct (upto_last "]" rest) as [body|] eqn:Hb; [|done].
  apply upto_last_Some in Hb as (inner & post & -> & -> & Hpost).
  intros [= <-]. exists pre, inner, post. repeat split; try done.
Qed.

Lemma match_bracketed_greedy_None text :
  match_bracketed_greedy text = None →
  ∀ pre post, text = pre +:+ "[" +:+ post → contains_char "]" post = false.
Proof.
  unfold match_bracketed_greedy. intros Hm pre post ->.
  destruct (from_first "[" (pre +:+ "[" +:+ post)) as [r|] eqn:Hr.
  - apply from_first_Some in Hr as (pre0 & rest & Heq & -> & Hpre0).
    destruct (upto_last "]" rest) as [?|] eqn:Hb; [done |].
    apply upto_last_None in Hb.
    symmetry in Heq. apply after_first_occurrence in Heq as [x ->]; [|done].
    rewrite StrFacts.contains_char_app in Hb. by apply orb_false_elim in Hb as [_ ?].
  - apply from_first_None in Hr.
    rewrite StrFacts.contains_char_app in Hr. apply orb_false_elim in Hr as [_ Hr].
    simpl in Hr. done.
Qed.

End MatchFacts.

(** what [runAnalysis] returns for a response, and the last line it prints *)
Lemma runAnalysis_response env w sprite text :
  coordinatorSprite w = Some sprite →
  analysisRun env (this_iteration w) = ApiResponds text →
  ∃ w',
    runAnalysis env w =
      (Normal (match JS.match_bracketed_greedy text with
               | Some jsonMatch => default [] (JSON_parse env jsonMatch)
               | None => []
               end), w')
    ∧ last (console w') =
        Some (match JS.match_bracketed_greedy text with
              | Some jsonMatch =>
                  match JSON_parse env jsonMatch with
                  | Some jobs => "✅ Generated " +:+ JS.toString (length jobs) +:+ " jobs"
                  | None => "❌ API call or parsing failed: SyntaxError"
                  end
              | None => "Response: " +:+ String.substring 0 500 text
              end).
Proof.
  intros Hs Hrun.
  unfold runAnalysis, bind, enter, modify, get, console_log, try_catch, ret, throw.
  cbn [snd fst coordinatorSprite set_calls this_iteration set_console console].
  rewrite Hs, Hrun.
  destruct (JS.match_bracketed_greedy text) as [m|]; cbn.
  - destruct (JSON_parse env m) as [jobs|]; cbn;
      (eexists; split; [reflexivity |]); cbn; by rewrite last_snoc.
  - eexists; split; [reflexivity |]. cbn. by rewrite last_snoc.
Qed.

(** C6, as the code has it. Given the text of a response, [runAnalysis] of
    the coordinator takes the substring that runs from the first opening
    bracket of the text to the last closing bracket after it, and parses that.
    When the text has no opening bracket followed by a closing one, or
    [JSON.parse] throws on the substring, it prints an error and returns the
    empty list; it does not throw. The simple runner also returns the empty
    list when its match or the parse fails. *)
Theorem analysis_parse_contract env w sprite text :
  coordinatorSprite w = Some sprite →
  analysisRun env (this_iteration w) = ApiResponds text →
  (∃ w' jobs,
     runAnalysis env w = (Normal jobs, w')
     ∧ match JS.match_bracketed_greedy text with
       | Some jsonMatch =>
           (∃ pre inner post,
              text = pre +:+ jsonMatch +:+ post
              ∧ jsonMatch = "[" +:+ inner +:+ "]"
              ∧ Str.contains_char "[" pre = false
              ∧ Str.contains_char "]" post = false)
           ∧ match JSON_parse env jsonMatch with
             | Some parsed => jobs = parsed
             | None =>
                 jobs = []
                 ∧ last (console w') = Some "❌ API call or parsing failed: SyntaxError"
             end
       | None =>
           (∀ pre post, text = pre +:+ "[" +:+ post → Str.contains_char "]" post = false)
           ∧ jobs = []
           ∧ "❌ Failed to find JSON array in response" ∈ console w'
       end)
  ∧ (∀ output,
       match JS.match_bracketed_lazy output with
       | Some jsonMatch =>
           JSON_parse env jsonMatch = None →
           (SimpleRunner.parseJobs (JSON_parse env) output).1 = []
       | None => (SimpleRunner.parseJobs (JSON_parse env) output).1 = []
       end).
Proof.
  intros Hs Hrun. split.
  - destruct (runAnalysis_response env w sprite text Hs Hrun) as (w' & Hres & Hlast).
    exists w'. eexists. split; [exact Hres |].
    destruct (JS.match_bracketed_greedy text) as [m|] eqn:Hm.
    + split; [by apply MatchFacts.match_bracketed_greedy_Some |].
      destruct (JSON_parse env m); [done | by split].
    + split; [by apply MatchFacts.match_bracketed_greedy_None |]. split; [done |].
      revert Hres.
      unfold runAnalysis, bind, enter, modify, get, console_log, try_catch, ret, throw.
      cbn [snd fst coordinatorSprite set_calls this_iteration set_console console].
      rewrite Hs, Hrun, Hm. intros [= <-]. cbn. set_solver.
  - intros output. unfold SimpleRunner.parseJobs.
    destruct (JS.match_bracketed_lazy output) as [m|]; [|done].
    by intros ->.
Qed.

(** Scenario B: a response with no bracketed array. *)
Lemma analysis_parse_contract_witness :
  (∃ w' jobs,
     runAnalysis env_example (ready_world ∅ Bus.initial) = (Normal jobs, w')
     ∧ match JS.match_bracketed_greedy "nothing to do" with
       | Some jsonMatch =>
           (∃ pre inner post,
              "nothing to do" = pre +:+ jsonMatch +:+ post
              ∧ jsonMatch = "[" +:+ inner +:+ "]"
              ∧ Str.contains_char "[" pre = false
              ∧ Str.contains_char "]" post = false)
           ∧ match JSON_parse env_example jsonMatch with
             | Some parsed => jobs = parsed
             | None =>
                 jobs = []
                 ∧ last (console w') = Some "❌ API call or parsing failed: SyntaxError"
             end
       | None =>
           (∀ pre post, "nothing to do" = pre +:+ "[" +:+ post →
                        Str.contains_char "]" post = false)
           ∧ jobs = []
           ∧ "❌ Failed to find JSON array in response" ∈ console w'
       end)
  ∧ (∀ output,
       match JS.match_bracketed_lazy output with
       | Some jsonMatch =>
           JSON_parse env_example jsonMatch = None →
           (SimpleRunner.parseJobs (JSON_parse env_example) output).1 = []
       | None => (SimpleRunner.parseJobs (JSON_parse env_example) output).1 = []
       end).
Proof.
  apply (analysis_parse_contract env_example (ready_world ∅ Bus.initial)
           (mkSprite false) "nothing to do"); reflexivity.
Defined.

(** C6 as stated fails on a response that goes on after its array and uses a
    bracket again: the first top-level array of the text is [[1, 2]], and the
    coordinator hands [JSON.parse] everything up to the last bracket. *)
Lemma analysis_parse_contract_counterexample :
  first_top_level_array "Jobs: [1, 2] (see [3])" = Some "[1, 2]"
  ∧ JS.match_bracketed_greedy "Jobs: [1, 2] (see [3])" = Some "[1, 2] (see [3]".
Proof. split; reflexivity. Qed.

(** * The state report and the dashboard's reading of it *)

Module ReportFacts.

Import Str JS Dashboard.

#[local] Arguments String.append !s1 s2 : simpl nomatch.
#[local] Arguments Ascii.eqb : simpl never.

Lemma all_chars_app p (a b : string) :
  all_chars p (a +:+ b) = all_chars p a && all_chars p b.
Proof. induction a as [|c a IH]; simpl; [done | by rewrite IH, andb_assoc]. Qed.

Lemma all_chars_impl (p q : ascii → bool) s :
  (∀ c, p c = true → q c = true) → all_chars p s = true → all_chars q s = true.
Proof.
  intros Hpq. induction s as [|c s IH]; simpl; [done |].
  intros [Hc Hs]%andb_prop. by rewrite (Hpq c Hc), IH.
Qed.

Lemma digit_is_iso c : is_digit c = true → iso_char c = true.
Proof. unfold iso_char. by intros ->. Qed.

Lemma zeros_digits k : all_chars is_digit (zeros k) = true.
Proof. induction k; simpl; auto. Qed.

Lemma pad_iso width n : all_chars iso_char (pad width n) = true.
Proof.
  apply (all_chars_impl is_digit); [apply digit_is_iso |].
  unfold pad. by rewrite all_chars_app, zeros_digits, JSFacts.toString_digits.
Qed.

Lemma toISOString_iso d : all_chars iso_char (toISOString d) = true.
Proof.
  unfold toISOString.
  repeat (rewrite all_chars_app; apply andb_true_intro; split);
    try apply pad_iso; try reflexivity.
  destruct (year d <? 10 * 1000); [apply pad_iso |].
  rewrite all_chars_app, pad_iso. reflexivity.
Qed.

Lemma toString_nonempty n : toString n ≠ "".
Proof.
  unfold toString. intros H.
  assert (Nat.to_uint n = Nil) as Hnil.
  { destruct (Nat.to_uint n); simpl in H; congruence. }
  pose proof (DecimalNat.Unsigned.to_of (Nat.to_uint n)) as Hnorm.
  rewrite DecimalNat.Unsigned.of_to, Hnil in Hnorm. discriminate Hnorm.
Qed.

Lemma parseInt_acc_uint (d : uint) acc :
  parseInt_acc (NilEmpty.string_of_uint d) acc = Nat.of_uint_acc d acc.
Proof.
  revert acc; induction d; intros acc; simpl; [done | ..];
    rewrite IHd; f_equal; rewrite Nat.tail_mul_spec; unfold digit_value; simpl; lia.
Qed.

Lemma parseInt_toString n : parseInt (toString n) = n.
Proof.
  unfold parseInt, toString. rewrite parseInt_acc_uint.
  apply DecimalNat.Unsigned.of_to.
Qed.

Lemma take_while_digits (digits : string) (l : ascii) (rest : string) :
  all_chars is_digit digits = true → is_digit l = false →
  take_while is_digit (digits +:+ String l rest) = digits.
Proof.
  intros Hds Hl. induction digits as [|c ds IH]; simpl; [by rewrite Hl |].
  simpl in Hds. apply andb_prop in Hds as [-> Hds]. by rewrite IH.
Qed.

Lemma drop_space_digits (digits rest : string) :
  all_chars is_digit digits = true → digits ≠ "" →
  drop_while is_space (String " " (digits +:+ rest)) = digits +:+ rest.
Proof.
  destruct digits as [|c ds]; [done |]. simpl.
  intros [Hc _]%andb_prop _.
  assert (is_space c = false) as ->; [|done].
  unfold is_digit, is_space in *.
  apply andb_prop in Hc as [H1%Nat.leb_le H2%Nat.leb_le].
  apply orb_false_intro.
  - apply andb_false_intro2, Nat.leb_gt. lia.
  - apply Nat.eqb_neq. lia.
Qed.

(** the line that [updateProductState] writes is a match *)
Lemma match_total_here_line n rest :
  match_total_here ("Total iterations: " +:+ toString n +:+ LF +:+ rest)
  = Some (toString n).
Proof.
  unfold match_total_here.
  change ("Total iterations: " +:+ toString n +:+ LF +:+ rest)
    with ("Total iterations:"
            +:+ String " " (toString n +:+ String (ascii_of_nat 10) rest)).
  rewrite StrFacts.strip_prefix_app.
  rewrite drop_space_digits
    by (apply JSFacts.toString_digits || apply toString_nonempty).
  rewrite take_while_digits by (apply JSFacts.toString_digits || reflexivity).
  destruct (String.eqb_spec (toString n) ""); [|done].
  by destruct (toString_nonempty n).
Qed.

Lemma match_total_iterations_here s digits :
  match_total_here s = Some digits → match_total_iterations s = Some digits.
Proof.
  intros H. destruct s as [|c s]; [done |].
  cbn [match_total_iterations]. by rewrite H.
Qed.

(** no match starts inside a text without a capital T *)
Lemma match_total_skip (p rest : string) :
  contains_char "T" p = false →
  match_total_iterations (p +:+ rest) = match_total_iterations rest.
Proof.
  induction p as [|c p IH]; simpl; [done |].
  destruct (Ascii.eqb "T" c) eqn:Hc; [done |].
  intros Hp. rewrite <- (IH Hp).
  unfold match_total_here; simpl. by rewrite Hc.
Qed.

(** no match starts inside a timestamp that a line feed follows *)
Lemma match_total_skip_timestamp (ts rest : string) :
  all_chars iso_char ts = true →
  match_total_iterations (ts +:+ LF +:+ rest) = match_total_iterations (LF +:+ rest).
Proof.
  change (LF +:+ rest) with (String (ascii_of_nat 10) rest).
  induction ts as [|c ts IH]; [done |].
  intros Hts. simpl in Hts. apply andb_prop in Hts as [Hc Hts]. rewrite <- (IH Hts).
  change (String c ts +:+ String (ascii_of_nat 10) rest)
    with (String c (ts +:+ String (ascii_of_nat 10) rest)).
  cbn [match_total_iterations].
  assert (match_total_here (String c (ts +:+ String (ascii_of_nat 10) rest)) = None)
    as ->; [|done].
  unfold match_total_here. cbn [strip_prefix].
  destruct (Ascii.eqb "T" c); [|done].
  destruct ts as [|c' ts']; [done |].
  simpl. simpl in Hts. apply andb_prop in Hts as [Hc' _].
  destruct (Ascii.eqb_spec "o" c') as [<-|]; [done | done].
Qed.

End ReportFacts.

(** C10. Whatever the clock says and whatever the counts and branches are,
    the report that [updateProductState] writes when [this.iteration] and
    the result's iteration number are both [n] is read back by the
    dashboard's [updateStateFromFiles] as iteration [n]. *)
Theorem iteration_number_round_trip
    (w : World) (d : JS.Date) (n completed_count failed_count : nat)
    (merged : list string) (current : nat) :
  let result :=
    mkIterationResult n completed_count failed_count merged (JS.toISOString d) in
  Dashboard.iteration_from_file current
    (productStateFile (updateProductState result (set_iteration n w)).2)
  = n.
Proof.
  intros result.
  unfold updateProductState, bind, enter, modify; cbn [snd productStateFile set_productStateFile].
  unfold Dashboard.iteration_from_file, stateContent.
  cbn [timestamp result this_iteration set_iteration set_calls].
  rewrite (ReportFacts.match_total_skip "# Product State") by reflexivity.
  rewrite (ReportFacts.match_total_skip JS.LF) by reflexivity.
  rewrite (ReportFacts.match_total_skip JS.LF) by reflexivity.
  rewrite (ReportFacts.match_total_skip "Last updated: ") by reflexivity.
  rewrite ReportFacts.match_total_skip_timestamp by apply ReportFacts.toISOString_iso.
  rewrite (ReportFacts.match_total_skip JS.LF) by reflexivity.
  rewrite (ReportFacts.match_total_iterations_here _ (JS.toString n))
    by apply ReportFacts.match_total_here_line.
  apply ReportFacts.parseInt_toString.
Qed.

(** * Static files *)

Module PathFacts.

Import Str JS Path.

#[local] Arguments String.append !s1 s2 : simpl nomatch.
#[local] Arguments Ascii.eqb : simpl never.

Lemma startsWith_cons a p c s :
  startsWith (String a p) (String c s) = Ascii.eqb a c && startsWith p s.
Proof. simpl. by destruct (Ascii.eqb a c). Qed.

Lemma contains_char_cons c d s :
  contains_char c (String d s) = Ascii.eqb c d || contains_char c s.
Proof. simpl. by destruct (Ascii.eqb c d). Qed.

Lemma split_no_sep sep s :
  Forall (λ seg, contains_char sep seg = false) (split sep s).
Proof.
  induction s as [|c s IH]; simpl; [by repeat constructor |].
  destruct (Ascii.eqb_spec c sep) as [->|Hne].
  - by constructor.
  - destruct (split sep s) as [|x xs]; inversion IH; subst;
      constructor; simpl; try done;
      destruct (Ascii.eqb_spec sep c); congruence.
Qed.

Lemma push_segment_kept allow stack seg :
  contains_char "/" seg = false →
  Forall kept stack → Forall kept (push_segment allow stack seg).
Proof.
  intros Hseg Hstack. unfold push_segment.
  destruct (String.eqb_spec seg "") as [->|Hne]; [done |].
  destruct (String.eqb_spec seg ".") as [->|Hdot]; [done |]. simpl.
  destruct (String.eqb_spec seg "..") as [->|Hdd].
  - destruct stack as [|top below].
    + destruct allow; [|done]. by repeat constructor.
    + destruct (String.eqb top "..").
      * destruct allow; [|done]. constructor; [by repeat split | done].
      * by inversion Hstack.
  - constructor; [by repeat split | done].
Qed.

Lemma foldl_push_kept allow segs stack :
  Forall (λ seg, contains_char "/" seg = false) segs →
  Forall kept stack → Forall kept (foldl (push_segment allow) stack segs).
Proof.
  revert stack; induction segs as [|seg segs IH]; intros stack Hsegs Hstack; [done |].
  inversion Hsegs; subst. simpl. apply IH; [done |]. by apply push_segment_kept.
Qed.

(** A kept segment, alone or followed by a slash, does not begin the way
    [PUBLIC_DIR] does. *)
Lemma kept_not_public seg t :
  kept seg → (t = "" ∨ ∃ t', t = String "/" t') →
  startsWith Dashboard.PUBLIC_DIR (seg +:+ t) = false.
Proof.
  intros (Hne & Hdot & Hslash) Ht.
  destruct seg as [|c seg]; [done |].
  unfold Dashboard.PUBLIC_DIR.
  change (String c seg +:+ t) with (String c (seg +:+ t)).
  rewrite startsWith_cons.
  destruct (Ascii.eqb_spec "." c) as [<-|]; [|done].
  rewrite contains_char_cons in Hslash. apply orb_false_elim in Hslash as [_ Hslash].
  destruct seg as [|c' seg]; [done |].
  change (String c' seg +:+ t) with (String c' (seg +:+ t)).
  rewrite startsWith_cons.
  rewrite contains_char_cons in Hslash. apply orb_false_elim in Hslash as [-> _].
  done.
Qed.

Lemma join_head (s : string) rest :
  ∃ t, JS.join "/" (s :: rest) = s +:+ t ∧ (t = "" ∨ ∃ t', t = String "/" t').
Proof.
  destruct rest as [|r rest]; simpl.
  - exists "". by rewrite StrFacts.app_nil_r; auto.
  - exists ("/" +:+ JS.join "/" (r :: rest)). split; [done |]. right. by eexists.
Qed.

(** [path.join] of the public directory and a request never gives a path
    that starts with the public directory as the source spells it. *)
Lemma join_public_never_guarded (requested : string) :
  requested ≠ "" →
  startsWith Dashboard.PUBLIC_DIR (Path.join Dashboard.PUBLIC_DIR requested) = false.
Proof.
  intros Hne. destruct requested as [|c r]; [done |].
  unfold Path.join, Dashboard.PUBLIC_DIR.
  set (path := "./dashboard/public" +:+ "/" +:+ String c r).
  change (normalize path)
    with (let trailingSeparator := endsWith_slash path in
          let p := normalizeString path true in
          if String.eqb p "" then if trailingSeparator then "./" else "."
          else if trailingSeparator then p +:+ "/" else p).
  cbv zeta.
  destruct (String.eqb_spec (normalizeString path true) "") as [Hp|Hp].
  { by destruct (endsWith_slash path). }
  unfold normalizeString in *.
  pose proof (foldl_push_kept true (split "/" path) [] (split_no_sep "/" path)
                (Forall_nil_2 _)) as Hkept.
  apply Forall_rev in Hkept.
  destruct (rev (foldl (push_segment true) [] (split "/" path))) as [|s rest]; [done |].
  inversion Hkept as [|? ? Hs _]; subst.
  destruct (join_head s rest) as (t & -> & Ht).
  destruct (endsWith_slash path).
  - rewrite StrFacts.app_assoc. apply kept_not_public; [done |].
    destruct Ht as [->|[t' ->]]; right; by eexists.
  - by apply kept_not_public.
Qed.

End PathFacts.

Lemma requested_nonempty url : Dashboard.requested url ≠ "".
Proof.
  unfold Dashboard.requested. destruct url as [u|]; [|done].
  destruct (String.eqb u "/"); [done |].
  destruct (String.eqb_spec u ""); done.
Qed.

(** C9, what the code does. [path.join] normalises its result, which drops
    the leading [./] of [PUBLIC_DIR]; the guard of [serveStatic] then compares
    the normalised path with [PUBLIC_DIR] as written, [./dashboard/public],
    and never finds it at the start. So every request that reaches
    [serveStatic] is answered 403 and no file is read at all: no file outside
    the public root is read, and no file under it is served either, the
    front page [/] included. *)
Theorem static_serving_always_forbidden
    (disk : string → option string) (url : option string) :
  Dashboard.serveStatic disk url = Dashboard.mkResponse 403 "text/plain" "Forbidden"
  ∧ Dashboard.serveStatic_reads url = None.
Proof.
  unfold Dashboard.serveStatic, Dashboard.serveStatic_reads.
  by rewrite PathFacts.join_public_never_guarded by apply requested_nonempty.
Qed.

(** the front page, with [index.html] in place under the public directory *)
Example static_front_page_forbidden :
  let disk := λ path,
    if String.eqb path "dashboard/public/index.html" then Some "<!DOCTYPE html>"
    else None in
  Dashboard.route (Some "/") = Dashboard.StaticRequest
  ∧ Path.join Dashboard.PUBLIC_DIR "/index.html" = "dashboard/public/index.html"
  ∧ Dashboard.serveStatic disk (Some "/")
    = Dashboard.mkResponse 403 "text/plain" "Forbidden".
Proof. repeat split; reflexivity. Qed.

(** * Dispatch *)

Section Workers.

Context (env : Env).

Lemma spawnWorker_start_normal job w : (spawnWorker_start env job w).1 = Normal ().
Proof.
  unfold spawnWorker_start.
  do 2 rewrite (bind_normal _ _ _ ()) by done.
  apply transition_normal.
Qed.

Lemma spawnWorker_start_files job w :
  jobFiles (spawnWorker_start env job w).2 = start_files (jobFiles w) (0, job).
Proof.
  unfold spawnWorker_start.
  do 2 rewrite (bind_normal _ _ _ ()) by done.
  by rewrite transition_files.
Qed.

Lemma spawnWorker_start_preserves {B} (proj : World → B) job :
  ignores proj set_ticks → ignores proj set_delivered → ignores proj set_jobFiles →
  ignores proj set_console → ignores proj set_calls →
  preserves proj (spawnWorker_start env job).
Proof.
  intros Ht Hd Hf Hl Hc. unfold spawnWorker_start, enter, console_log. frame.
  - intros w. apply Hc.
  - intros w. apply Hl.
Qed.

Lemma spawnWorker_finish_run idx job w :
  ∃ w', spawnWorker_finish env idx job w
        = (finish_completion env (this_iteration w) (idx, job), w')
    ∧ jobFiles w' = finish_files env (this_iteration w) (jobFiles w) (idx, job)
    ∧ this_iteration w' = this_iteration w.
Proof.
  unfold spawnWorker_finish, finish_completion, finish_files, finish_bucket.
  rewrite (bind_normal _ _ _ w) by done. cbn [get snd fst].
  destruct (workerRun env (this_iteration w) idx) as [c s d].
  cbn [createSprite_ok steps_ok delete_ok].
  destruct c; [|by eexists].
  unfold try_finally, try_catch.
  destruct s.
  - rewrite (bind_normal _ _ _ ()) by done. cbn [ret snd].
    rewrite (bind_normal _ _ _ ()) by apply transition_normal.
    rewrite (bind_normal _ _ _ ()) by done.
    cbn [ret console_log modify snd].
    destruct d; cbn [ret throw]; (eexists; split; [reflexivity |]);
      cbn [jobFiles this_iteration set_console];
      by rewrite transition_files, transition_preserves by eauto with frame.
  - rewrite (bind_throw _ _ _ "a step of the worker failed") by done.
    cbn [throw snd].
    rewrite (bind_normal _ _ _ ()) by done.
    rewrite (bind_normal _ _ _ ()) by apply transition_normal.
    cbn [ret console_log modify snd].
    destruct d; cbn [ret throw]; (eexists; split; [reflexivity |]);
      rewrite transition_files, transition_preserves by eauto with frame; done.
Qed.

Lemma starts_run (indexed : list (nat * Job)) w :
  ∃ w', for_of indexed (λ ij, spawnWorker_start env ij.2) w = (Normal (), w')
    ∧ jobFiles w' = foldl start_files (jobFiles w) indexed
    ∧ this_iteration w' = this_iteration w.
Proof.
  revert w; induction indexed as [|ij indexed IH]; intros w; simpl.
  - by eexists.
  - rewrite (bind_normal _ _ _ ()) by apply spawnWorker_start_normal.
    destruct (IH (spawnWorker_start env ij.2 w).2) as (w' & -> & Hfiles & Hit).
    exists w'. split; [done |].
    rewrite Hfiles, Hit, spawnWorker_start_files.
    by rewrite spawnWorker_start_preserves by eauto with frame.
Qed.

Lemma finishes_run (order : list (nat * Job)) w :
  ∃ w',
    map_of order (λ ij,
      let* c := settle (spawnWorker_finish env ij.1 ij.2) in ret (ij.1, c)) w
    = (Normal ((λ ij, (ij.1, finish_completion env (this_iteration w) ij)) <$> order), w')
    ∧ jobFiles w' = foldl (finish_files env (this_iteration w)) (jobFiles w) order
    ∧ this_iteration w' = this_iteration w.
Proof.
  revert w; induction order as [|[idx job] order IH]; intros w; simpl.
  - by eexists.
  - destruct (spawnWorker_finish_run idx job w) as (w1 & Hrun & Hfiles & Hit).
    destruct (IH w1) as (w' & Hrest & Hfiles' & Hit').
    exists w'. split; [|split].
    + erewrite bind_run; [|by erewrite settle_bind by exact Hrun].
      cbn [fst snd]. erewrite bind_run by exact Hrest.
      by rewrite Hit.
    + by rewrite Hfiles', Hit, Hfiles.
    + by rewrite Hit', Hit.
Qed.

Lemma Promise_all_run {A} keys (settled : list (nat * Completion A)) w :
  Promise_all keys settled w = (Promise_all_result keys settled, w).
Proof.
  unfold Promise_all, Promise_all_result.
  destruct (first_rejection settled); [done |].
  induction keys as [|key keys IH]; simpl; [done |].
  destruct (value_of key settled) as [a|]; [|done].
  erewrite bind_run by done.
  unfold bind. rewrite IH. by destruct (values_of keys settled).
Qed.

(** [runBatch] in one equation: the value is that of [Promise.all] over
    the settled workers, and the directories have seen every start, then
    every finish in the order of finishing. *)
Lemma runBatch_run i batch w :
  let it := this_iteration w in
  let indexed := indexed_from i batch in
  let order := finish_order env it indexed in
  ∃ w',
    runBatch env i batch w
    = (Promise_all_result (fst <$> indexed)
         ((λ ij, (ij.1, finish_completion env it ij)) <$> order), w')
    ∧ jobFiles w' = foldl (finish_files env it) (foldl start_files (jobFiles w) indexed) order
    ∧ this_iteration w' = it.
Proof.
  intros it indexed order. unfold runBatch. fold (indexed_from i batch). fold indexed.
  destruct (starts_run indexed w) as (w1 & Hstart & Hfiles1 & Hit1).
  rewrite (bind_normal _ _ _ ()), Hstart by (by rewrite Hstart). cbn [snd].
  rewrite (bind_normal _ _ _ w1) by done. cbn [get snd].
  destruct (finishes_run (finish_order env (this_iteration w1) indexed) w1)
    as (w2 & Hfin & Hfiles2 & Hit2).
  rewrite Hit1 in *. fold it in Hfin, Hfiles2. fold order in Hfin, Hfiles2.
  fold it. fold order.
  exists w2. split; [|split].
  - erewrite bind_run by exact Hfin. apply Promise_all_run.
  - by rewrite Hfiles2, Hfiles1.
  - by rewrite Hit2.
Qed.

End Workers.

(** ** Positions, finishing order, [Promise.all] *)

Lemma indexed_from_fst i jobs : fst <$> indexed_from i jobs = seq i (length jobs).
Proof.
  unfold indexed_from. revert i; induction jobs as [|job jobs IH]; intros i; [done |].
  cbn [imap fmap list_fmap length seq]. rewrite Nat.add_0_r. f_equal.
  rewrite <- (IH (S i)). unfold fmap. f_equal.
  apply imap_ext; intros k j _. simpl. f_equal. lia.
Qed.

Lemma indexed_from_snd i jobs : snd <$> indexed_from i jobs = jobs.
Proof.
  unfold indexed_from. revert i; induction jobs as [|job jobs IH]; intros i; [done |].
  cbn [imap fmap list_fmap]. f_equal.
  rewrite <- (IH (S i)) at 2. unfold fmap. f_equal.
  apply imap_ext; intros k j _. simpl. f_equal. lia.
Qed.

Lemma indexed_from_lookup i jobs k job :
  jobs !! k = Some job → (i + k, job) ∈ indexed_from i jobs.
Proof.
  intros Hk. apply list_elem_of_lookup. exists k.
  unfold indexed_from. by rewrite list_lookup_imap, Hk.
Qed.

Lemma elem_of_indexed_from i jobs idx job :
  (idx, job) ∈ indexed_from i jobs → ∃ k, idx = i + k ∧ jobs !! k = Some job.
Proof.
  intros [k Hk]%list_elem_of_lookup. exists k.
  unfold indexed_from in Hk. rewrite list_lookup_imap in Hk.
  destruct (jobs !! k) as [j|]; [|done]. simpl in Hk. by injection Hk as <- <-.
Qed.

Lemma finish_order_perm env it indexed : finish_order env it indexed ≡ₚ indexed.
Proof. apply merge_sort_Permutation. Qed.

Lemma first_rejection_None {A} (settled : list (nat * Completion A)) k c :
  first_rejection settled = None → (k, c) ∈ settled → ∀ e, c ≠ Throw e.
Proof.
  induction settled as [|[k' c'] settled IH]; intros Hnone Hin e.
  - by apply elem_of_nil in Hin.
  - apply elem_of_cons in Hin as [[= <- <-]|Hin].
    + intros ->. done.
    + apply IH; [|done]. by destruct c'.
Qed.

Lemma first_rejection_all_Normal {A} (c : nat * Job → Completion A) (l : list (nat * Job)) :
  (∀ ij, ij ∈ l → ∃ a, c ij = Normal a) →
  first_rejection ((λ ij, (ij.1, c ij)) <$> l) = None.
Proof.
  induction l as [|ij l IH]; intros Hall; [done |].
  cbn [fmap list_fmap first_rejection].
  destruct (Hall ij) as [a ->]; [by left |].
  apply IH. intros ij' Hin. apply Hall. by right.
Qed.

Lemma value_of_fmap {A} (c : nat * Job → Completion A) (l : list (nat * Job)) k j :
  NoDup (fst <$> l) → (k, j) ∈ l →
  value_of k ((λ ij, (ij.1, c ij)) <$> l)
  = match c (k, j) with Normal a => Some a | _ => None end.
Proof.
  induction l as [|[k' j'] l IH]; intros Hnd Hin.
  - by apply elem_of_nil in Hin.
  - cbn [fmap list_fmap value_of fst]. apply NoDup_cons in Hnd as [Hk' Hnd].
    apply elem_of_cons in Hin as [[= <- <-]|Hin].
    + by rewrite Nat.eqb_refl.
    + destruct (Nat.eqb_spec k' k) as [->|Hne]; [|by apply IH].
      destruct Hk'. apply list_elem_of_fmap. by exists (k, j).
Qed.

Lemma values_of_fmap {A} (c : nat * Job → Completion A) (r : nat * Job → A)
    (order indexed : list (nat * Job)) :
  NoDup (fst <$> order) →
  (∀ ij, ij ∈ indexed → ij ∈ order ∧ c ij = Normal (r ij)) →
  values_of (fst <$> indexed) ((λ ij, (ij.1, c ij)) <$> order) = Normal (r <$> indexed).
Proof.
  intros Hnd. induction indexed as [|[k j] indexed IH]; intros Hall; [done |].
  cbn [fmap list_fmap values_of fst].
  destruct (Hall (k, j)) as [Hin Hc]; [by left |].
  rewrite (value_of_fmap c order k j Hnd Hin), Hc.
  fold (@fmap list _ _ _ (@fst nat Job) indexed).
  rewrite IH; [done |]. intros ij Hij. apply Hall. by right.
Qed.

(** ** What the moves of a batch do to one id *)

Lemma move_terminal fs y from to x :
  from ≠ completed → from ≠ failed →
  terminal fs x → terminal (move fs y from to) x.
Proof.
  intros Hc Hf. unfold terminal. rewrite !move_in_bucket.
  case_decide; [|done]. intros [Hx|Hx]; [left | right]; right; done.
Qed.

Lemma start_started fs ij x : started fs x → started (start_files fs ij) x.
Proof.
  unfold started, start_files. intros [Hip|Ht].
  - left. rewrite move_in_bucket. case_decide; [by left | done].
  - right. by apply move_terminal.
Qed.

Lemma start_establishes fs ij : somewhere fs (id ij.2) → started (start_files fs ij) (id ij.2).
Proof.
  unfold started, start_files, somewhere, terminal.
  intros [b Hb]. rewrite !move_in_bucket.
  destruct (decide (Fs.in_bucket fs pending (id ij.2))) as [Hp|Hp].
  - left. rewrite decide_True by done. by left.
  - rewrite !decide_False by (by intros [_ ?]).
    destruct b; [done | by left | by right; left | by right; right].
Qed.

Lemma finish_bucket_terminal run :
  finish_bucket run = completed ∨ finish_bucket run = failed.
Proof. unfold finish_bucket. destruct (steps_ok run); auto. Qed.

Lemma finish_terminal env it fs ij x : terminal fs x → terminal (finish_files env it fs ij) x.
Proof.
  unfold finish_files. destruct (createSprite_ok _); [|done]. by apply move_terminal.
Qed.

Lemma finish_started env it fs ij x : started fs x → started (finish_files env it fs ij) x.
Proof.
  intros [Hip|Ht]; [|right; by apply finish_terminal].
  unfold started, terminal, finish_files.
  destruct (createSprite_ok _); [|by left].
  rewrite !move_in_bucket.
  destruct (decide (x = id ij.2 ∧ Fs.in_bucket fs in_progress (id ij.2))) as [Hd|Hd].
  - right. destruct (finish_bucket_terminal (workerRun env it ij.1)) as [->| ->];
      [left | right]; by left.
  - by left.
Qed.

Lemma finish_establishes env it fs ij :
  createSprite_ok (workerRun env it ij.1) = true →
  started fs (id ij.2) → terminal (finish_files env it fs ij) (id ij.2).
Proof.
  intros Hc [Hip|Ht]; [|by apply finish_terminal].
  unfold terminal, finish_files. rewrite Hc, !move_in_bucket.
  rewrite !decide_True by done.
  destruct (finish_bucket_terminal (workerRun env it ij.1)) as [->| ->];
    [left | right]; by left.
Qed.

Lemma start_somewhere fs ij x : somewhere fs x → somewhere (start_files fs ij) x.
Proof. apply move_somewhere. Qed.

Lemma starts_started fs (indexed : list (nat * Job)) x :
  started fs x → started (foldl start_files fs indexed) x.
Proof.
  revert fs; induction indexed as [|ij l IH]; intros fs H; [done |].
  simpl. apply IH. by apply start_started.
Qed.

Lemma starts_establish fs (indexed : list (nat * Job)) ij :
  ij ∈ indexed → somewhere fs (id ij.2) →
  started (foldl start_files fs indexed) (id ij.2).
Proof.
  revert fs; induction indexed as [|ij' l IH]; intros fs Hin Hs.
  - by apply elem_of_nil in Hin.
  - simpl. apply elem_of_cons in Hin as [<-|Hin].
    + apply starts_started. by apply start_establishes.
    + apply IH; [done |]. by apply start_somewhere.
Qed.

Lemma finishes_terminal env it fs (order : list (nat * Job)) x :
  terminal fs x → terminal (foldl (finish_files env it) fs order) x.
Proof.
  revert fs; induction order as [|ij l IH]; intros fs H; [done |].
  simpl. apply IH. by apply finish_terminal.
Qed.

Lemma finishes_establish env it fs (order : list (nat * Job)) ij :
  ij ∈ order → createSprite_ok (workerRun env it ij.1) = true →
  started fs (id ij.2) →
  terminal (foldl (finish_files env it) fs order) (id ij.2).
Proof.
  revert fs; induction order as [|ij' l IH]; intros fs Hin Hc Hs.
  - by apply elem_of_nil in Hin.
  - simpl. apply elem_of_cons in Hin as [<-|Hin].
    + apply finishes_terminal. by apply finish_establishes.
    + apply IH; [done | done |]. by apply finish_started.
Qed.

(** When [Promise.all] of a batch resolves, every job of the batch that had
    a file somewhere has reached [completed] or [failed]. *)
Lemma runBatch_terminal env i batch w rs w' :
  runBatch env i batch w = (Normal rs, w') →
  ∀ job, job ∈ batch → somewhere (jobFiles w) (id job) → terminal (jobFiles w') (id job).
Proof.
  intros Hrun job Hjob Hsome.
  destruct (runBatch_run env i batch w) as (w'' & Hrun' & Hfiles & _).
  rewrite Hrun in Hrun'. injection Hrun' as Hres <-.
  set (it := this_iteration w) in *.
  set (indexed := indexed_from i batch) in *.
  set (order := finish_order env it indexed) in *.
  apply list_elem_of_lookup in Hjob as [k Hk].
  assert ((i + k, job) ∈ order) as Hin.
  { unfold order. rewrite finish_order_perm. by apply indexed_from_lookup. }
  assert (createSprite_ok (workerRun env it (i + k)) = true) as Hcreated.
  { unfold Promise_all_result in Hres.
    destruct (first_rejection _) eqn:Hrej; [done |].
    destruct (createSprite_ok (workerRun env it (i + k))) eqn:Hc; [done |].
    exfalso.
    apply (first_rejection_None _ (i + k) (finish_completion env it (i + k, job)) Hrej)
      with (e := "createSprite failed").
    - apply list_elem_of_fmap. by exists (i + k, job).
    - unfold finish_completion. cbn [fst snd]. by rewrite Hc. }
  rewrite Hfiles.
  apply (finishes_establish env it _ order (i + k, job)); [done | done |].
  apply (starts_establish _ indexed (i + k, job)); [by apply indexed_from_lookup | done].
Qed.

(** ** The batches of [runWorkers] *)

Section Batches.

Context (CONFIG : Config) (env : Env).

Let W := maxWorkers CONFIG.

Hypothesis W_pos : 0 < W.




End Batches.


Lemma writeJobFiles_normal env jobs w :
  plain_ids jobs → (writeJobFiles env jobs w).1 = Normal ().
Proof.
  intros Hplain. unfold writeJobFiles. rewrite (bind_normal _ _ _ ()) by done.
  generalize ((enter CallWriteJobFiles w).2). clear w.
  induction Hplain as [|job jobs Hjob _ IH]; intros w; [done |]. simpl.
  rewrite (bind_normal _ _ _ ()) by (by apply writeJobFile_normal). apply IH.
Qed.

Lemma writeJobFiles_files env jobs w :
  plain_ids jobs →
  jobFiles (writeJobFiles env jobs w).2 = foldl op_files (jobFiles w) (Create <$> jobs).
Proof.
  intros Hplain. unfold writeJobFiles. rewrite (bind_normal _ _ _ ()) by done.
  change (jobFiles w) with (jobFiles (enter CallWriteJobFiles w).2).
  generalize ((enter CallWriteJobFiles w).2). clear w.
  induction Hplain as [|job jobs Hjob _ IH]; intros w; [done |]. simpl.
  rewrite (bind_normal _ _ _ ()) by (by apply writeJobFile_normal).
  by rewrite IH, writeJobFile_files.
Qed.

Lemma writeJobFiles_preserves env {B} (proj : World → B) jobs :
  ignores proj set_ticks → ignores proj set_delivered → ignores proj set_jobFiles →
  ignores proj set_console → ignores proj set_calls →
  preserves proj (writeJobFiles env jobs).
Proof.
  intros Ht Hd Hf Hl Hc. unfold writeJobFiles, enter. frame.
  intros w. apply Hc.
Qed.

Lemma finishes_somewhere env it fs (order : list (nat * Job)) x :
  somewhere fs x → somewhere (foldl (finish_files env it) fs order) x.
Proof.
  revert fs; induction order as [|ij l IH]; intros fs H; [done |].
  simpl. apply IH. unfold finish_files.
  destruct (createSprite_ok _); [by apply move_somewhere | done].
Qed.

Lemma starts_somewhere fs (indexed : list (nat * Job)) x :
  somewhere fs x → somewhere (foldl start_files fs indexed) x.
Proof.
  revert fs; induction indexed as [|ij l IH]; intros fs H; [done |].
  simpl. apply IH. by apply start_somewhere.
Qed.

(** ** Jobs with distinct ids do not touch each other's files *)

Lemma agree_refl x fs : agree x fs fs.
Proof. by intros b. Qed.

Lemma agree_sym x fs1 fs2 : agree x fs1 fs2 → agree x fs2 fs1.
Proof. intros H b. by rewrite H. Qed.

Lemma agree_trans x fs1 fs2 fs3 : agree x fs1 fs2 → agree x fs2 fs3 → agree x fs1 fs3.
Proof. intros H1 H2 b. by rewrite H1. Qed.

Lemma move_agree_other fs y from to x : x ≠ y → agree x (move fs y from to) fs.
Proof. intros Hne b. by apply move_lookup_other. Qed.

Lemma move_agree_cong fs1 fs2 x from to :
  agree x fs1 fs2 → agree x (move fs1 x from to) (move fs2 x from to).
Proof.
  intros Hag b. unfold move. rewrite (Hag from).
  destruct (fs2 !! (from, x)) as [c|]; [|apply Hag].
  destruct (decide (b = to)) as [->|Hb].
  - by rewrite !lookup_insert_eq.
  - rewrite !lookup_insert_ne by congruence.
    destruct (decide (b = from)) as [->|Hb'].
    + by rewrite !lookup_delete_eq.
    + rewrite !lookup_delete_ne by congruence. apply Hag.
Qed.

Section OwnFiles.

(** [step] is [start_files] or [finish_files]: it moves the files of the
    id of its job and of no other id. *)
Context (step : JobFiles → nat * Job → JobFiles).
Hypothesis step_other : ∀ fs ij x, x ≠ id ij.2 → agree x (step fs ij) fs.
Hypothesis step_cong :
  ∀ fs1 fs2 ij, agree (id ij.2) fs1 fs2 → agree (id ij.2) (step fs1 ij) (step fs2 ij).

Lemma steps_other fs (l : list (nat * Job)) x :
  x ∉ (id ∘ snd) <$> l → agree x (foldl step fs l) fs.
Proof.
  revert fs; induction l as [|ij l IH]; intros fs Hx; [apply agree_refl |].
  simpl. rewrite fmap_cons, not_elem_of_cons in Hx. destruct Hx as [Hne Hx].
  eapply agree_trans; [by apply IH | by apply step_other].
Qed.

Lemma steps_own fs (l : list (nat * Job)) ij :
  NoDup ((id ∘ snd) <$> l) → ij ∈ l →
  agree (id ij.2) (foldl step fs l) (step fs ij).
Proof.
  revert fs; induction l as [|ij' l IH]; intros fs Hnd Hin.
  - by apply elem_of_nil in Hin.
  - rewrite fmap_cons in Hnd. apply NoDup_cons in Hnd as [Hfresh Hnd]. simpl.
    apply elem_of_cons in Hin as [<-|Hin].
    + by apply steps_other.
    + assert (id ij.2 ≠ id ij'.2) as Hne.
      { intros Heq. apply Hfresh.
        apply list_elem_of_fmap. exists ij. split; [simpl; congruence | done]. }
      eapply agree_trans; [by apply IH |].
      apply step_cong. by apply step_other.
Qed.

End OwnFiles.

Lemma start_other fs ij x : x ≠ id ij.2 → agree x (start_files fs ij) fs.
Proof. apply move_agree_other. Qed.

Lemma start_cong fs1 fs2 ij :
  agree (id ij.2) fs1 fs2 → agree (id ij.2) (start_files fs1 ij) (start_files fs2 ij).
Proof. apply move_agree_cong. Qed.

Lemma finish_other env it fs ij x : x ≠ id ij.2 → agree x (finish_files env it fs ij) fs.
Proof.
  intros Hne. unfold finish_files.
  destruct (createSprite_ok _); [by apply move_agree_other | apply agree_refl].
Qed.

Lemma finish_cong env it fs1 fs2 ij :
  agree (id ij.2) fs1 fs2 →
  agree (id ij.2) (finish_files env it fs1 ij) (finish_files env it fs2 ij).
Proof.
  intros Hag. unfold finish_files.
  destruct (createSprite_ok _); [by apply move_agree_cong | done].
Qed.

Lemma indexed_from_ids i batch : (id ∘ snd) <$> indexed_from i batch = id <$> batch.
Proof. by rewrite list_fmap_compose, indexed_from_snd. Qed.

Lemma batch_files_other env it i batch fs x :
  x ∉ id <$> batch → agree x (batch_files env it i batch fs) fs.
Proof.
  intros Hx. unfold batch_files.
  eapply agree_trans.
  - apply (steps_other _ (finish_other env it)).
    rewrite finish_order_perm. by rewrite indexed_from_ids.
  - apply (steps_other _ start_other). by rewrite indexed_from_ids.
Qed.

Lemma batch_files_own env it i batch fs k job :
  NoDup (id <$> batch) → batch !! k = Some job →
  agree (id job) (batch_files env it i batch fs)
        (finish_files env it (start_files fs (i + k, job)) (i + k, job)).
Proof.
  intros Hnd Hk. unfold batch_files.
  pose proof (indexed_from_lookup i batch k job Hk) as Hin.
  eapply agree_trans.
  - apply (steps_own _ (finish_other env it) (finish_cong env it) _ _ (i + k, job)).
    + rewrite finish_order_perm. by rewrite indexed_from_ids.
    + by rewrite finish_order_perm.
  - apply (finish_cong env it _ _ (i + k, job)).
    apply (steps_own _ start_other start_cong _ _ (i + k, job)); [|done].
    by rewrite indexed_from_ids.
Qed.

(** ** A batch none of whose workers rejects *)

Lemma finish_completion_Normal env it ij :
  createSprite_ok (workerRun env it ij.1) = true →
  delete_ok (workerRun env it ij.1) = true →
  finish_completion env it ij = Normal (result_of env it ij).
Proof. unfold finish_completion, result_of. by intros -> ->. Qed.

Lemma runBatch_results env i batch w :
  (∀ k, k < length batch →
        createSprite_ok (workerRun env (this_iteration w) (i + k)) = true
        ∧ delete_ok (workerRun env (this_iteration w) (i + k)) = true) →
  ∃ w',
    runBatch env i batch w
    = (Normal (result_of env (this_iteration w) <$> indexed_from i batch), w')
    ∧ jobFiles w' = batch_files env (this_iteration w) i batch (jobFiles w)
    ∧ this_iteration w' = this_iteration w.
Proof.
  intros Hok.
  destruct (runBatch_run env i batch w) as (w' & Hrun & Hfiles & Hit).
  exists w'. split; [|by split].
  rewrite Hrun. f_equal.
  set (it := this_iteration w) in *.
  assert (∀ ij, ij ∈ indexed_from i batch →
                finish_completion env it ij = Normal (result_of env it ij)) as Hnormal.
  { intros [idx job] (k & -> & Hk)%elem_of_indexed_from.
    destruct (Hok k) as [Hc Hd]; [by eapply lookup_lt_Some |].
    by apply finish_completion_Normal. }
  unfold Promise_all_result.
  rewrite first_rejection_all_Normal.
  - apply values_of_fmap.
    + rewrite finish_order_perm, indexed_from_fst. apply NoDup_seq.
    + intros ij Hij. split; [by rewrite finish_order_perm | by apply Hnormal].
  - intros ij Hij. rewrite finish_order_perm in Hij. eexists. by apply Hnormal.
Qed.

(** ** Positions in the job list *)

Lemma ids_lookup_inj jobs k1 k2 (j1 j2 : Job) :
  NoDup (id <$> jobs) → jobs !! k1 = Some j1 → jobs !! k2 = Some j2 →
  id j1 = id j2 → k1 = k2.
Proof.
  intros Hnd H1 H2 Heq.
  apply (NoDup_lookup (id <$> jobs) k1 k2 (id j1) Hnd).
  - by rewrite list_lookup_fmap, H1.
  - by rewrite list_lookup_fmap, H2, Heq.
Qed.

Lemma elem_of_ids_drop (jobs : list Job) n x :
  x ∈ id <$> drop n jobs → ∃ k j, n ≤ k ∧ jobs !! k = Some j ∧ id j = x.
Proof.
  intros (j & -> & [k Hk]%list_elem_of_lookup)%list_elem_of_fmap.
  rewrite lookup_drop in Hk. exists (n + k), j. split; [lia | done].
Qed.

Lemma elem_of_ids_slice (jobs : list Job) i W x :
  x ∈ id <$> JS.slice i (i + W) jobs →
  ∃ k j, i ≤ k < i + W ∧ jobs !! k = Some j ∧ id j = x.
Proof.
  unfold JS.slice. replace (i + W - i) with W by lia.
  intros (j & -> & [k Hk]%list_elem_of_lookup)%list_elem_of_fmap.
  rewrite lookup_take in Hk. case_decide; [|done].
  rewrite lookup_drop in Hk. exists (i + k), j. split; [lia | done].
Qed.

Lemma slice_lookup (jobs : list Job) i W k job :
  jobs !! k = Some job → i ≤ k < i + W →
  JS.slice i (i + W) jobs !! (k - i) = Some job.
Proof.
  intros Hk Hik. unfold JS.slice. replace (i + W - i) with W by lia.
  rewrite lookup_take_lt by lia. rewrite lookup_drop.
  by replace (i + (k - i)) with k by lia.
Qed.

Lemma slice_length (jobs : list Job) i W :
  length (JS.slice i (i + W) jobs) = W `min` (length jobs - i).
Proof.
  unfold JS.slice. replace (i + W - i) with W by lia.
  by rewrite length_take, length_drop.
Qed.

Lemma NoDup_ids_slice (jobs : list Job) i W :
  NoDup (id <$> jobs) → NoDup (id <$> JS.slice i (i + W) jobs).
Proof.
  intros Hnd. eapply sublist_NoDup; [exact Hnd |].
  apply fmap_sublist. unfold JS.slice.
  etrans; [apply sublist_take | apply sublist_drop].
Qed.

Lemma indexed_from_app i (a b : list Job) :
  indexed_from i (a ++ b) = indexed_from i a ++ indexed_from (i + length a) b.
Proof.
  unfold indexed_from. rewrite imap_app. f_equal.
  apply imap_ext; intros k j _. simpl. f_equal. lia.
Qed.

Lemma indexed_from_split (jobs : list Job) i W :
  0 < W →
  indexed_from i (drop i jobs)
  = indexed_from i (JS.slice i (i + W) jobs) ++ indexed_from (i + W) (drop (i + W) jobs).
Proof.
  intros HW.
  rewrite <- (take_drop W (drop i jobs)) at 1.
  rewrite indexed_from_app, drop_drop. unfold JS.slice.
  replace (i + W - i) with W by lia. f_equal.
  destruct (Nat.le_gt_cases W (length jobs - i)) as [Hle|Hgt].
  - by rewrite length_take, length_drop, Nat.min_l by lia.
  - rewrite (drop_ge jobs (i + W)) by lia. done.
Qed.

Lemma collect_app acc rs1 rs2 : collect acc (rs1 ++ rs2) = collect (collect acc rs1) rs2.
Proof. unfold collect. apply foldl_app. Qed.

(** ** The whole of [runWorkers] when no promise rejects *)

Section Loop.

Context (CONFIG : Config) (env : Env) (jobs : list Job) (it : nat).

Hypothesis W_pos : 0 < maxWorkers CONFIG.
Hypothesis settled_all : no_rejection env it (length jobs).
Hypothesis ids_distinct : NoDup (id <$> jobs).

Lemma runWorkers_loop_run fuel i acc w :
  length jobs - i < fuel → this_iteration w = it →
  ∃ w',
    runWorkers_loop CONFIG env fuel jobs i acc w
    = (Normal (collect acc (result_of env it <$> indexed_from i (drop i jobs))), w')
    ∧ this_iteration w' = it
    ∧ (∀ k job, jobs !! k = Some job → i ≤ k →
         agree (id job) (jobFiles w')
               (finish_files env it (start_files (jobFiles w) (k, job)) (k, job)))
    ∧ (∀ x, x ∉ id <$> drop i jobs → agree x (jobFiles w') (jobFiles w)).
Proof.
  revert i acc w; induction fuel as [|fuel IH]; intros i acc w Hfuel Hit; [lia |].
  cbn [runWorkers_loop].
  destruct (Nat.ltb_spec i (length jobs)) as [Hi|Hi].
  - set (W := maxWorkers CONFIG) in *.
    set (batch := JS.slice i (i + W) jobs).
    rewrite (bind_normal _ _ _ ()) by done.
    match goal with
    | |- context [(console_log ?line w).2] => set (w0 := (console_log line w).2)
    end.
    assert (this_iteration w0 = it) as Hit0 by done.
    destruct (runBatch_results env i batch w0) as (w1 & Hrun1 & Hfiles1 & Hit1).
    { intros k Hk. rewrite Hit0. apply settled_all.
      unfold batch in Hk. rewrite slice_length in Hk. lia. }
    rewrite Hit0 in Hrun1, Hfiles1, Hit1.
    change (jobFiles w0) with (jobFiles w) in Hfiles1.
    erewrite bind_run by exact Hrun1.
    destruct (IH (i + W) (collect acc (result_of env it <$> indexed_from i batch)) w1)
      as (w' & Hrun & Hit' & Hown & Hother); [lia | done |].
    exists w'. split; [|split; [done |split]].
    + rewrite Hrun. do 2 f_equal.
      rewrite (indexed_from_split jobs i W W_pos), fmap_app. by rewrite collect_app.
    + intros k job Hk Hik.
      destruct (Nat.lt_ge_cases k (i + W)) as [Hin|Hout].
      * eapply agree_trans.
        { apply Hother. intros (k2 & j2 & Hk2 & Hj2 & Heq)%elem_of_ids_drop.
          pose proof (ids_lookup_inj jobs k2 k j2 job ids_distinct Hj2 Hk Heq). lia. }
        rewrite Hfiles1.
        pose proof (batch_files_own env it i batch (jobFiles w) (k - i) job
                      (NoDup_ids_slice jobs i W ids_distinct)
                      (slice_lookup jobs i W k job Hk (conj Hik Hin))) as Hag.
        by replace (i + (k - i)) with k in Hag by lia.
      * eapply agree_trans; [by apply Hown |].
        apply (finish_cong env it _ _ (k, job)), (start_cong _ _ (k, job)).
        rewrite Hfiles1. apply batch_files_other.
        intros (k2 & j2 & Hk2 & Hj2 & Heq)%elem_of_ids_slice.
        pose proof (ids_lookup_inj jobs k2 k j2 job ids_distinct Hj2 Hk Heq). lia.
    + intros x Hx.
      eapply agree_trans.
      * apply Hother. intros Hin. apply Hx.
        apply elem_of_ids_drop in Hin as (k2 & j2 & Hk2 & Hj2 & <-).
        apply list_elem_of_fmap. exists j2. split; [done |].
        apply list_elem_of_lookup. exists (k2 - i). rewrite lookup_drop.
        by replace (i + (k2 - i)) with k2 by lia.
      * rewrite Hfiles1. apply batch_files_other. intros Hin. apply Hx.
        apply elem_of_ids_slice in Hin as (k2 & j2 & Hk2 & Hj2 & <-).
        apply list_elem_of_fmap. exists j2. split; [done |].
        apply list_elem_of_lookup. exists (k2 - i). rewrite lookup_drop.
        by replace (i + (k2 - i)) with k2 by lia.
  - exists w. rewrite drop_ge by lia. split; [done |]. split; [done |]. split.
    + intros k job Hk Hik. apply lookup_lt_Some in Hk. lia.
    + intros x _. apply agree_refl.
Qed.

End Loop.

(** ** Counting the results *)





(** ** Stages that leave the rest of the world alone *)

Section MoreFrames.

Context (CONFIG : Config) (env : Env) {B : Type} (proj : World → B).

Hypothesis Hticks : ignores proj set_ticks.
Hypothesis Hdelivered : ignores proj set_delivered.
Hypothesis Hconsole : ignores proj set_console.
Hypothesis Hcalls : ignores proj set_calls.

Lemma spawnWorker_finish_preserves idx job :
  ignores proj set_jobFiles → preserves proj (spawnWorker_finish env idx job).
Proof.
  intros Hf. unfold spawnWorker_finish, console_log.
  frame; try (intros w; apply Hconsole); by apply transition_preserves.
Qed.

Lemma Promise_all_preserves {A} keys (settled : list (nat * Completion A)) :
  preserves proj (Promise_all keys settled).
Proof. intros w. by rewrite Promise_all_run. Qed.

Lemma runBatch_preserves i batch :
  ignores proj set_jobFiles → preserves proj (runBatch env i batch).
Proof.
  intros Hf. unfold runBatch. frame.
  - by apply spawnWorker_start_preserves.
  - by apply spawnWorker_finish_preserves.
  - apply Promise_all_preserves.
Qed.

Lemma runWorkers_preserves jobs :
  ignores proj set_jobFiles → preserves proj (runWorkers CONFIG env jobs).
Proof.
  intros Hf. unfold runWorkers, enter. frame; [intros w; apply Hcalls |].
  generalize (S (length jobs)) 0 (@nil string, 0).
  intros fuel; induction fuel as [|fuel IH]; intros i acc; cbn [runWorkers_loop].
  - apply preserves_diverge.
  - unfold console_log.
    frame; first [by apply runBatch_preserves | apply IH | intros w; apply Hconsole].
Qed.

Lemma execGit_preserves cmd : ignores proj set_gitLog → preserves proj (execGit env cmd).
Proof. intros Hg w. unfold execGit. destruct (gitExit _ _ _); apply Hg. Qed.

Lemma mergeBranches_preserves branches :
  ignores proj set_gitLog → preserves proj (mergeBranches env branches).
Proof.
  intros Hg. unfold mergeBranches, enter, console_log.
  frame; try (intros w; first [apply Hcalls | apply Hconsole]);
    by apply execGit_preserves.
Qed.

Lemma updateProductState_preserves result :
  ignores proj set_productStateFile → preserves proj (updateProductState result).
Proof.
  intros Hp. unfold updateProductState, enter.
  frame; intros w; first [apply Hcalls | apply Hp].
Qed.

End MoreFrames.

(** ** [mergeBranches] always returns *)

Lemma settles_bind {A C} (m : M A) (k : A → M C) :
  settles m → (∀ a, settles (k a)) → settles (bind m k).
Proof.
  intros Hm Hk w. unfold bind. specialize (Hm w).
  destruct (m w) as [[a|e|] w']; simpl in *; [apply Hk | done | done].
Qed.

Lemma settles_try_catch {A} (m : M A) h :
  settles m → (∀ e, settles (h e)) → settles (try_catch m h).
Proof.
  intros Hm Hh w. unfold try_catch. specialize (Hm w).
  destruct (m w) as [[a|e|] w']; simpl in *; [done | apply Hh | done].
Qed.

Lemma settles_for_of {A} (xs : list A) body :
  (∀ x, settles (body x)) → settles (for_of xs body).
Proof.
  intros Hb. induction xs as [|x xs IH]; simpl; [done |].
  apply settles_bind; auto.
Qed.

Lemma settles_execGit env cmd : settles (execGit env cmd).
Proof. intros w. unfold execGit. by destruct (gitExit _ _ _). Qed.

Lemma try_catch_normal {A} (m : M A) h w :
  settles m → (∀ e w', ∃ a, (h e w').1 = Normal a) →
  ∃ a, (try_catch m h w).1 = Normal a.
Proof.
  intros Hm Hh. unfold try_catch. specialize (Hm w).
  destruct (m w) as [[a|e|] w']; simpl in *; [by eexists | apply Hh | done].
Qed.

Lemma mergeBranches_normal env branches w :
  ∃ ok, (mergeBranches env branches w).1 = Normal ok.
Proof.
  unfold mergeBranches.
  rewrite (bind_normal _ _ _ ()) by done.
  rewrite (bind_normal _ _ _ (enter CallMergeBranches w).2) by done.
  cbn [get snd].
  destruct (negb _ || _); [by eexists |].
  rewrite (bind_normal _ _ _ ()) by done.
  apply try_catch_normal; [|intros e w1; eexists; reflexivity].
  apply settles_bind; [apply settles_execGit | intros _].
  apply settles_bind; [|intros _].
  - apply settles_for_of; intros b.
    apply settles_bind; [done | intros _].
    apply settles_try_catch; [apply settles_execGit | intros e].
    apply settles_bind; [done | intros _]. apply settles_execGit.
  - apply settles_bind; [apply settles_execGit | intros _].
    apply settles_bind; [done | intros _]. done.
Qed.

(** ** One iteration with one failing job *)

Lemma creates_keep_pending fs (jobs : list Job) x :
  Fs.in_bucket fs pending x →
  Fs.in_bucket (foldl op_files fs (Create <$> jobs)) pending x.
Proof.
  revert fs; induction jobs as [|j jobs IH]; intros fs H; [done |].
  cbn [fmap list_fmap foldl]. apply IH. unfold Fs.in_bucket, op_files.
  rewrite lookup_insert_is_Some.
  destruct (decide ((pending, id j) = (pending, x))); [by left | by right].
Qed.

Lemma created_pending fs (jobs : list Job) job :
  job ∈ jobs → Fs.in_bucket (foldl op_files fs (Create <$> jobs)) pending (id job).
Proof.
  revert fs. induction jobs as [|j jobs IH]; intros fs Hin.
  - by apply elem_of_nil in Hin.
  - cbn [fmap list_fmap foldl].
    apply elem_of_cons in Hin as [->|Hin]; [|by apply IH].
    apply creates_keep_pending. unfold Fs.in_bucket, op_files.
    rewrite lookup_insert_eq. eauto.
Qed.

Lemma worker_outcome env it fs k job :
  Fs.in_bucket fs pending (id job) →
  createSprite_ok (workerRun env it k) = true →
  Fs.in_bucket (finish_files env it (start_files fs (k, job)) (k, job))
               (finish_bucket (workerRun env it k)) (id job).
Proof.
  intros Hp Hc. unfold finish_files, start_files. cbn [fst snd]. rewrite Hc.
  rewrite move_in_bucket. rewrite decide_True; [by left |].
  split; [done |]. rewrite move_in_bucket. rewrite decide_True by done. by left.
Qed.

Lemma runWorkers_run CONFIG env jobs w :
  0 < maxWorkers CONFIG →
  no_rejection env (this_iteration w) (length jobs) →
  NoDup (id <$> jobs) →
  ∃ w',
    runWorkers CONFIG env jobs w
    = (Normal (collect ([], 0)
                 (result_of env (this_iteration w) <$> indexed_from 0 jobs)), w')
    ∧ ∀ k job, jobs !! k = Some job →
        agree (id job) (jobFiles w')
              (finish_files env (this_iteration w)
                 (start_files (jobFiles w) (k, job)) (k, job)).
Proof.
  intros HW Hrej Hnd. unfold runWorkers.
  rewrite (bind_normal _ _ _ ()) by done.
  destruct (runWorkers_loop_run CONFIG env jobs (this_iteration w) HW Hrej Hnd
              (S (length jobs)) 0 ([], 0) (enter CallRunWorkers w).2)
    as (w' & Hrun & _ & Hown & _); [lia | done |].
  exists w'. split; [exact Hrun |].
  intros k job Hk. apply Hown; [done | lia].
Qed.

Lemma move_to_in_progress fs x :
  Fs.in_bucket fs pending x → Fs.in_bucket (move fs x pending in_progress) in_progress x.
Proof.
  intros [job Hjob]. unfold move, Fs.in_bucket. rewrite Hjob.
  rewrite lookup_insert_eq. by eexists.
Qed.

(** ** The status events of dispatch *)














Section Trace.

Context (CONFIG : Config) (env : Env) (jobs : list Job) (it : nat).

Hypothesis W_pos : 0 < maxWorkers CONFIG.
Hypothesis settled_all : no_rejection env it (length jobs).
Hypothesis ids_distinct : NoDup (id <$> jobs).


End Trace.







(** * Further properties of the code *)

Lemma before_analysis_proj env {B} (proj : World → B) w :
  ignores proj set_ticks → ignores proj set_delivered → ignores proj set_console →
  ignores proj set_calls → ignores proj set_checkpoints →
  proj (before_analysis env w) = proj (set_iteration (S (this_iteration w)) w).
Proof.
  intros Ht Hd Hl Hc Hk. unfold before_analysis.
  rewrite checkpoint_preserves by done. rewrite Hl.
  unfold emitIterationStart. by rewrite emitEvent_preserves by done.
Qed.

(** [runIteration] up to the analysis *)
Lemma runIteration_head CONFIG env w :
  runIteration CONFIG env w
  = (let* jobs := runAnalysis env in
     if length jobs =? 0 then
       console_log "No jobs generated. Stopping." >> ret false
     else
       writeJobFiles env jobs >>
       let* bf := runWorkers CONFIG env jobs in
       iteration_tail CONFIG env (S (this_iteration w)) bf) (before_analysis env w).
Proof.
  set (n := S (this_iteration w)).
  set (w1 := set_iteration n w).
  set (w2 := (emitIterationStart env n w1).2).
  set (w3 := set_console (console w2 ++ [JS.LF +:+ banner; "🔄 ITERATION " +:+ JS.toString n; banner]) w2).
  unfold runIteration.
  rewrite (bind_normal _ _ _ ()) by done.
  rewrite (bind_normal _ _ _ w1) by done.
  cbn [get modify snd]. fold n. fold w1.
  replace (this_iteration w1) with n by done.
  rewrite (bind_normal _ _ _ ()) by apply emitEvent_normal. fold w2.
  do 3 rewrite (bind_normal _ _ _ ()) by done.
  replace ((console_log banner (console_log _ (console_log _ w2).2).2).2) with w3
    by (unfold w3, console_log, modify; cbn; by rewrite <- !app_assoc).
  rewrite (bind_normal _ _ _ ()) by apply checkpoint_normal.
  done.
Qed.

(** [runIteration] up to the workers, when the analysis gives jobs *)
Lemma runIteration_to_workers CONFIG env w jobs :
  (runAnalysis env (before_analysis env w)).1 = Normal jobs →
  jobs ≠ [] →
  plain_ids jobs →
  ∃ w6,
    runIteration CONFIG env w
    = (let* bf := runWorkers CONFIG env jobs in
       iteration_tail CONFIG env (S (this_iteration w)) bf) w6
    ∧ this_iteration w6 = S (this_iteration w)
    ∧ jobFiles w6 = foldl op_files (jobFiles w) (Create <$> jobs)
    ∧ (∀ B (proj : World → B),
         ignores proj set_ticks → ignores proj set_delivered → ignores proj set_console →
         ignores proj set_calls → ignores proj set_checkpoints → ignores proj set_jobFiles →
         proj w6 = proj (set_iteration (S (this_iteration w)) w)).
Proof.
  intros Hanalysis Hjobs Hplain.
  set (w4 := before_analysis env w) in *.
  set (w5 := (runAnalysis env w4).2).
  exists (writeJobFiles env jobs w5).2.
  assert (∀ B (proj : World → B),
         ignores proj set_ticks → ignores proj set_delivered → ignores proj set_console →
         ignores proj set_calls → ignores proj set_checkpoints → ignores proj set_jobFiles →
         proj (writeJobFiles env jobs w5).2 = proj (set_iteration (S (this_iteration w)) w))
    as Hproj.
  { intros B proj Ht Hd Hl Hc Hk Hf.
    rewrite writeJobFiles_preserves by done. unfold w5.
    rewrite runAnalysis_preserves by done. by apply before_analysis_proj. }
  split; [|split; [|split]].
  - rewrite runIteration_head. fold w4.
    rewrite (bind_normal _ _ _ jobs) by done. fold w5.
    destruct (Nat.eqb_spec (length jobs) 0) as [H0|_].
    { by destruct jobs. }
    by rewrite (bind_normal _ _ _ ()) by (by apply writeJobFiles_normal).
  - by rewrite (Hproj _ this_iteration) by eauto with frame.
  - rewrite writeJobFiles_files by done. f_equal. unfold w5.
    rewrite runAnalysis_preserves by eauto with frame.
    unfold w4. by rewrite before_analysis_proj by eauto with frame.
  - exact Hproj.
Qed.

Lemma stateContent_ext w w' result :
  this_iteration w = this_iteration w' → this_results w = this_results w' →
  stateContent w result = stateContent w' result.
Proof. unfold stateContent. by intros -> ->. Qed.

Lemma updateProductState_file result w :
  productStateFile (updateProductState result w).2 = Some (stateContent w result).
Proof. done. Qed.

(** the tail of an iteration always completes *)
Lemma iteration_tail_run CONFIG env n bf w7 :
  let w8 := (mergeBranches env bf.1 w7).2 in
  let result := mkIterationResult n (length bf.1) bf.2 bf.1
                  (JS.toISOString (clock env (ticks w8))) in
  ∃ w14,
    iteration_tail CONFIG env n bf w7 = (Normal (n <? maxIterations CONFIG), w14)
    ∧ this_results w14 = this_results w7 ++ [result]
    ∧ productStateFile w14
      = Some (stateContent (set_results (this_results w7 ++ [result]) w7) result)
    ∧ (∀ B (proj : World → B),
         ignores proj set_ticks → ignores proj set_delivered → ignores proj set_console →
         ignores proj set_calls → ignores proj set_checkpoints →
         ignores proj set_productStateFile → ignores proj set_gitLog →
         ignores proj set_results →
         proj w14 = proj w7).
Proof.
  intros w8 result.
  destruct (mergeBranches_normal env bf.1 w7) as [ok Hmerge].
  set (t := JS.toISOString (clock env (ticks w8))) in *.
  set (w9 := set_ticks (S (ticks w8)) w8).
  set (w10 := set_results (this_results w9 ++ [result]) w9).
  set (w11 := (updateProductState result w10).2).
  set (w12 := (checkpoint ("post-iteration-" +:+ JS.toString n) w11).2).
  set (w13 := set_console
                (console w12 ++ [JS.LF +:+ "✅ Iteration " +:+ JS.toString n +:+ " complete";
                                 "   Jobs completed: " +:+ JS.toString (length bf.1);
                                 "   Jobs failed: " +:+ JS.toString bf.2]) w12).
  set (w14 := (emitIterationComplete env result w13).2).
  exists w14.
  assert (∀ B (proj : World → B),
            ignores proj set_ticks → ignores proj set_delivered →
            ignores proj set_console → ignores proj set_calls →
            ignores proj set_checkpoints → ignores proj set_productStateFile →
            proj w14 = proj w10) as Hlate.
  { intros B proj Ht Hd Hl Hc Hk' Hp. unfold w14, emitIterationComplete.
    rewrite emitEvent_preserves by done. unfold w13. rewrite Hl.
    unfold w12. rewrite checkpoint_preserves by done.
    unfold w11. by rewrite updateProductState_preserves by done. }
  assert (∀ B (proj : World → B),
            ignores proj set_ticks → ignores proj set_delivered →
            ignores proj set_console → ignores proj set_calls →
            ignores proj set_gitLog → proj w9 = proj w7) as Hmid.
  { intros B proj Ht Hd Hl Hc Hg. unfold w9. rewrite Ht. unfold w8.
    by rewrite mergeBranches_preserves by done. }
  split; [|split; [|split]].
  - unfold iteration_tail.
    rewrite (bind_normal _ _ _ ok) by exact Hmerge. fold w8.
    erewrite (bind_run (now env) _ w8 t w9) by done.
    fold result.
    rewrite (bind_normal _ _ _ ()) by done.
    replace ((modify _ w9).2) with w10 by done.
    rewrite (bind_normal _ _ _ ()) by done. fold w11.
    rewrite (bind_normal _ _ _ ()) by apply checkpoint_normal. fold w12.
    do 3 rewrite (bind_normal _ _ _ ()) by done.
    replace ((console_log _ (console_log _ (console_log _ w12).2).2).2) with w13
      by (unfold w13, console_log, modify; cbn; by rewrite <- !app_assoc).
    rewrite (bind_normal _ _ _ ()) by apply emitEvent_normal. fold w14.
    done.
  - rewrite (Hlate _ this_results) by eauto with frame.
    unfold w10. cbn [this_results set_results].
    by rewrite (Hmid _ this_results) by eauto with frame.
  - unfold w14, emitIterationComplete.
    rewrite emitEvent_preserves by eauto with frame. unfold w13.
    cbn [productStateFile set_console]. unfold w12.
    rewrite checkpoint_preserves by eauto with frame.
    unfold w11. rewrite updateProductState_file. f_equal.
    apply stateContent_ext; unfold w10; cbn [this_iteration this_results set_results].
    + by rewrite (Hmid _ this_iteration) by eauto with frame.
    + by rewrite (Hmid _ this_results) by eauto with frame.
  - intros B proj Ht Hd Hl Hc Hk Hp Hg Hr.
    rewrite Hlate by done. unfold w10. rewrite Hr. by apply Hmid.
Qed.

Lemma first_rejection_only {A} (c : nat * Job → Completion A) (l : list (nat * Job)) e :
  (∀ ij, ij ∈ l → (∃ a, c ij = Normal a) ∨ c ij = Throw e) →
  (∃ ij, ij ∈ l ∧ c ij = Throw e) →
  first_rejection ((λ ij, (ij.1, c ij)) <$> l) = Some e.
Proof.
  induction l as [|ij l IH]; intros Hall (bad & Hin & Hbad).
  - by apply elem_of_nil in Hin.
  - cbn [fmap list_fmap first_rejection].
    destruct (Hall ij) as [[a Ha]|Ht]; [left | |].
    + rewrite Ha. apply IH.
      * intros ij' Hij'. apply Hall. by right.
      * apply elem_of_cons in Hin as [->|Hin]; [congruence |]. by exists bad.
    + by rewrite Ht.
Qed.

Lemma elem_of_ids_slice' (jobs : list Job) a b x :
  x ∈ id <$> JS.slice a b jobs → ∃ k j, a ≤ k < b ∧ jobs !! k = Some j ∧ id j = x.
Proof.
  intros (j & -> & Hj)%list_elem_of_fmap. unfold JS.slice in Hj.
  apply list_elem_of_lookup in Hj as [n Hn].
  apply lookup_take_Some in Hn as [Hn Hlt]. rewrite lookup_drop in Hn.
  exists (a + n), j. split; [lia | done].
Qed.

Lemma elem_of_ids_slice_2 (jobs : list Job) a b k j :
  jobs !! k = Some j → a ≤ k < b → id j ∈ id <$> JS.slice a b jobs.
Proof.
  intros Hj Hk. apply list_elem_of_fmap. exists j. split; [done |].
  apply list_elem_of_lookup. exists (k - a). unfold JS.slice.
  rewrite lookup_take_lt by lia. rewrite lookup_drop.
  by replace (a + (k - a)) with k by lia.
Qed.

Section Rejection.

Context (CONFIG : Config) (env : Env) (jobs : list Job) (it k : nat) (e : string).

Hypothesis W_pos : 0 < maxWorkers CONFIG.
Hypothesis ids_distinct : NoDup (id <$> jobs).
Hypothesis k_dispatched : k < length jobs.
Hypothesis k_rejects : ∀ job, finish_completion env it (k, job) = Throw e.
Hypothesis others_settle :
  ∀ j, j < length jobs → j ≠ k →
       createSprite_ok (workerRun env it j) = true ∧ delete_ok (workerRun env it j) = true.

Lemma runBatch_refused i batch w :
  this_iteration w = it →
  batch = JS.slice i (i + maxWorkers CONFIG) jobs →
  i ≤ k < i + maxWorkers CONFIG →
  ∃ w',
    runBatch env i batch w = (Throw e, w')
    ∧ jobFiles w' = batch_files env it i batch (jobFiles w)
    ∧ this_iteration w' = it.
Proof.
  intros Hit Hbatch Hk.
  destruct (runBatch_run env i batch w) as (w' & Hrun & Hfiles & Hit').
  rewrite Hit in Hrun, Hfiles, Hit'.
  exists w'. split; [|by split].
  rewrite Hrun. f_equal. unfold Promise_all_result.
  destruct (lookup_lt_is_Some_2 jobs k k_dispatched) as [job Hjob].
  rewrite (first_rejection_only _ _ e); [done | |].
  - intros [idx j] Hin. rewrite finish_order_perm in Hin.
    apply elem_of_indexed_from in Hin as (k' & -> & Hk').
    destruct (decide (i + k' = k)) as [Heq|Hne].
    + right. rewrite Heq. apply k_rejects.
    + left. eexists. apply finish_completion_Normal; cbn [fst]; apply others_settle; try done.
      all: rewrite Hbatch in Hk'; apply lookup_lt_Some in Hk';
        rewrite slice_length in Hk'; lia.
  - exists (k, job). split.
    + rewrite finish_order_perm.
      replace k with (i + (k - i)) at 1 by lia.
      apply indexed_from_lookup. rewrite Hbatch. apply slice_lookup; [done | lia].
    + apply k_rejects.
Qed.

Lemma runWorkers_loop_refused fuel i acc w :
  length jobs - i < fuel → this_iteration w = it → i ≤ k →
  let stop := i + ((k - i) / maxWorkers CONFIG + 1) * maxWorkers CONFIG in
  ∃ w',
    runWorkers_loop CONFIG env fuel jobs i acc w = (Throw e, w')
    ∧ this_iteration w' = it
    ∧ (∀ j job, jobs !! j = Some job → i ≤ j < stop →
         agree (id job) (jobFiles w')
               (finish_files env it (start_files (jobFiles w) (j, job)) (j, job)))
    ∧ (∀ x, x ∉ id <$> JS.slice i stop jobs → agree x (jobFiles w') (jobFiles w)).
Proof.
  revert i acc w; induction fuel as [|fuel IH]; intros i acc w Hfuel Hit Hik; [lia |].
  cbn zeta. cbn [runWorkers_loop].
  destruct (Nat.ltb_spec i (length jobs)) as [Hi|Hi]; [|lia].
  set (W := maxWorkers CONFIG) in *.
  set (batch := JS.slice i (i + W) jobs).
  rewrite (bind_normal _ _ _ ()) by done.
  match goal with
  | |- context [(console_log ?line w).2] => set (w0 := (console_log line w).2)
  end.
  assert (this_iteration w0 = it) as Hit0 by done.
  destruct (Nat.lt_ge_cases k (i + W)) as [Hhere|Hlater].
  - destruct (runBatch_refused i batch w0 Hit0 eq_refl) as (w1 & Hrun1 & Hfiles1 & Hit1);
      [done |].
    change (jobFiles w0) with (jobFiles w) in Hfiles1.
    rewrite (bind_throw _ _ _ e) by (by rewrite Hrun1).
    rewrite Hrun1. cbn [snd].
    replace ((k - i) / W) with 0 by (symmetry; apply Nat.div_small; lia).
    replace (i + (0 + 1) * W) with (i + W) by lia.
    exists w1. split; [done |]. split; [done |]. split.
    + intros j job Hj Hij. rewrite Hfiles1.
      pose proof (batch_files_own env it i batch (jobFiles w) (j - i) job
                    (NoDup_ids_slice jobs i W ids_distinct)
                    (slice_lookup jobs i W j job Hj Hij)) as Hag.
      by replace (i + (j - i)) with j in Hag by lia.
    + intros x Hx. rewrite Hfiles1. by apply batch_files_other.
  - destruct (runBatch_results env i batch w0) as (w1 & Hrun1 & Hfiles1 & Hit1).
    { intros k' Hk'. rewrite Hit0. unfold batch in Hk'. rewrite slice_length in Hk'.
      apply others_settle; lia. }
    rewrite Hit0 in Hrun1, Hfiles1, Hit1.
    change (jobFiles w0) with (jobFiles w) in Hfiles1.
    erewrite bind_run by exact Hrun1.
    destruct (IH (i + W) (collect acc (result_of env it <$> indexed_from i batch)) w1)
      as (w' & Hrun & Hit' & Hown & Hother); [lia | done | lia |].
    cbn zeta in Hown, Hother. fold W in Hown, Hother.
    assert (i + W + ((k - (i + W)) / W + 1) * W = i + ((k - i) / W + 1) * W) as Hstop.
    { replace (k - i) with ((k - (i + W)) + 1 * W) by lia.
      rewrite Nat.div_add by lia. lia. }
    rewrite Hstop in Hown, Hother.
    set (stop := i + ((k - i) / W + 1) * W) in *.
    assert (i + W ≤ stop) as Hle by (unfold stop; nia).
    exists w'. split; [done |]. split; [done |]. split.
    + intros j job Hj Hij.
      destruct (Nat.lt_ge_cases j (i + W)) as [Hin|Hout].
      * eapply agree_trans.
        { apply Hother. intros (k2 & j2 & Hk2 & Hj2 & Heq)%elem_of_ids_slice'.
          pose proof (ids_lookup_inj jobs k2 j j2 job ids_distinct Hj2 Hj Heq). lia. }
        rewrite Hfiles1.
        pose proof (batch_files_own env it i batch (jobFiles w) (j - i) job
                      (NoDup_ids_slice jobs i W ids_distinct)
                      (slice_lookup jobs i W j job Hj (conj (proj1 Hij) Hin))) as Hag.
        by replace (i + (j - i)) with j in Hag by lia.
      * eapply agree_trans; [apply Hown; [done | lia] |].
        apply (finish_cong env it _ _ (j, job)), (start_cong _ _ (j, job)).
        rewrite Hfiles1. apply batch_files_other.
        intros (k2 & j2 & Hk2 & Hj2 & Heq)%elem_of_ids_slice.
        pose proof (ids_lookup_inj jobs k2 j j2 job ids_distinct Hj2 Hj Heq). lia.
    + intros x Hx.
      eapply agree_trans.
      * apply Hother. intros Hin. apply Hx.
        apply elem_of_ids_slice' in Hin as (k2 & j2 & Hk2 & Hj2 & <-).
        by apply elem_of_ids_slice_2 with k2; [|lia].
      * rewrite Hfiles1. apply batch_files_other. intros Hin. apply Hx.
        apply elem_of_ids_slice in Hin as (k2 & j2 & Hk2 & Hj2 & <-).
        by apply elem_of_ids_slice_2 with k2; [|lia].
Qed.

End Rejection.

Lemma collect_results env n (l : list (nat * Job)) acc :
  let succeeded := filter (λ ij, steps_ok (workerRun env n ij.1) = true) l in
  collect acc (result_of env n <$> l)
  = (acc.1 ++ ((λ ij, branchName n (id ij.2)) <$> succeeded),
     acc.2 + (length l - length succeeded)).
Proof.
  revert acc. induction l as [|ij l IH]; intros acc; cbn zeta.
  - cbn. rewrite app_nil_r, Nat.add_0_r. by destruct acc.
  - cbn [fmap list_fmap]. unfold collect. cbn [foldl]. fold (collect).
    unfold collect in IH. cbn zeta in IH. rewrite IH. clear IH.
    pose proof (length_filter (λ ij, steps_ok (workerRun env n ij.1) = true) l) as Hle.
    rewrite filter_cons. unfold result_of. cbn [success branch].
    destruct (steps_ok (workerRun env n ij.1)) eqn:Hok.
    + rewrite decide_True by done. cbn [fst snd fmap list_fmap length].
      rewrite <- app_assoc. f_equal.
    + rewrite decide_False by done. cbn [fst snd length]. f_equal. lia.
Qed.

Lemma analysis_before env w jobs :
  (∀ w1, this_iteration w1 = S (this_iteration w) →
         coordinatorSprite w1 = coordinatorSprite w →
         (runAnalysis env w1).1 = Normal jobs) →
  (runAnalysis env (before_analysis env w)).1 = Normal jobs.
Proof.
  intros H. apply H.
  - by rewrite before_analysis_proj by eauto with frame.
  - by rewrite before_analysis_proj by eauto with frame.
Qed.

(** X1. Take an iteration whose analysis gives jobs with pairwise distinct
    ids that are plain file names, and in which no promise of a worker
    rejects. Then [runIteration]
    returns whether another iteration is due, and the result it records
    lists the branches of the jobs whose steps succeeded in the order of the
    job list, whatever the order in which the workers finished and whatever
    became of the merges; [jobsFailed] counts the other jobs, and every job's
    file is in [completed] or [failed] according to its own outcome. *)
Theorem iteration_result_in_dispatch_order CONFIG env w jobs :
  0 < maxWorkers CONFIG →
  (∀ w1, this_iteration w1 = S (this_iteration w) →
         coordinatorSprite w1 = coordinatorSprite w →
         (runAnalysis env w1).1 = Normal jobs) →
  jobs ≠ [] →
  NoDup (id <$> jobs) →
  plain_ids jobs →
  no_rejection env (S (this_iteration w)) (length jobs) →
  let n := S (this_iteration w) in
  let succeeded :=
    filter (λ ij, steps_ok (workerRun env n ij.1) = true) (indexed_from 0 jobs) in
  ∃ w' t,
    runIteration CONFIG env w = (Normal (n <? maxIterations CONFIG), w')
    ∧ this_results w' = this_results w ++
        [mkIterationResult n (length succeeded) (length jobs - length succeeded)
           ((λ ij, branchName n (id ij.2)) <$> succeeded) t]
    ∧ (∀ i job, jobs !! i = Some job →
         Fs.in_bucket (jobFiles w') (finish_bucket (workerRun env n i)) (id job)).
Proof.
  intros HW Hanalysis Hjobs Hnd Hplain Hrej n succeeded.
  destruct (runIteration_to_workers CONFIG env w jobs
              (analysis_before env w jobs Hanalysis) Hjobs Hplain)
    as (w6 & Hrun6 & Hn6 & Hfiles6 & Hproj6).
  fold n in Hrun6, Hn6.
  destruct (runWorkers_run CONFIG env jobs w6 HW) as (w7 & Hrun7 & Hfiles7);
    [by rewrite Hn6 | done |].
  rewrite Hn6 in Hrun7, Hfiles7.
  pose proof (collect_results env n (indexed_from 0 jobs) ([], 0)) as Hcollect.
  cbn zeta in Hcollect. fold succeeded in Hcollect. cbn [fst snd app] in Hcollect.
  replace (length (indexed_from 0 jobs)) with (length jobs) in Hcollect
    by (unfold indexed_from; by rewrite length_imap).
  rewrite Hcollect in Hrun7.
  set (bf := ((λ ij, branchName n (id ij.2)) <$> succeeded,
              0 + (length jobs - length succeeded))) in *.
  destruct (iteration_tail_run CONFIG env n bf w7) as (w14 & Hrun14 & Hres14 & _ & Hproj14).
  exists w14. eexists. split; [|split].
  - rewrite Hrun6. erewrite bind_run by exact Hrun7. exact Hrun14.
  - rewrite Hres14. unfold bf. cbn [fst snd]. rewrite length_fmap.
    f_equal.
    pose proof (runWorkers_preserves CONFIG env this_results) as Hp.
    specialize (Hp ltac:(eauto with frame) ltac:(eauto with frame)
                   ltac:(eauto with frame) ltac:(eauto with frame)
                   jobs ltac:(eauto with frame) w6).
    rewrite Hrun7 in Hp. cbn [snd] in Hp. rewrite Hp.
    by rewrite (Hproj6 _ this_results) by eauto with frame.
  - intros i job Hi.
    rewrite (Hproj14 _ jobFiles) by eauto with frame.
    unfold Fs.in_bucket. rewrite (Hfiles7 i job Hi). apply worker_outcome.
    + rewrite Hfiles6. apply created_pending. by eapply list_elem_of_lookup_2.
    + apply Hrej. by eapply lookup_lt_Some.
Qed.

Lemma iteration_result_in_dispatch_order_witness :
  let w := ready_world ∅ Bus.initial in
  ∃ w' t,
    runIteration CONFIG_source env_reverse_finish w = (Normal true, w')
    ∧ this_results w' =
        [mkIterationResult 1 2 1 ["emergent/1/job-001"; "emergent/1/job-003"] t]
    ∧ (∀ i job, three_jobs !! i = Some job →
         Fs.in_bucket (jobFiles w')
           (finish_bucket (workerRun env_reverse_finish 1 i)) (id job)).
Proof.
  apply (iteration_result_in_dispatch_order CONFIG_source env_reverse_finish
           (ready_world ∅ Bus.initial) three_jobs).
  - simpl. lia.
  - intros w1 Hiteration Hsprite.
    destruct (runAnalysis_response env_reverse_finish w1 (mkSprite false)
                "Jobs: [job-001, job-002, job-003]" Hsprite eq_refl)
      as (w' & Hrun & _).
    rewrite Hrun. reflexivity.
  - done.
  - by apply (bool_decide_unpack _).
  - repeat constructor.
  - intros i Hi. split; reflexivity.
Defined.

(** X2. Take an iteration whose analysis gives jobs with pairwise distinct
    ids that are plain file names, and let the promise of worker [k] reject while every other worker
    gets its sprite and deletes it: the creation of its sprite fails
    ([createSprite], line 735, is not inside the [try]), or the deletion of
    its sprite in the [finally] fails. Then [runIteration] throws that error:
    no result is recorded, the state report is not written and no git command
    is run. Once the workers of that batch have all settled, the file of job
    [k] is in [in-progress] when the sprite was refused, and is where the
    outcome of its steps put it when only the deletion failed; the jobs of the
    batches up to and including the batch of [k] are where their own outcome
    puts them; the jobs of the later batches are still in [pending]. *)
Theorem rejected_worker_aborts_iteration CONFIG env w jobs k :
  0 < maxWorkers CONFIG →
  (∀ w1, this_iteration w1 = S (this_iteration w) →
         coordinatorSprite w1 = coordinatorSprite w →
         (runAnalysis env w1).1 = Normal jobs) →
  NoDup (id <$> jobs) →
  plain_ids jobs →
  k < length jobs →
  createSprite_ok (workerRun env (S (this_iteration w)) k)
  && delete_ok (workerRun env (S (this_iteration w)) k) = false →
  (∀ j, j < length jobs → j ≠ k →
        createSprite_ok (workerRun env (S (this_iteration w)) j) = true
        ∧ delete_ok (workerRun env (S (this_iteration w)) j) = true) →
  let n := S (this_iteration w) in
  let stop := (k / maxWorkers CONFIG + 1) * maxWorkers CONFIG in
  let refused := negb (createSprite_ok (workerRun env n k)) in
  ∃ w',
    runIteration CONFIG env w
    = (Throw (if refused then "createSprite failed" else "worker.delete failed"), w')
    ∧ this_results w' = this_results w
    ∧ productStateFile w' = productStateFile w
    ∧ gitLog w' = gitLog w
    ∧ (∀ job, jobs !! k = Some job →
         Fs.in_bucket (jobFiles w')
           (if refused then in_progress else finish_bucket (workerRun env n k)) (id job))
    ∧ (∀ j job, jobs !! j = Some job → j < stop → j ≠ k →
         Fs.in_bucket (jobFiles w') (finish_bucket (workerRun env n j)) (id job))
    ∧ (∀ j job, jobs !! j = Some job → stop ≤ j →
         Fs.in_bucket (jobFiles w') pending (id job)).
Proof.
  intros HW Hanalysis Hnd Hplain Hk Hbad Hothers n stop refused.
  assert (jobs ≠ []) as Hjobs by (intros ->; cbn in Hk; lia).
  destruct (runIteration_to_workers CONFIG env w jobs
              (analysis_before env w jobs Hanalysis) Hjobs Hplain)
    as (w6 & Hrun6 & Hn6 & Hfiles6 & Hproj6).
  fold n in Hrun6, Hn6, Hbad, Hothers.
  set (e := if refused then "createSprite failed" else "worker.delete failed").
  assert (∀ job, finish_completion env n (k, job) = Throw e) as Hrejects.
  { intros job. unfold finish_completion, e, refused. cbn [fst].
    destruct (createSprite_ok (workerRun env n k)); [|done].
    cbn in Hbad. by rewrite Hbad. }
  set (w6' := (enter CallRunWorkers w6).2).
  destruct (runWorkers_loop_refused CONFIG env jobs n k e HW Hnd Hk Hrejects Hothers
              (S (length jobs)) 0 ([], 0) w6')
    as (w7 & Hrun7 & Hn7 & Hown & Hother); [lia | done | lia |].
  cbn zeta in Hown, Hother. rewrite Nat.sub_0_r in Hown, Hother.
  cbn [Nat.add] in Hown, Hother. fold stop in Hown, Hother.
  change (jobFiles w6') with (jobFiles w6) in Hown, Hother.
  assert (runWorkers CONFIG env jobs w6 = (Throw e, w7)) as Hworkers.
  { unfold runWorkers. rewrite (bind_normal _ _ _ ()) by done. exact Hrun7. }
  assert (∀ B (proj : World → B),
            ignores proj set_ticks → ignores proj set_delivered → ignores proj set_console →
            ignores proj set_calls → ignores proj set_checkpoints → ignores proj set_jobFiles →
            proj w7 = proj (set_iteration n w)) as Hproj7.
  { intros B proj Ht Hd Hl Hc Hc' Hf.
    pose proof (runWorkers_preserves CONFIG env proj Ht Hd Hl Hc jobs Hf w6) as Hp.
    rewrite Hworkers in Hp. cbn [snd] in Hp. rewrite Hp. by apply Hproj6. }
  assert (∀ job, job ∈ jobs → Fs.in_bucket (jobFiles w6) pending (id job)) as Hpending.
  { intros job Hjob. rewrite Hfiles6. by apply created_pending. }
  exists w7. split; [|split; [|split; [|split; [|split; [|split]]]]].
  - rewrite Hrun6. rewrite (bind_throw _ _ _ e) by (by rewrite Hworkers).
    by rewrite Hworkers.
  - by rewrite (Hproj7 _ this_results) by eauto with frame.
  - by rewrite (Hproj7 _ productStateFile) by eauto with frame.
  - by rewrite (Hproj7 _ gitLog) by eauto with frame.
  - intros job Hjob. unfold Fs.in_bucket.
    rewrite (Hown k job Hjob) by (unfold stop; split; [lia |];
      pose proof (Nat.div_mod_eq k (maxWorkers CONFIG));
      pose proof (Nat.mod_upper_bound k (maxWorkers CONFIG)); lia).
    unfold refused. destruct (createSprite_ok (workerRun env n k)) eqn:Hsprite; cbn [negb].
    + apply worker_outcome; [|done]. apply Hpending. by eapply list_elem_of_lookup_2.
    + unfold finish_files. cbn [fst snd]. rewrite Hsprite.
      apply move_to_in_progress, Hpending. by eapply list_elem_of_lookup_2.
  - intros j job Hj Hstop Hne. unfold Fs.in_bucket.
    rewrite (Hown j job Hj) by lia. apply worker_outcome.
    + apply Hpending. by eapply list_elem_of_lookup_2.
    + apply Hothers; [by eapply lookup_lt_Some | done].
  - intros j job Hj Hstop. unfold Fs.in_bucket. rewrite Hother.
    + apply Hpending. by eapply list_elem_of_lookup_2.
    + intros (k2 & j2 & Hk2 & Hj2 & Heq)%elem_of_ids_slice'.
      pose proof (ids_lookup_inj jobs k2 j j2 job Hnd Hj2 Hj Heq). lia.
Qed.

(** Five jobs in batches of two, the third job refused its sprite: the
    first batch and the sibling [job-004] are completed, [job-003] stays in
    [in-progress], [job-005] was never started. *)
Lemma rejected_worker_aborts_iteration_witness :
  ∃ w',
    runIteration CONFIG_source env_sprite_refused (ready_world ∅ Bus.initial)
    = (Throw "createSprite failed", w')
    ∧ this_results w' = []
    ∧ productStateFile w' = None
    ∧ gitLog w' = []
    ∧ (∀ job, five_jobs !! 2 = Some job → Fs.in_bucket (jobFiles w') in_progress (id job))
    ∧ (∀ j job, five_jobs !! j = Some job → j < 4 → j ≠ 2 →
         Fs.in_bucket (jobFiles w') (finish_bucket (workerRun env_sprite_refused 1 j)) (id job))
    ∧ (∀ j job, five_jobs !! j = Some job → 4 ≤ j →
         Fs.in_bucket (jobFiles w') pending (id job)).
Proof.
  apply (rejected_worker_aborts_iteration CONFIG_source env_sprite_refused
           (ready_world ∅ Bus.initial) five_jobs 2).
  - simpl. lia.
  - intros w1 Hiteration Hsprite.
    destruct (runAnalysis_response env_sprite_refused w1 (mkSprite false)
                "[five jobs]" Hsprite eq_refl)
      as (w' & Hrun & _).
    rewrite Hrun. reflexivity.
  - by apply (bool_decide_unpack _).
  - repeat constructor.
  - simpl. lia.
  - reflexivity.
  - intros j Hj Hne. cbn [env_sprite_refused workerRun createSprite_ok delete_ok].
    by destruct (Nat.eqb_spec j 2).
Defined.

Lemma bind_inv {A C} (m : M A) (k : A → M C) w c w' :
  bind m k w = (Normal c, w') → ∃ a w1, m w = (Normal a, w1) ∧ k a w1 = (Normal c, w').
Proof. unfold bind. destruct (m w) as [[a|e|] w1]; [eauto | done | done]. Qed.

Lemma try_finally_run {A} (m : M A) f w c w1 w2 :
  m w = (c, w1) → c ≠ Diverge → f w1 = (Normal (), w2) → try_finally m f w = (c, w2).
Proof. intros Hm Hc Hf. unfold try_finally. rewrite Hm. destruct c; by rewrite ?Hf. Qed.

Lemma settles_normal {A} (m : M A) : (∀ w, ∃ a, (m w).1 = Normal a) → settles m.
Proof. intros H w. destruct (H w) as [a ->]. done. Qed.

Ltac settles_step :=
  lazymatch goal with
  | |- settles (bind _ _) => apply settles_bind; [|intros ?]
  | |- settles (try_catch _ _) => apply settles_try_catch; [|intros ?]
  | |- settles (for_of _ _) => apply settles_for_of; intros ?
  | |- settles (if ?b then _ else _) => destruct b
  | |- settles (match ?x with _ => _ end) => destruct x
  end.

Lemma settles_emitEvent env type data : settles (emitEvent env type data).
Proof. intros w. by rewrite emitEvent_normal. Qed.

Lemma settles_checkpoint name : settles (checkpoint name).
Proof. intros w. by rewrite checkpoint_normal. Qed.

Lemma settles_writeJobFiles env jobs : settles (writeJobFiles env jobs).
Proof.
  unfold writeJobFiles, writeJobFile, emitJobCreated.
  repeat first [settles_step | apply settles_emitEvent | by intros ?].
Qed.

Lemma settles_runAnalysis env : settles (runAnalysis env).
Proof. unfold runAnalysis. repeat first [settles_step | by intros ?]. Qed.

Lemma Promise_all_result_settles env it (indexed order : list (nat * Job)) :
  order ≡ₚ indexed → NoDup (fst <$> indexed) →
  Promise_all_result (fst <$> indexed)
    ((λ ij, (ij.1, finish_completion env it ij)) <$> order) ≠ Diverge.
Proof.
  intros Hperm Hnd. unfold Promise_all_result.
  destruct (first_rejection _) as [e|] eqn:Hfirst; [done |].
  rewrite (values_of_fmap _ (result_of env it)); [done | by rewrite Hperm |].
  intros ij Hij. split; [by rewrite Hperm |].
  assert (∀ e, finish_completion env it ij ≠ Throw e) as Hno.
  { apply (first_rejection_None _ ij.1 _ Hfirst).
    apply list_elem_of_fmap. exists ij. split; [done | by rewrite Hperm]. }
  unfold finish_completion, result_of in *.
  destruct (createSprite_ok _); [|by destruct (Hno "createSprite failed")].
  destruct (delete_ok _); [done | by destruct (Hno "worker.delete failed")].
Qed.

Lemma settles_runBatch env i batch : settles (runBatch env i batch).
Proof.
  intros w. destruct (runBatch_run env i batch w) as (w' & -> & _). cbn [fst].
  apply Promise_all_result_settles; [apply finish_order_perm |].
  rewrite indexed_from_fst. apply NoDup_seq.
Qed.

Lemma settles_runWorkers CONFIG env jobs :
  0 < maxWorkers CONFIG → settles (runWorkers CONFIG env jobs).
Proof.
  intros HW. unfold runWorkers. apply settles_bind; [by intros ? | intros _].
  assert (∀ fuel i acc, length jobs - i < fuel →
            settles (runWorkers_loop CONFIG env fuel jobs i acc)) as H.
  { induction fuel as [|fuel IH]; intros i acc Hfuel; [lia |].
    cbn [runWorkers_loop].
    destruct (Nat.ltb_spec i (length jobs)); [|by intros ?].
    apply settles_bind; [by intros ? | intros _].
    apply settles_bind; [apply settles_runBatch | intros rs].
    apply IH. lia. }
  apply H. lia.
Qed.

Lemma settles_iteration_tail CONFIG env n bf : settles (iteration_tail CONFIG env n bf).
Proof. intros w. by destruct (iteration_tail_run CONFIG env n bf w) as (w' & -> & _). Qed.

Section RunFrames.

Context (CONFIG : Config) (env : Env) {B : Type} (proj : World → B).

Hypothesis Hticks : ignores proj set_ticks.
Hypothesis Hdelivered : ignores proj set_delivered.
Hypothesis Hconsole : ignores proj set_console.
Hypothesis Hcalls : ignores proj set_calls.
Hypothesis Hcheckpoints : ignores proj set_checkpoints.
Hypothesis HproductStateFile : ignores proj set_productStateFile.
Hypothesis HgitLog : ignores proj set_gitLog.
Hypothesis Hresults : ignores proj set_results.
Hypothesis HjobFiles : ignores proj set_jobFiles.

Lemma iteration_tail_preserves n bf : preserves proj (iteration_tail CONFIG env n bf).
Proof.
  intros w. destruct (iteration_tail_run CONFIG env n bf w) as (w' & -> & _ & _ & ->); done.
Qed.

(** an iteration touches nothing of [this] but [iteration] and [results] *)
Lemma runIteration_proj w :
  proj (runIteration CONFIG env w).2 = proj (set_iteration (S (this_iteration w)) w).
Proof.
  rewrite runIteration_head.
  rewrite <- (before_analysis_proj env proj w) by done.
  generalize (before_analysis env w). generalize (S (this_iteration w)). intros n.
  change (preserves proj
    (let* jobs := runAnalysis env in
     if length jobs =? 0 then console_log "No jobs generated. Stopping." >> ret false
     else writeJobFiles env jobs >>
          let* bf := runWorkers CONFIG env jobs in iteration_tail CONFIG env n bf)).
  apply preserves_bind; [by apply runAnalysis_preserves | intros jobs].
  destruct (length jobs =? 0).
  - apply preserves_bind; [|intros _; apply preserves_ret].
    apply preserves_modify. intros w'. apply Hconsole.
  - apply preserves_bind; [by apply writeJobFiles_preserves | intros _].
    apply preserves_bind; [by apply runWorkers_preserves | intros bf].
    apply iteration_tail_preserves.
Qed.

End RunFrames.

(** how an iteration ends *)
Lemma runIteration_outcome CONFIG env w :
  0 < maxWorkers CONFIG →
  ∃ c w',
    runIteration CONFIG env w = (c, w')
    ∧ c ≠ Diverge
    ∧ this_iteration w' = S (this_iteration w)
    ∧ coordinatorSprite w' = coordinatorSprite w
    ∧ (c = Normal true → S (this_iteration w) < maxIterations CONFIG).
Proof.
  intros HW.
  exists (runIteration CONFIG env w).1, (runIteration CONFIG env w).2.
  split; [apply run_pair |]. split; [|split; [|split]].
  - rewrite runIteration_head.
    apply settles_bind; [apply settles_runAnalysis | intros jobs].
    destruct (length jobs =? 0).
    + apply settles_bind; by intros ?.
    + apply settles_bind; [apply settles_writeJobFiles | intros _].
      apply settles_bind; [by apply settles_runWorkers | intros bf].
      apply settles_iteration_tail.
  - by rewrite (runIteration_proj CONFIG env this_iteration) by eauto with frame.
  - by rewrite (runIteration_proj CONFIG env coordinatorSprite) by eauto with frame.
  - intros Hc.
    pose proof (run_pair (runIteration CONFIG env) w) as Hrun. rewrite Hc in Hrun.
    rewrite runIteration_head in Hrun.
    apply bind_inv in Hrun as (jobs & w5 & _ & Hrun).
    destruct (length jobs =? 0).
    + apply bind_inv in Hrun as (_ & w6 & _ & Hrun). done.
    + apply bind_inv in Hrun as (_ & w6 & _ & Hrun).
      apply bind_inv in Hrun as (bf & w7 & _ & Hrun).
      destruct (iteration_tail_run CONFIG env (S (this_iteration w)) bf w7)
        as (w14 & Htail & _).
      rewrite Htail in Hrun. injection Hrun as Hlt _.
      by apply Nat.ltb_lt.
Qed.

(** the loop of [run] *)
Lemma run_loop_outcome CONFIG env fuel w :
  0 < maxWorkers CONFIG →
  maxIterations CONFIG - this_iteration w < fuel →
  ∃ c w',
    run_loop CONFIG env fuel w = (c, w')
    ∧ (c = Normal () ∨ ∃ e, c = Throw e)
    ∧ S (this_iteration w) ≤ this_iteration w'
    ∧ this_iteration w' ≤ maxIterations CONFIG `max` S (this_iteration w)
    ∧ coordinatorSprite w' = coordinatorSprite w.
Proof.
  intros HW. revert w. induction fuel as [|fuel IH]; intros w Hfuel; [lia |].
  cbn [run_loop].
  destruct (runIteration_outcome CONFIG env w HW) as (c & w1 & Hrun & Hc & Hit & Hs & Hcont).
  unfold bind. rewrite Hrun.
  destruct c as [[|]|e|]; [| | |done].
  - destruct (IH w1) as (c' & w' & Hloop & Hc' & Hlo & Hhi & Hs').
    { specialize (Hcont eq_refl). lia. }
    exists c', w'. rewrite Hit in Hlo, Hhi. specialize (Hcont eq_refl).
    split; [done |]. split; [done |]. split; [lia |]. split; [lia | congruence].
  - exists (Normal ()), w1. split; [done |]. split; [by left |]. split; [lia |].
    split; [lia | done].
  - exists (Throw e), w1. split; [done |]. split; [eauto |]. split; [lia |].
    split; [lia | done].
Qed.

(** what [initialize] leaves *)
Lemma initialize_outcome env w :
  ∃ c w1,
    initialize env w = (c, w1)
    ∧ this_iteration w1 = this_iteration w
    ∧ jobFiles w1 = jobFiles w
    ∧ if forallb (mkdirSync_ok env) all_buckets then
        match createCoordinator env with
        | Some sprite =>
            c = (if cloneRepo_ok env then Normal () else Throw "git clone failed")
            ∧ coordinatorSprite w1 = Some sprite
        | None =>
            c = Throw "createSprite failed"
            ∧ coordinatorSprite w1 = coordinatorSprite w
            ∧ console w1 = console w ++ ["🚀 Initializing Emergent Builder...";
                                          "📦 Creating coordinator Sprite..."]
        end
      else
        c = Throw "mkdirSync failed"
        ∧ coordinatorSprite w1 = coordinatorSprite w
        ∧ console w1 = console w ++ ["🚀 Initializing Emergent Builder..."].
Proof.
  eexists _, _. split; [apply run_pair |].
  unfold initialize, mkdirSync, all_buckets, bind, console_log, modify, ret, throw.
  cbn [forallb].
  destruct (mkdirSync_ok env pending), (mkdirSync_ok env in_progress),
    (mkdirSync_ok env completed), (mkdirSync_ok env failed);
    cbn; try done.
  destruct (createCoordinator env) as [sprite|]; cbn.
  - by destruct (cloneRepo_ok env).
  - by rewrite <- app_assoc.
Qed.

(** X3. What [run] does around its loop, from a fresh [EmergentBuilder] and
    with a positive worker cap. When a job directory cannot be made, or the
    coordinator sprite cannot be created, [run] throws that error after a
    line [Fatal error]: no iteration has run, no job file is touched, and
    there is nothing to clean up. Once the sprite is there, the clean-up is
    announced whatever happens, and when [coordinatorSprite.delete()] rejects
    it is that rejection that [run] throws. When the clone of the repository
    fails no iteration runs; otherwise the loop makes at least one pass and at
    most [maxIterations] (one, when [maxIterations] is 0). Every awaited call
    has an outcome in the model, so that [run] returns or throws says that
    the loop is bounded, not that the sprites answer. *)
Theorem run_bounds_and_cleans_up CONFIG env fs b :
  0 < maxWorkers CONFIG →
  ∃ c w',
    run CONFIG env (fresh_world fs b) = (c, w')
    ∧ (c = Normal () ∨ ∃ e, c = Throw e)
    ∧ if forallb (mkdirSync_ok env) all_buckets then
        match createCoordinator env with
        | Some sprite =>
            coordinatorSprite w' = Some sprite
            ∧ JS.LF +:+ "🧹 Cleaning up coordinator Sprite..." ∈ console w'
            ∧ (coordinatorDelete_ok env = false → c = Throw "coordinatorSprite.delete failed")
            ∧ if cloneRepo_ok env then
                1 ≤ this_iteration w' ≤ maxIterations CONFIG `max` 1
              else
                this_iteration w' = 0
                ∧ jobFiles w' = fs
                ∧ (coordinatorDelete_ok env = true → c = Throw "git clone failed")
        | None =>
            c = Throw "createSprite failed"
            ∧ this_iteration w' = 0
            ∧ jobFiles w' = fs
            ∧ console w' = ["🚀 Initializing Emergent Builder...";
                            "📦 Creating coordinator Sprite...";
                            "Fatal error: createSprite failed"]
        end
      else
        c = Throw "mkdirSync failed"
        ∧ this_iteration w' = 0
        ∧ jobFiles w' = fs
        ∧ console w' = ["🚀 Initializing Emergent Builder...";
                        "Fatal error: mkdirSync failed"].
Proof.
  intros HW. set (w0 := fresh_world fs b).
  destruct (initialize_outcome env w0) as (cI & wI & Hinit & HitI & HfsI & Hcases).
  unfold run.
  match goal with
  | |- context [try_finally (try_catch ?body ?handler) ?final] =>
      set (m := body); set (h := handler); set (f := final)
  end.
  assert (∀ w, coordinatorSprite w = None → f w = (Normal (), w)) as Hnothing.
  { intros w Hw. unfold f, bind, get. by rewrite Hw. }
  assert (∀ w sprite, coordinatorSprite w = Some sprite →
            f w = (if coordinatorDelete_ok env then Normal ()
                   else Throw "coordinatorSprite.delete failed",
                   set_console
                     (console w ++ [JS.LF +:+ "🧹 Cleaning up coordinator Sprite..."]) w))
    as Hcleanup.
  { intros w sprite Hw. unfold f, bind, get, console_log, modify. rewrite Hw.
    by destruct (coordinatorDelete_ok env). }
  assert (∀ e, cI = Throw e →
            try_catch m h w0
            = (Throw e, set_console (console wI ++ ["Fatal error: " +:+ e]) wI)) as Hfatal.
  { intros e ->. unfold try_catch, m. rewrite (bind_throw _ _ _ e) by (by rewrite Hinit).
    rewrite Hinit. reflexivity. }
  destruct (forallb (mkdirSync_ok env) all_buckets).
  2: { destruct Hcases as (-> & HsI & HlI).
       exists (Throw "mkdirSync failed"). eexists.
       split; [|split; [by right; eexists |]].
       - unfold try_finally. rewrite (Hfatal _ eq_refl). by rewrite Hnothing.
       - cbn [this_iteration jobFiles console set_console]. by rewrite HlI. }
  destruct (createCoordinator env) as [sprite|].
  2: { destruct Hcases as (-> & HsI & HlI).
       exists (Throw "createSprite failed"). eexists.
       split; [|split; [by right; eexists |]].
       - unfold try_finally. rewrite (Hfatal _ eq_refl). by rewrite Hnothing.
       - cbn [this_iteration jobFiles console set_console]. by rewrite HlI. }
  destruct Hcases as (HcI & HsI).
  assert (∃ c wE, try_catch m h w0 = (c, wE) ∧ (c = Normal () ∨ ∃ e, c = Throw e)
                  ∧ coordinatorSprite wE = Some sprite
                  ∧ if cloneRepo_ok env then
                      1 ≤ this_iteration wE ≤ maxIterations CONFIG `max` 1
                    else this_iteration wE = 0 ∧ jobFiles wE = fs ∧ c = Throw "git clone failed")
    as (c & wE & Hm & Hc & HsE & HE).
  { destruct (cloneRepo_ok env).
    - subst cI.
      destruct (run_loop_outcome CONFIG env (S (maxIterations CONFIG - this_iteration wI)) wI HW)
        as (c1 & wL & Hloop & Hc1 & Hlo & Hhi & HsL); [lia |].
      rewrite HitI in Hlo, Hhi. rewrite HsI in HsL. cbn [this_iteration w0 fresh_world] in Hlo, Hhi.
      destruct Hc1 as [->|[e ->]].
      + eexists _, _. split; [|split; [by left |]].
        * erewrite try_catch_run; last first.
          { unfold m. erewrite bind_run by exact Hinit.
            rewrite (bind_normal _ _ _ wI) by done. cbn [get snd].
            erewrite bind_run by exact Hloop.
            rewrite (bind_normal _ _ _ wL) by done. cbn [get snd].
            do 2 rewrite (bind_normal _ _ _ ()) by done.
            reflexivity. }
          cbn beta iota. reflexivity.
        * cbn [coordinatorSprite this_iteration console_log modify snd set_console].
          split; [done | lia].
      + eexists _, _. split; [|split; [by right; eexists |]].
        * erewrite try_catch_run; last first.
          { unfold m. erewrite bind_run by exact Hinit.
            rewrite (bind_normal _ _ _ wI) by done. cbn [get snd].
            rewrite (bind_throw _ _ _ e) by (by rewrite Hloop).
            rewrite Hloop. reflexivity. }
          cbn beta iota. unfold h. rewrite (bind_normal _ _ _ ()) by done. reflexivity.
        * cbn [coordinatorSprite this_iteration console_log modify snd set_console].
          split; [done | lia].
    - eexists _, _. split; [by apply Hfatal |]. split; [by right; eexists |].
      cbn [coordinatorSprite this_iteration jobFiles set_console].
      rewrite HitI, HfsI. done. }
  pose proof (Hcleanup wE sprite HsE) as HfE.
  exists (if coordinatorDelete_ok env then c else Throw "coordinatorSprite.delete failed").
  exists (set_console (console wE ++ [JS.LF +:+ "🧹 Cleaning up coordinator Sprite..."]) wE).
  split; [|split].
  - unfold try_finally. rewrite Hm, HfE.
    destruct (coordinatorDelete_ok env); by destruct Hc as [->|[e ->]].
  - destruct (coordinatorDelete_ok env); [done | by right; eexists].
  - cbn [coordinatorSprite this_iteration jobFiles console set_console].
    split; [done |]. split; [apply elem_of_app; right; apply list_elem_of_here |].
    split; [by intros -> |].
    destruct (cloneRepo_ok env); [done |].
    destruct HE as (H0 & Hfs & Hclone). split; [done |]. split; [done |]. by intros ->.
Qed.

(** The source configuration with sprites that answer: the loop runs
    between one and ten times, and the clean-up is announced. *)
Lemma run_bounds_and_cleans_up_witness :
  ∃ c w',
    run CONFIG_source env_example (fresh_world ∅ Bus.initial) = (c, w')
    ∧ (c = Normal () ∨ ∃ e, c = Throw e)
    ∧ coordinatorSprite w' = Some (mkSprite false)
    ∧ JS.LF +:+ "🧹 Cleaning up coordinator Sprite..." ∈ console w'
    ∧ (true = false → c = Throw "coordinatorSprite.delete failed")
    ∧ 1 ≤ this_iteration w' ≤ 10.
Proof.
  apply (run_bounds_and_cleans_up CONFIG_source env_example ∅ Bus.initial).
  simpl. lia.
Defined.

(** X4. [mergeBranches] never throws. Without a coordinator sprite it
    returns [true] and runs no git command. When [git fetch --all] fails it
    returns [false] after that one command: no branch is merged and nothing
    is pushed. When the merge of the first branch fails and [git merge
    --abort] fails too, it returns [false] at once: the branches after it are
    not tried and nothing is pushed. *)
Theorem merge_failures_are_contained env w branches :
  (∃ ok w', mergeBranches env branches w = (Normal ok, w'))
  ∧ (coordinatorSprite w = None →
       ∃ w', mergeBranches env branches w = (Normal true, w') ∧ gitLog w' = gitLog w)
  ∧ (is_Some (coordinatorSprite w) → branches ≠ [] →
     gitExit env (gitLog w) GitFetchAll = false →
       ∃ w', mergeBranches env branches w = (Normal false, w')
         ∧ gitLog w' = gitLog w ++ [GitFetchAll]
         ∧ last (console w') = Some "❌ Merge failed: git exited with an error")
  ∧ (∀ branch rest,
       is_Some (coordinatorSprite w) → branches = branch :: rest →
       gitExit env (gitLog w) GitFetchAll = true →
       gitExit env (gitLog w ++ [GitFetchAll]) (GitMerge ("origin/" +:+ branch)) = false →
       gitExit env (gitLog w ++ [GitFetchAll; GitMerge ("origin/" +:+ branch)]) GitMergeAbort
         = false →
       ∃ w', mergeBranches env branches w = (Normal false, w')
         ∧ gitLog w' = gitLog w ++ [GitFetchAll; GitMerge ("origin/" +:+ branch); GitMergeAbort]).
Proof.
  split; [|split; [|split]].
  - destruct (mergeBranches_normal env branches w) as [ok Hok].
    exists ok, (mergeBranches env branches w).2. rewrite <- Hok. apply run_pair.
  - intros Hs. unfold mergeBranches, bind, enter, modify, get. cbn. rewrite Hs. cbn.
    by eexists.
  - intros [sprite Hs] Hb Hfetch.
    unfold mergeBranches, bind, enter, modify, get, try_catch, console_log, execGit. cbn.
    rewrite Hs. cbn. destruct branches as [|b bs]; [done |]. cbn.
    rewrite Hfetch. cbn. eexists. split; [done |]. split; [done |].
    cbn [console set_console]. by rewrite last_snoc.
  - intros branch rest [sprite Hs] -> Hfetch Hmerge Habort.
    unfold mergeBranches, bind, enter, modify, get, try_catch, console_log, execGit. cbn.
    rewrite Hs. cbn. rewrite Hfetch. cbn. unfold bind. cbn. rewrite Hmerge. cbn.
    rewrite <- app_assoc. cbn. rewrite Habort. cbn.
    eexists. split; [done |]. cbn. by rewrite <- !app_assoc.
Qed.

Lemma merge_failures_are_contained_witness :
  ∃ w', mergeBranches env_fetch_fails ["A"; "B"] (ready_world ∅ Bus.initial) = (Normal false, w')
    ∧ gitLog w' = [GitFetchAll]
    ∧ last (console w') = Some "❌ Merge failed: git exited with an error".
Proof.
  apply (merge_failures_are_contained env_fetch_fails (ready_world ∅ Bus.initial) ["A"; "B"]);
    [by eexists | done | done].
Defined.

Lemma delivered_emitEvent env type data w :
  delivered (emitEvent env type data w).2
  = delivered w ++ Bus.emitEvent (bus w) (JS.toISOString (clock env (ticks w))) type data.
Proof.
  unfold Bus.emitEvent.
  destruct (Bus.silent (bus w) type) eqn:Hsilent.
  - rewrite emitEvent_silent by done. by rewrite app_nil_r.
  - by rewrite emitEvent_heard by done.
Qed.

(** X5. The iteration that stops the loop announces its start and nothing
    else: when the analysis gives no job, the only event of the iteration is
    [iteration:start], built from the first reading of the clock; no
    [iteration:complete] follows it. *)
Theorem stopping_iteration_is_never_completed CONFIG env w :
  (∀ w1, this_iteration w1 = S (this_iteration w) →
         coordinatorSprite w1 = coordinatorSprite w →
         (runAnalysis env w1).1 = Normal []) →
  ∃ w',
    runIteration CONFIG env w = (Normal false, w')
    ∧ delivered w'
      = delivered w
        ++ Bus.emitEvent (bus w) (JS.toISOString (clock env (ticks w)))
             "iteration:start" (IterationStartData (S (this_iteration w)))
    ∧ Forall (λ d, ev_type (dl_event d) ≠ "iteration:complete") (drop (length (delivered w)) (delivered w')).
Proof.
  intros Hanalysis.
  pose proof (analysis_before env w [] Hanalysis) as Hnone.
  set (w4 := before_analysis env w) in *.
  set (w5 := (runAnalysis env w4).2).
  assert (delivered w5
          = delivered w
            ++ Bus.emitEvent (bus w) (JS.toISOString (clock env (ticks w)))
                 "iteration:start" (IterationStartData (S (this_iteration w)))) as Hd.
  { unfold w5. rewrite runAnalysis_preserves by eauto with frame.
    unfold w4, before_analysis. rewrite checkpoint_preserves by eauto with frame.
    cbn [delivered set_console]. unfold emitIterationStart.
    by rewrite delivered_emitEvent. }
  eexists. split; [|split].
  - rewrite runIteration_head. fold w4.
    rewrite (bind_normal _ _ _ []) by done. fold w5. cbn [length Nat.eqb].
    rewrite (bind_normal _ _ _ ()) by done. reflexivity.
  - cbn. exact Hd.
  - cbn. rewrite Hd. rewrite drop_app_length.
    unfold Bus.emitEvent. destruct (Bus.silent _ _); [constructor |].
    apply Forall_app. split; unfold Bus.emit; apply Forall_fmap, Forall_true; by intros ?.
Qed.

Lemma stopping_iteration_is_never_completed_witness :
  let w := ready_world ∅ (Bus.on Bus.initial "*" 1) in
  ∃ w',
    runIteration CONFIG_source env_example w = (Normal false, w')
    ∧ delivered w'
      = [mkDelivery 1 "*" (mkEvent "2026-01-01T00:00:00.000Z" "iteration:start"
                                   (IterationStartData 1))]
    ∧ Forall (λ d, ev_type (dl_event d) ≠ "iteration:complete") (drop 0 (delivered w')).
Proof.
  apply (stopping_iteration_is_never_completed CONFIG_source env_example
           (ready_world ∅ (Bus.on Bus.initial "*" 1))).
  intros w1 Hiteration Hsprite.
  destruct (runAnalysis_response env_example w1 (mkSprite false) "nothing to do" Hsprite eq_refl)
    as (w' & Hrun & _).
  rewrite Hrun. reflexivity.
Defined.

Lemma foldl_create_lookup (jobs : list Job) fs b x :
  foldl op_files fs (Create <$> jobs) !! (b, x)
  = if decide (b = pending) then
      match last (filter (λ job, id job = x) jobs) with
      | Some job => Some job
      | None => fs !! (b, x)
      end
    else fs !! (b, x).
Proof.
  revert fs. induction jobs as [|job jobs IH] using rev_ind; intros fs.
  - cbn. by destruct (decide _).
  - rewrite fmap_app, foldl_app. cbn [fmap list_fmap foldl op_files].
    rewrite filter_app, filter_cons, filter_nil.
    destruct (decide (b = pending)) as [->|Hb].
    + destruct (decide (id job = x)) as [<-|Hx].
      * rewrite last_snoc. by rewrite lookup_insert_eq.
      * rewrite app_nil_r. rewrite lookup_insert_ne by congruence.
        apply IH.
    + rewrite lookup_insert_ne by congruence. apply IH.
Qed.

(** X6. What [writeJobFiles] leaves on disk when the ids of the jobs are
    plain file names (no slash, no null byte, at most 250 bytes): it returns;
    the file of an id in [pending] holds the last job of the list with that
    id (a job written earlier under the same id is overwritten), the
    [pending] files of other ids and every file of the other three
    directories are as they were; and one line per job is printed, in the
    order of the list. *)
Theorem writeJobFiles_overwrites_by_id env jobs w :
  plain_ids jobs →
  ∃ w',
    writeJobFiles env jobs w = (Normal (), w')
    ∧ (∀ x, jobFiles w' !! (pending, x)
            = match last (filter (λ job, id job = x) jobs) with
              | Some job => Some job
              | None => jobFiles w !! (pending, x)
              end)
    ∧ (∀ b x, b ≠ pending → jobFiles w' !! (b, x) = jobFiles w !! (b, x))
    ∧ console w'
      = console w
        ++ ((λ job, "📝 Created job: " +:+ id job +:+ " - " +:+ title job) <$> jobs).
Proof.
  intros Hplain.
  exists (writeJobFiles env jobs w).2. split; [|split; [|split]].
  - rewrite <- (writeJobFiles_normal env jobs w Hplain). apply run_pair.
  - intros x. rewrite writeJobFiles_files, foldl_create_lookup by done.
    by rewrite decide_True.
  - intros b x Hb. rewrite writeJobFiles_files, foldl_create_lookup by done.
    by rewrite decide_False.
  - unfold writeJobFiles. rewrite (bind_normal _ _ _ ()) by done.
    change (console w) with (console (enter CallWriteJobFiles w).2).
    generalize ((enter CallWriteJobFiles w).2). clear w.
    induction Hplain as [|job jobs Hjob _ IH]; intros w.
    + cbn. by rewrite app_nil_r.
    + cbn [for_of fmap list_fmap].
      rewrite (bind_normal _ _ _ ()) by (by apply writeJobFile_normal).
      rewrite IH, writeJobFile_plain by done.
      rewrite (bind_normal _ _ _ ()) by done.
      unfold emitJobCreated. rewrite emitEvent_preserves by eauto with frame.
      cbn. by rewrite <- app_assoc.
Qed.

(** The oracle names two jobs [job-001]: the second one is what [pending]
    holds. *)
Lemma writeJobFiles_overwrites_by_id_witness :
  let first := mkJob "job-001" "First" "The first job" high small [] [] None in
  let second := mkJob "job-001" "Second" "The second job" low small [] [] None in
  ∃ w',
    writeJobFiles env_example [first; second] (ready_world ∅ Bus.initial) = (Normal (), w')
    ∧ (∀ x, jobFiles w' !! (pending, x)
            = match last (filter (λ job, id job = x) [first; second]) with
              | Some job => Some job
              | None => jobFiles (ready_world ∅ Bus.initial) !! (pending, x)
              end)
    ∧ (∀ b x, b ≠ pending →
              jobFiles w' !! (b, x) = jobFiles (ready_world ∅ Bus.initial) !! (b, x))
    ∧ console w'
      = console (ready_world ∅ Bus.initial)
        ++ ((λ job, "📝 Created job: " +:+ id job +:+ " - " +:+ title job) <$> [first; second]).
Proof.
  intros first second.
  apply (writeJobFiles_overwrites_by_id env_example [first; second]
           (ready_world ∅ Bus.initial)).
  repeat constructor.
Defined.

(** ** Job ids that are paths *)

Module PathIdFacts.

Import Str JS Fs.

#[local] Arguments String.append !s1 s2 : simpl nomatch.

Lemma split_first sep a b :
  contains_char sep a = false → split sep (a +:+ String sep b) = a :: split sep b.
Proof.
  induction a as [|c a IH]; simpl.
  - by rewrite Ascii.eqb_refl.
  - destruct (Ascii.eqb_spec sep c) as [->|Hne]; [done |].
    intros Ha. rewrite (IH Ha).
    destruct (Ascii.eqb_spec c sep) as [->|_]; done.
Qed.

Lemma plain_no_slash s : plain s = true → contains_char "/" s = false.
Proof.
  unfold plain. intros H. apply andb_prop in H as [H _]. apply andb_prop in H as [H _].
  by apply negb_true_iff in H.
Qed.

Lemma plain_no_null s : plain s = true → contains_char Ascii.zero s = false.
Proof.
  unfold plain. intros H. apply andb_prop in H as [H _]. apply andb_prop in H as [_ H].
  by apply negb_true_iff in H.
Qed.

Lemma plain_length s : plain s = true → String.length s + 5 ≤ 255.
Proof.
  unfold plain. intros H. apply andb_prop in H as [_ H]. by apply Nat.leb_le in H.
Qed.

Lemma bucketName_no_null b : contains_char Ascii.zero (bucketName b) = false.
Proof. by destruct b. Qed.

Lemma bucketNamed_bucketName b : bucketNamed (bucketName b) = Some b.
Proof. by destruct b. Qed.

Lemma bucketName_length b : String.length (bucketName b) ≤ 11.
Proof. destruct b; cbn; lia. Qed.

(** An id with a directory in front of the name: the kernel looks for the
    directory in [pending], which holds none. *)
Lemma target_in_directory astray fs dir name :
  plain dir = true → dir ≠ "" → dir ≠ "." → dir ≠ ".." → plain name = true →
  ∃ code, target astray fs pending (dir +:+ "/" +:+ name) = Fails code
          ∧ (code = "ENOENT" ∨ code = "ENOTDIR").
Proof.
  intros Hdir He Hd Hdd Hname. unfold target.
  rewrite StrFacts.contains_char_app. rewrite (plain_no_null dir Hdir).
  change ("/" +:+ name) with (String "/" name). cbn [contains_char orb].
  destruct (Ascii.eqb_spec Ascii.zero "/") as [Habs|_]; [discriminate Habs |].
  rewrite (plain_no_null name Hname).
  assert ((PATH_MAX <=? String.length
             (jobsDir +:+ "/" +:+ bucketName pending +:+ "/" +:+ (dir +:+ String "/" name)
              +:+ ".json")) = false) as ->.
  { apply Nat.leb_gt. rewrite !FsFacts.length_append. unfold PATH_MAX, jobsDir.
    cbn [bucketName String.length].
    pose proof (plain_length dir Hdir). pose proof (plain_length name Hname). lia. }
  rewrite (split_first "/" dir name (plain_no_slash dir Hdir)).
  rewrite (FsFacts.split_plain name (plain_no_slash name Hname)).
  cbn [walk].
  apply String.eqb_neq in He, Hd, Hdd. rewrite He, Hd, Hdd. cbn [orb].
  assert ((NAME_MAX <? String.length dir) = false) as ->.
  { apply Nat.ltb_ge. unfold NAME_MAX. pose proof (plain_length dir Hdir). lia. }
  destruct (withoutJson dir) as [file|]; [|by eexists; eauto].
  destruct (bool_decide _); eexists; eauto.
Qed.

(** An id that climbs out of [pending] and into a job directory. *)
Lemma target_in_other_bucket astray fs b name :
  plain name = true →
  target astray fs pending ("../" +:+ bucketName b +:+ "/" +:+ name) = Lands b name.
Proof.
  intros Hname. unfold target.
  assert (contains_char Ascii.zero ("../" +:+ bucketName b +:+ "/" +:+ name) = false) as ->.
  { rewrite !StrFacts.contains_char_app, bucketName_no_null, (plain_no_null name Hname).
    reflexivity. }
  assert ((PATH_MAX <=? String.length
             (jobsDir +:+ "/" +:+ bucketName pending +:+ "/"
              +:+ ("../" +:+ bucketName b +:+ "/" +:+ name) +:+ ".json")) = false) as ->.
  { apply Nat.leb_gt. rewrite !FsFacts.length_append. unfold PATH_MAX, jobsDir.
    cbn [bucketName String.length].
    pose proof (plain_length name Hname). pose proof (bucketName_length b).
    destruct b; cbn [bucketName String.length]; lia. }
  change ("../" +:+ bucketName b +:+ "/" +:+ name)
    with (".." +:+ String "/" (bucketName b +:+ String "/" name)).
  rewrite (split_first "/" ".." _ eq_refl).
  rewrite (split_first "/" (bucketName b) name) by (by destruct b).
  rewrite (FsFacts.split_plain name (plain_no_slash name Hname)).
  cbn [walk String.eqb Ascii.eqb Bool.eqb orb]. 
  assert (String.eqb (bucketName b) "" || String.eqb (bucketName b) "." = false) as ->
    by (by destruct b).
  assert (String.eqb (bucketName b) ".." = false) as -> by (by destruct b).
  rewrite bucketNamed_bucketName.
  assert ((NAME_MAX <? String.length name + 5) = false) as ->; [|done].
  apply Nat.ltb_ge. unfold NAME_MAX. pose proof (plain_length name Hname). lia.
Qed.

End PathIdFacts.

Lemma for_of_app {A} (xs ys : list A) body w :
  for_of (xs ++ ys) body w = (for_of xs body >> for_of ys body) w.
Proof.
  revert w; induction xs as [|x xs IH]; intros w; cbn [app for_of]; [reflexivity |].
  unfold bind. destruct (body x w) as [[[]|e|] w1]; [|done..].
  rewrite IH. reflexivity.
Qed.

(** what the loop of [writeJobFiles] does with jobs whose ids are plain *)
Lemma write_loop_plain env (jobs : list Job) w :
  plain_ids jobs →
  ∃ w',
    for_of jobs (writeJobFile env) w = (Normal (), w')
    ∧ jobFiles w' = foldl op_files (jobFiles w) (Create <$> jobs)
    ∧ console w'
      = console w
        ++ ((λ job, "📝 Created job: " +:+ id job +:+ " - " +:+ title job) <$> jobs).
Proof.
  intros Hplain. revert w. induction Hplain as [|job jobs Hjob _ IH]; intros w.
  - exists w. cbn. by rewrite app_nil_r.
  - destruct (IH (writeJobFile env job w).2) as (w' & Hrun & Hfiles & Hconsole).
    exists w'. cbn [for_of fmap list_fmap foldl].
    rewrite (bind_normal _ _ _ ()) by (by apply writeJobFile_normal).
    split; [exact Hrun |]. split.
    + by rewrite Hfiles, writeJobFile_files.
    + rewrite Hconsole, writeJobFile_plain by done.
      rewrite (bind_normal _ _ _ ()) by done.
      unfold emitJobCreated. rewrite emitEvent_preserves by eauto with frame.
      cbn. by rewrite <- app_assoc.
Qed.

(** X18. A job id is used as a path, unchecked. When the id of a job puts
    a directory in front of the name ([2/job-001]), [writeJobFiles] throws at
    that job, for [pending] holds no directory: the jobs before it have been
    written and announced, that job and the jobs after it have not. *)
Theorem job_id_with_directory_stops_the_writes env before job after dir name w :
  plain_ids before →
  id job = dir +:+ "/" +:+ name →
  Fs.plain dir = true → dir ≠ "" → dir ≠ "." → dir ≠ ".." →
  Fs.plain name = true →
  ∃ code w',
    writeJobFiles env (before ++ job :: after) w = (Throw code, w')
    ∧ (code = "ENOENT" ∨ code = "ENOTDIR")
    ∧ jobFiles w' = foldl op_files (jobFiles w) (Create <$> before)
    ∧ console w'
      = console w
        ++ ((λ job, "📝 Created job: " +:+ id job +:+ " - " +:+ title job) <$> before).
Proof.
  intros Hbefore Hid Hdir He Hd Hdd Hname.
  destruct (write_loop_plain env before (enter CallWriteJobFiles w).2 Hbefore)
    as (w1 & Hrun & Hfiles & Hconsole).
  destruct (PathIdFacts.target_in_directory (astray env) (jobFiles w1) dir name
              Hdir He Hd Hdd Hname) as (code & Htarget & Hcode).
  exists code, w1. split; [|split; [done | by split]].
  unfold writeJobFiles. rewrite (bind_normal _ _ _ ()) by done.
  rewrite for_of_app. erewrite bind_run by exact Hrun.
  cbn [for_of]. unfold writeJobFile at 1.
  unfold bind, get. rewrite Hid, Htarget. reflexivity.
Qed.

(** The oracle names its second job [2/job-001]. *)
Lemma job_id_with_directory_stops_the_writes_witness :
  ∃ code w',
    writeJobFiles env_example
      ([job_example "job-001"] ++ job_example "2/job-001" :: [job_example "job-003"])
      (ready_world ∅ Bus.initial)
    = (Throw code, w')
    ∧ (code = "ENOENT" ∨ code = "ENOTDIR")
    ∧ jobFiles w'
      = foldl op_files (jobFiles (ready_world ∅ Bus.initial))
          (Create <$> [job_example "job-001"])
    ∧ console w'
      = console (ready_world ∅ Bus.initial)
        ++ ((λ job, "📝 Created job: " +:+ id job +:+ " - " +:+ title job)
              <$> [job_example "job-001"]).
Proof.
  apply (job_id_with_directory_stops_the_writes env_example
           [job_example "job-001"] (job_example "2/job-001") [job_example "job-003"]
           "2" "job-001" (ready_world ∅ Bus.initial)); try done.
  repeat constructor.
Defined.

(** X19. A job id is used as a path, unchecked. The id [../<bucket>/<name>]
    makes [writeJobFiles] write the job into that bucket, under [<name>]:
    nothing is put in [pending], and what the bucket held under that name is
    overwritten. *)
Theorem job_id_can_leave_pending env job b name w :
  id job = "../" +:+ bucketName b +:+ "/" +:+ name →
  Fs.plain name = true →
  ∃ w',
    writeJobFile env job w = (Normal (), w')
    ∧ jobFiles w' = <[(b, name) := job]> (jobFiles w).
Proof.
  intros Hid Hname.
  exists (writeJobFile env job w).2.
  assert (writeJobFile env job w
          = (console_log ("📝 Created job: " +:+ id job +:+ " - " +:+ title job) >>
             emitJobCreated env job)
              (set_jobFiles (<[(b, name) := job]> (jobFiles w)) w)) as Hrun.
  { unfold writeJobFile.
    rewrite (bind_run _ _ w () (set_jobFiles (<[(b, name) := job]> (jobFiles w)) w));
      [done |].
    unfold bind, get. rewrite Hid.
    by rewrite PathIdFacts.target_in_other_bucket by done. }
  split.
  - rewrite (run_pair (writeJobFile env job) w) at 1. f_equal.
    rewrite Hrun. unfold emitJobCreated.
    rewrite (bind_normal _ _ _ ()) by done. apply emitEvent_normal.
  - rewrite Hrun. unfold emitJobCreated.
    rewrite (bind_normal _ _ _ ()) by done.
    by rewrite emitEvent_preserves by eauto with frame.
Qed.

(** The oracle names a job [../completed/job-009]: it is born completed. *)
Lemma job_id_can_leave_pending_witness :
  ∃ w',
    writeJobFile env_example (job_example "../completed/job-009") (ready_world ∅ Bus.initial)
    = (Normal (), w')
    ∧ jobFiles w'
      = <[(completed, "job-009") := job_example "../completed/job-009"]>
          (jobFiles (ready_world ∅ Bus.initial)).
Proof.
  apply (job_id_can_leave_pending env_example (job_example "../completed/job-009")
           completed "job-009" (ready_world ∅ Bus.initial)); reflexivity.
Defined.

Module ArrFacts.

Section Sort.

Context {A : Type} (compareFn : A → A → Z).

Lemma insert_perm x (l : list A) : Arr.insert compareFn x l ≡ₚ x :: l.
Proof.
  induction l as [|y l IH]; cbn [Arr.insert]; [done |].
  destruct (compareFn x y <=? 0)%Z; [done |].
  rewrite IH. apply Permutation_swap.
Qed.

Lemma sort_perm (l : list A) : Arr.sort compareFn l ≡ₚ l.
Proof.
  induction l as [|x l IH]; [done |].
  cbn [Arr.sort foldr]. rewrite insert_perm. apply Permutation_skip. exact IH.
Qed.

(** a key that the comparator respects is in order after the sort *)
Context (key : A → Z).
Hypothesis respects : ∀ a b, (key a < key b → compareFn a b < 0)%Z.
Hypothesis respects' : ∀ a b, (key b < key a → 0 < compareFn a b)%Z.

Lemma insert_sorted x (l : list A) :
  StronglySorted (λ a b, (key a ≤ key b)%Z) l →
  StronglySorted (λ a b, (key a ≤ key b)%Z) (Arr.insert compareFn x l).
Proof.
  induction 1 as [|y l Hl IH Hy]; cbn [Arr.insert]; [by repeat constructor |].
  destruct (Z.leb_spec (compareFn x y) 0) as [Hle|Hgt].
  - assert (key x ≤ key y)%Z as Hxy.
    { destruct (Z.le_gt_cases (key x) (key y)) as [|Hlt]; [done |].
      apply respects' in Hlt. lia. }
    constructor; [by constructor |].
    constructor; [done |]. eapply Forall_impl; [exact Hy |]. intros z Hz. cbn in *. lia.
  - assert (key y ≤ key x)%Z as Hyx.
    { destruct (Z.le_gt_cases (key y) (key x)) as [|Hlt]; [done |].
      apply respects in Hlt. lia. }
    constructor; [done |].
    rewrite insert_perm. by constructor.
Qed.

Lemma sort_sorted (l : list A) :
  StronglySorted (λ a b, (key a ≤ key b)%Z) (Arr.sort compareFn l).
Proof.
  induction l as [|x l IH]; [constructor |]. cbn [Arr.sort foldr]. by apply insert_sorted.
Qed.

End Sort.

Lemma StronglySorted_lookup {A} (R : A → A → Prop) (l : list A) i j a b :
  StronglySorted R l → i < j → l !! i = Some a → l !! j = Some b → R a b.
Proof.
  intros Hl. revert i j. induction Hl as [|x l Hl IH Hx]; intros i j Hij Ha Hb; [done |].
  destruct i as [|i], j as [|j]; try lia.
  - cbn in Ha, Hb. injection Ha as <-.
    rewrite Forall_forall in Hx. apply Hx. by eapply list_elem_of_lookup_2.
  - cbn in Ha, Hb. apply (IH i j); [lia | done | done].
Qed.

End ArrFacts.

Module EndsFacts.

#[local] Arguments String.append !s1 s2 : simpl nomatch.

Lemma substring_all (t : string) : String.substring 0 (String.length t) t = t.
Proof. induction t as [|c t IH]; simpl; [done | by rewrite IH]. Qed.

Lemma substring_skip (x t : string) n :
  String.substring (String.length x) n (x +:+ t) = String.substring 0 n t.
Proof. induction x as [|c x IH]; simpl; [done | exact IH]. Qed.

Lemma length_app (x t : string) :
  String.length (x +:+ t) = String.length x + String.length t.
Proof. induction x as [|c x IH]; simpl; [done | by rewrite IH]. Qed.

Lemma endsWith_app (x suffix : string) : Text.endsWith suffix (x +:+ suffix) = true.
Proof.
  unfold Text.endsWith. rewrite length_app.
  replace (String.length x + String.length suffix - String.length suffix)
    with (String.length x) by lia.
  rewrite substring_skip, substring_all, String.eqb_refl.
  rewrite andb_true_r. apply Nat.leb_le. lia.
Qed.

End EndsFacts.

Lemma length_omap_le {A B} (f : A → option B) (l : list A) : length (omap f l) ≤ length l.
Proof. induction l as [|x l IH]; cbn; [done |]. destruct (f x); cbn; lia. Qed.

Lemma length_omap_eq {A B} (f : A → option B) (l : list A) :
  length (omap f l) = length l ↔ Forall (λ x, is_Some (f x)) l.
Proof.
  induction l as [|x l IH]; cbn; [by split; [constructor |] |].
  pose proof (length_omap_le f l) as Hle.
  destruct (f x) as [y|] eqn:Hx; cbn.
  - split.
    + intros Hlen. constructor; [by rewrite Hx | apply IH; lia].
    + intros Hall. inversion Hall; subst. f_equal. by apply IH.
  - split; [lia |]. intros Hall. inversion Hall as [|?? [y Hy]]; congruence.
Qed.

(** X7. The list that the dashboard shows for a bucket holds exactly the
    jobs of the [.json] files of the directory that can be read and parsed
    (a file named [<id>.json], as the coordinator writes them, is one of
    these), with the more urgent priorities first (critical, high, medium,
    low). The
    count shown beside it is the number of [.json] files, so it is never
    less than the length of the list, and it is larger as soon as one of
    these files cannot be read or parsed. *)
Theorem job_list_is_sorted_and_counted
    (JSON_parse : string → option Job) (localeCompare : string → string → Z)
    (disk : Server.Disk) (status : Bucket) :
  let listed := Server.readJobFiles JSON_parse localeCompare disk status in
  let files := Server.jsonFiles disk status in
  listed ≡ₚ omap (Server.readJobFile JSON_parse) files
  ∧ (∀ entries name content,
       Server.readdir disk status = Some entries →
       (name +:+ ".json", content) ∈ entries → (name +:+ ".json", content) ∈ files)
  ∧ (∀ i j a b, i < j → listed !! i = Some a → listed !! j = Some b →
       (Server.priorityOrder (priority a) ≤ Server.priorityOrder (priority b))%Z)
  ∧ length listed ≤ Server.countJobFiles disk status
  ∧ (length listed = Server.countJobFiles disk status
     ↔ Forall (λ entry, is_Some (Server.readJobFile JSON_parse entry)) files)
  ∧ (Server.readdir disk status = None → listed = [] ∧ Server.countJobFiles disk status = 0).
Proof.
  intros listed files.
  assert (listed ≡ₚ omap (Server.readJobFile JSON_parse) files) as Hperm
    by apply ArrFacts.sort_perm.
  split; [done |]. split; [|split; [|split; [|split]]].
  - intros entries name content Hdir Hin. unfold files, Server.jsonFiles. rewrite Hdir.
    apply list_elem_of_filter. split; [|done]. apply EndsFacts.endsWith_app.
  - intros i j a b. 
    apply (ArrFacts.StronglySorted_lookup
             (λ a b, (Server.priorityOrder (priority a) ≤ Server.priorityOrder (priority b))%Z)).
    apply ArrFacts.sort_sorted.
    + intros x y Hlt. unfold Server.compareJobs.
      destruct (Z.eqb_spec (Server.priorityOrder (priority x) - Server.priorityOrder (priority y)) 0);
        lia.
    + intros x y Hlt. unfold Server.compareJobs.
      destruct (Z.eqb_spec (Server.priorityOrder (priority x) - Server.priorityOrder (priority y)) 0);
        lia.
  - rewrite Hperm. apply length_omap_le.
  - rewrite Hperm. apply length_omap_eq.
  - intros Hnone. unfold listed, Server.readJobFiles, Server.countJobFiles, Server.jsonFiles.
    by rewrite Hnone.
Qed.

(** the report of the coordinator, read by the dashboard's regex *)
Lemma report_total w result d :
  timestamp result = JS.toISOString d →
  Dashboard.match_total_iterations (stateContent w result)
  = Some (JS.toString (this_iteration w)).
Proof.
  intros Ht. unfold stateContent. rewrite Ht.
  rewrite (ReportFacts.match_total_skip "# Product State") by reflexivity.
  rewrite (ReportFacts.match_total_skip JS.LF) by reflexivity.
  rewrite (ReportFacts.match_total_skip JS.LF) by reflexivity.
  rewrite (ReportFacts.match_total_skip "Last updated: ") by reflexivity.
  rewrite ReportFacts.match_total_skip_timestamp by apply ReportFacts.toISOString_iso.
  rewrite (ReportFacts.match_total_skip JS.LF) by reflexivity.
  by rewrite (ReportFacts.match_total_iterations_here _ (JS.toString (this_iteration w)))
    by apply ReportFacts.match_total_here_line.
Qed.

(** X8. The iteration number that the dashboard server holds. An
    [iteration:start] event sets it to the number the event carries. Any
    event whose type starts with [job:] makes the server read the state report
    again, and the number is then the [Total iterations] of the report that
    [updateProductState] wrote last, whatever the events said before: while
    iteration [n+1] is running its job events set the number back to [n], the
    report of [n+1] being written only at the end of the iteration. *)
Theorem dashboard_iteration_follows_report
    (JSON_parse : string → option Job) (localeCompare : string → string → Z)
    (disk : Server.Disk) (now : string) (event : DashboardEvent)
    (st : Server.DashboardState) (w : World) (result : IterationResult) (d : JS.Date) :
  Str.startsWith "job:" (ev_type event) = true →
  timestamp result = JS.toISOString d →
  Server.productStateMd disk = Some (stateContent w result) →
  (∀ t m,
     let started :=
       Server.onCoordinatorEvent JSON_parse localeCompare disk now
         (mkEvent t "iteration:start" (IterationStartData m)) st in
     Server.st_iteration started = Some m
     ∧ Server.st_lastUpdate started = t
     ∧ Server.st_coordinatorConnected started = true
     ∧ Server.st_iteration
         (Server.onCoordinatorEvent JSON_parse localeCompare disk now event started)
       = Some (this_iteration w))
  ∧ Server.st_iteration (Server.onCoordinatorEvent JSON_parse localeCompare disk now event st)
    = Some (this_iteration w).
Proof.
  intros Hjob Ht Hdisk.
  assert (∀ st0, Server.st_iteration
                   (Server.onCoordinatorEvent JSON_parse localeCompare disk now event st0)
                 = Some (this_iteration w)) as Hread.
  { intros st0. unfold Server.onCoordinatorEvent. rewrite Hjob.
    unfold Server.updateStateFromFiles. cbn [Server.st_iteration].
    rewrite Hdisk, (report_total w result d Ht).
    by rewrite ReportFacts.parseInt_toString. }
  split; [|apply Hread].
  intros t m started. split; [done |]. split; [done |]. split; [done |]. apply Hread.
Qed.

Lemma dashboard_iteration_follows_report_witness :
  let JSON_parse := λ _ : string, @None Job in
  let localeCompare := λ _ _ : string, 0%Z in
  let event := mkEvent "2026-01-01T00:00:05.000Z" "job:created"
                 (JobCreatedData (job_example "job-001")) in
  (∀ t m,
     let started :=
       Server.onCoordinatorEvent JSON_parse localeCompare disk_after_first_iteration
         "2026-01-01T00:00:06.000Z"
         (mkEvent t "iteration:start" (IterationStartData m)) state_example in
     Server.st_iteration started = Some m
     ∧ Server.st_lastUpdate started = t
     ∧ Server.st_coordinatorConnected started = true
     ∧ Server.st_iteration
         (Server.onCoordinatorEvent JSON_parse localeCompare disk_after_first_iteration
            "2026-01-01T00:00:06.000Z" event started)
       = Some 1)
  ∧ Server.st_iteration
      (Server.onCoordinatorEvent JSON_parse localeCompare disk_after_first_iteration
         "2026-01-01T00:00:06.000Z" event state_example)
    = Some 1.
Proof.
  intros JSON_parse localeCompare event.
  apply (dashboard_iteration_follows_report JSON_parse localeCompare
           disk_after_first_iteration "2026-01-01T00:00:06.000Z" event state_example
           (set_iteration 1 (fresh_world ∅ Bus.initial))
           (mkIterationResult 1 0 0 [] (JS.toISOString (JS.mkDate 2026 1 1 0 0 0 0)))
           (JS.mkDate 2026 1 1 0 0 0 0)); reflexivity.
Defined.

Module SplitFacts.

Import Str JS.

#[local] Arguments String.append !s1 s2 : simpl nomatch.
#[local] Arguments Ascii.eqb : simpl never.

Lemma split_whole sep s : contains_char sep s = false → split sep s = [s].
Proof.
  induction s as [|c s IH]; simpl; [done |].
  rewrite Ascii.eqb_sym. destruct (Ascii.eqb c sep); [done |].
  intros H. by rewrite IH.
Qed.

Lemma split_app sep a b :
  ∃ x xs, split sep (a +:+ String sep b) = (x :: xs) ++ split sep b.
Proof.
  induction a as [|c a (x & xs & IH)]; simpl.
  - rewrite Ascii.eqb_refl. by exists "", [].
  - destruct (Ascii.eqb c sep).
    + exists "", (x :: xs). by rewrite IH.
    + rewrite IH. by exists (String c x), xs.
Qed.

Lemma split_last sep a b :
  contains_char sep b = false → last (split sep (a +:+ String sep b)) = Some b.
Proof.
  intros Hb. destruct (split_app sep a b) as (x & xs & ->).
  rewrite split_whole by done. by rewrite last_app.
Qed.

End SplitFacts.

(** X9. [GET /api/jobs/<name>] answers with the list of the bucket when
    [<name>] is one of [pending], [in-progress], [completed], [failed]
    ([inProgress] works as well), and with the empty list for any other name
    that is not a property of every object; a trailing slash makes the name
    empty, so the answer is the empty list. *)
Theorem jobs_endpoint_serves_bucket (st : Server.DashboardState) :
  (∀ b, Dashboard.route (Some ("/api/jobs/" +:+ bucketName b)) = Dashboard.JobsRequest
        ∧ Server.handleJobsRequest ("/api/jobs/" +:+ bucketName b) st
          = Some (Server.jobsOf (Server.st_jobsList st) b))
  ∧ Server.handleJobsRequest "/api/jobs/inProgress" st
    = Some (Server.l_inProgress (Server.st_jobsList st))
  ∧ (∀ b, Server.handleJobsRequest ("/api/jobs/" +:+ bucketName b +:+ "/") st = Some [])
  ∧ (∀ name,
       Str.contains_char "/" name = false →
       name ∉ ["pending"; "in-progress"; "inProgress"; "completed"; "failed"] →
       name ∉ Server.Object_prototype →
       Dashboard.route (Some ("/api/jobs/" +:+ name)) = Dashboard.JobsRequest
       ∧ Server.handleJobsRequest ("/api/jobs/" +:+ name) st = Some []).
Proof.
  split; [|split; [|split]].
  - by intros [].
  - done.
  - by intros [].
  - intros name Hslash Hown Hproto. split.
    + unfold Dashboard.route.
      destruct (String.eqb_spec ("/api/jobs/" +:+ name) "/api/state") as [Heq|_]; [|done].
      apply (f_equal (String.substring 0 6)) in Heq. vm_compute in Heq. discriminate.
    + unfold Server.handleJobsRequest.
      change ("/api/jobs/" +:+ name) with ("/api/jobs" +:+ String "/" name).
      rewrite SplitFacts.split_last by done.
      change (default "" (Some name)) with name.
      destruct (String.eqb_spec name "in-progress") as [->|_];
        [exfalso; apply Hown; set_solver |].
      unfold Server.jobsList_get.
      destruct (String.eqb_spec name "pending") as [->|_]; [exfalso; apply Hown; set_solver |].
      destruct (String.eqb_spec name "inProgress") as [->|_]; [exfalso; apply Hown; set_solver |].
      destruct (String.eqb_spec name "completed") as [->|_]; [exfalso; apply Hown; set_solver |].
      destruct (String.eqb_spec name "failed") as [->|_]; [exfalso; apply Hown; set_solver |].
      by rewrite bool_decide_eq_false_2.
Qed.

Lemma broadcast_fold clients acc :
  foldl (λ (acc : list nat * list string) c,
           if Server.readyState_OPEN c then
             match Server.send_throws c with
             | None => (acc.1 ++ [Server.client c], acc.2)
             | Some error => (acc.1, acc.2 ++ ["Failed to send to client: " +:+ error])
             end
           else acc) acc clients
  = (acc.1 ++ (Server.client <$>
                 filter (λ c, Server.readyState_OPEN c = true ∧ Server.send_throws c = None)
                        clients),
     acc.2 ++ omap (λ c, if Server.readyState_OPEN c
                         then (λ error, "Failed to send to client: " +:+ error)
                                <$> Server.send_throws c
                         else None) clients).
Proof.
  revert acc. induction clients as [|c clients IH]; intros [sent errors]; cbn [foldl].
  - cbn. by rewrite !app_nil_r.
  - rewrite IH. rewrite !filter_cons.
    destruct (Server.readyState_OPEN c) eqn:Hopen, (Server.send_throws c) as [error|] eqn:Hsend;
      cbn; rewrite ?Hopen, ?Hsend; cbn.
    + rewrite decide_False by (intros []; done). by rewrite <- app_assoc.
    + rewrite decide_True by done. cbn. by rewrite <- app_assoc.
    + rewrite !decide_False by (intros []; done). done.
    + rewrite !decide_False by (intros []; done). done.
Qed.

(** X10. [broadcast] sends the event to every client whose socket is open,
    in the order the clients connected; a client on which [send] throws costs
    one line on the error console and does not keep the clients after it from
    the message. The closing line is printed only when some client was
    reached, and counts the clients reached. *)
Theorem broadcast_reaches_open_clients (clients : list Server.Client) (event : DashboardEvent) :
  let reached :=
    filter (λ c, Server.readyState_OPEN c = true ∧ Server.send_throws c = None) clients in
  let complaints :=
    omap (λ c, if Server.readyState_OPEN c
               then (λ error, "Failed to send to client: " +:+ error) <$> Server.send_throws c
               else None) clients in
  (Server.broadcast clients event).1 = Server.client <$> reached
  ∧ (Server.broadcast clients event).2
    = complaints
      ++ match reached with
         | [] => []
         | _ :: _ => ["📤 Broadcast " +:+ ev_type event +:+ " to "
                      +:+ JS.toString (length reached) +:+ " client(s)"]
         end.
Proof.
  intros reached complaints. unfold Server.broadcast.
  rewrite broadcast_fold. cbn [fst snd app]. fold reached. fold complaints.
  rewrite length_fmap. split; [done |].
  by destruct reached.
Qed.

Module IncludesFacts.

Import Str.

#[local] Arguments String.append !s1 s2 : simpl nomatch.
#[local] Arguments Ascii.eqb : simpl never.

(** a pattern that starts with a slash is not found where there is none *)
Lemma includes_no_slash p s :
  contains_char "/" s = false → Text.includes (String "/" p) s = false.
Proof.
  induction s as [|c s IH]; [done |].
  cbn [contains_char Text.includes startsWith].
  destruct (Ascii.eqb "/" c); [done |]. intros H. by rewrite IH.
Qed.

Lemma includes_app p s t : Text.includes p s = true → Text.includes p (s +:+ t) = true.
Proof.
  induction s as [|c s IH].
  - destruct p; [by destruct t | done].
  - cbn [Text.includes]. intros [Hhere|Hlater]%orb_prop.
    + apply orb_true_intro. left.
      clear IH. revert c s Hhere. induction p as [|a p IHp]; intros c s Hhere; [done |].
      cbn [startsWith] in *. cbn [String.append startsWith].
      destruct (Ascii.eqb a c); [|done].
      destruct s as [|c' s]; [by destruct p |]. by apply IHp.
    + apply orb_true_intro. right. by apply IH.
Qed.

Lemma startsWith_needs_slash p s :
  contains_char "/" p = true → contains_char "/" s = false → startsWith p s = false.
Proof.
  revert s. induction p as [|a p IH]; intros s Hp Hs; [done |].
  destruct s as [|c s]; [done |].
  cbn [startsWith contains_char] in *.
  destruct (Ascii.eqb_spec a c) as [<-|]; [|done].
  destruct (Ascii.eqb "/" a); [done |]. by apply IH.
Qed.

#[local] Arguments Str.startsWith !p !s : simpl nomatch.
#[local] Arguments Text.includes p !s : simpl nomatch.

Lemma extractStatus_watched b name :
  contains_char "/" name = false →
  Watcher.extractStatus (Watcher.watched Server.JOBS_DIR b name) = b.
Proof.
  intros Hname.
  pose proof (includes_no_slash "pending/" name Hname) as H1.
  pose proof (includes_no_slash "in-progress/" name Hname) as H2.
  pose proof (includes_no_slash "completed/" name Hname) as H3.
  pose proof (includes_no_slash "failed/" name Hname) as H4.
  pose proof (startsWith_needs_slash "pending/" name eq_refl Hname) as S1.
  pose proof (startsWith_needs_slash "in-progress/" name eq_refl Hname) as S2.
  pose proof (startsWith_needs_slash "completed/" name eq_refl Hname) as S3.
  pose proof (startsWith_needs_slash "failed/" name eq_refl Hname) as S4.
  unfold Watcher.extractStatus, Watcher.watched, Server.JOBS_DIR.
  destruct b; simpl; rewrite ?H1, ?H2, ?H3, ?H4, ?S1, ?S2, ?S3, ?S4; reflexivity.
Qed.

End IncludesFacts.

(** X11. The file watcher of the dashboard is started on
    [./orchestration/jobs]; for a file of one of the four directories under
    it, [extractStatus] gives back the directory. The tests are made on the
    whole path, [pending] first: under a jobs root that itself holds
    [/pending/], every file is taken for a pending one. *)
Theorem extractStatus_recovers_bucket :
  (∀ b name,
     Str.contains_char "/" name = false →
     Watcher.extractStatus (Watcher.watched Server.JOBS_DIR b name) = b)
  ∧ (∀ jobsDir b name,
       Text.includes "/pending/" (jobsDir +:+ "/") = true →
       Watcher.extractStatus (Watcher.watched jobsDir b name) = pending).
Proof.
  split.
  - apply IncludesFacts.extractStatus_watched.
  - intros jobsDir b name Hdir. unfold Watcher.extractStatus, Watcher.watched.
    replace (jobsDir +:+ "/" +:+ bucketName b +:+ "/" +:+ name)
      with ((jobsDir +:+ "/") +:+ bucketName b +:+ "/" +:+ name)
      by (by rewrite ?StrFacts.app_assoc).
    by rewrite IncludesFacts.includes_app.
Qed.

Module LazyFacts.

Import Str JS.

#[local] Arguments String.append !s1 s2 : simpl nomatch.

Lemma upto_first_Some c s r :
  upto_first c s = Some r →
  ∃ inner post, s = r +:+ post ∧ r = inner +:+ String c "" ∧ contains_char c inner = false.
Proof.
  revert r; induction s as [|d s IH]; intros r; simpl; [done |].
  destruct (Ascii.eqb_spec d c) as [->|Hne].
  - intros [= <-]. by exists "", s.
  - destruct (upto_first c s) as [r0|] eqn:Hr0; [|done].
    intros [= <-]. destruct (IH r0 eq_refl) as (inner & post & -> & -> & Hinner).
    exists (String d inner), post. simpl. repeat split.
    destruct (Ascii.eqb_spec c d) as [->|]; [done | exact Hinner].
Qed.

Lemma match_bracketed_lazy_Some text m :
  match_bracketed_lazy text = Some m →
  ∃ pre inner post,
    text = pre +:+ m +:+ post
    ∧ m = "[" +:+ inner +:+ "]"
    ∧ contains_char "[" pre = false
    ∧ contains_char "]" inner = false.
Proof.
  unfold match_bracketed_lazy.
  destruct (from_first "[" text) as [r|] eqn:Hr; [|done].
  apply MatchFacts.from_first_Some in Hr as (pre & rest & -> & -> & Hpre).
  destruct (upto_first "]" rest) as [body|] eqn:Hb; [|done].
  apply upto_first_Some in Hb as (inner & post & -> & -> & Hinner).
  intros [= <-]. exists pre, inner, post. repeat split; try done.
Qed.

End LazyFacts.

(** X12. What the simple runner parses of the output of [claude]: the
    text from the first opening bracket to the first closing bracket after
    it, so the text parsed holds no closing bracket before its last
    character. An answer whose first job lists its files in an array is
    therefore cut at the end of that list. When nothing can be parsed from
    the cut, the runner has no jobs. *)
Theorem local_analysis_parses_up_to_first_closing_bracket
    (JSON_parse : string → option (list Job)) (output : string) :
  match JS.match_bracketed_lazy output with
  | Some jsonMatch =>
      (∃ pre inner post,
         output = pre +:+ jsonMatch +:+ post
         ∧ jsonMatch = "[" +:+ inner +:+ "]"
         ∧ Str.contains_char "[" pre = false
         ∧ Str.contains_char "]" inner = false)
      ∧ (SimpleRunner.parseJobs JSON_parse output).1 = default [] (JSON_parse jsonMatch)
  | None =>
      (SimpleRunner.parseJobs JSON_parse output).1 = []
      ∧ (SimpleRunner.parseJobs JSON_parse output).2 = ["⚠️ No jobs found in analysis output"]
  end.
Proof.
  destruct (JS.match_bracketed_lazy output) as [m|] eqn:Hm.
  - split; [by apply LazyFacts.match_bracketed_lazy_Some |].
    unfold SimpleRunner.parseJobs. rewrite Hm. by destruct (JSON_parse m).
  - unfold SimpleRunner.parseJobs. by rewrite Hm.
Qed.

Module LocalReportFacts.

Import Str JS Dashboard.

Lemma digits_no_T n : contains_char "T" (toString n) = false.
Proof. apply (JSFacts.all_chars_no_char is_digit); [done | apply JSFacts.toString_digits]. Qed.

Lemma local_report_no_total ts iteration completed_count failed_count :
  all_chars iso_char ts = true →
  match_total_iterations (LocalRunner.stateContent ts iteration completed_count failed_count)
  = None.
Proof.
  intros Hts. unfold LocalRunner.stateContent.
  rewrite (ReportFacts.match_total_skip "# Product State") by reflexivity.
  rewrite (ReportFacts.match_total_skip LF) by reflexivity.
  rewrite (ReportFacts.match_total_skip LF) by reflexivity.
  rewrite (ReportFacts.match_total_skip "Last updated: ") by reflexivity.
  rewrite ReportFacts.match_total_skip_timestamp by done.
  rewrite (ReportFacts.match_total_skip LF) by reflexivity.
  rewrite (ReportFacts.match_total_skip "Current iteration: ") by reflexivity.
  rewrite (ReportFacts.match_total_skip (toString iteration)) by apply digits_no_T.
  rewrite (ReportFacts.match_total_skip LF) by reflexivity.
  rewrite (ReportFacts.match_total_skip LF) by reflexivity.
  rewrite (ReportFacts.match_total_skip "## Latest Results") by reflexivity.
  rewrite (ReportFacts.match_total_skip LF) by reflexivity.
  rewrite (ReportFacts.match_total_skip "- Jobs completed: ") by reflexivity.
  rewrite (ReportFacts.match_total_skip (toString completed_count)) by apply digits_no_T.
  rewrite (ReportFacts.match_total_skip LF) by reflexivity.
  rewrite (ReportFacts.match_total_skip "- Jobs failed: ") by reflexivity.
  rewrite (ReportFacts.match_total_skip (toString failed_count)) by apply digits_no_T.
  rewrite (ReportFacts.match_total_skip LF) by reflexivity.
  rewrite (ReportFacts.match_total_skip LF) by reflexivity.
  rewrite (ReportFacts.match_total_skip "## Notes") by reflexivity.
  rewrite (ReportFacts.match_total_skip LF) by reflexivity.
  reflexivity.
Qed.

End LocalReportFacts.

(** X15. The dashboard cannot read the iteration number of the simple
    runner: its state report says [Current iteration:] where the dashboard
    looks for [Total iterations:], so with that report on disk
    [updateStateFromFiles] leaves the iteration number as it was. *)
Theorem local_report_hides_iteration
    (JSON_parse : string → option Job) (localeCompare : string → string → Z)
    (disk : Server.Disk) (now : string) (st : Server.DashboardState)
    (d : JS.Date) (iteration completed_count failed_count current : nat) :
  let content :=
    LocalRunner.stateContent (JS.toISOString d) iteration completed_count failed_count in
  Dashboard.match_total_iterations content = None
  ∧ Dashboard.iteration_from_file current (Some content) = current
  ∧ (Server.productStateMd disk = Some content →
     Server.st_iteration (Server.updateStateFromFiles JSON_parse localeCompare disk now st)
     = Server.st_iteration st).
Proof.
  intros content.
  assert (Dashboard.match_total_iterations content = None) as Hnone
    by apply LocalReportFacts.local_report_no_total, ReportFacts.toISOString_iso.
  split; [done |]. split.
  - unfold Dashboard.iteration_from_file. by rewrite Hnone.
  - intros Hdisk. unfold Server.updateStateFromFiles. cbn [Server.st_iteration].
    by rewrite Hdisk, Hnone.
Qed.

Section Emits.

Context (ok : DashboardEvent → Prop).

Lemma emits_quiet {A} (m : M A) : preserves delivered m → emits ok m.
Proof. intros H w. exists []. by rewrite H, app_nil_r. Qed.

Lemma emits_bind {A C} (m : M A) (k : A → M C) :
  emits ok m → (∀ a, emits ok (k a)) → emits ok (bind m k).
Proof.
  intros Hm Hk w. unfold bind. destruct (Hm w) as (ds & Hds & Hok).
  destruct (m w) as [[a|e|] w1]; cbn [snd] in *; [|by exists ds | by exists ds].
  destruct (Hk a w1) as (ds' & Hds' & Hok').
  exists (ds ++ ds'). rewrite Hds', Hds, app_assoc. split; [done |].
  by apply Forall_app.
Qed.

Lemma emits_try_catch {A} (m : M A) h :
  emits ok m → (∀ e, emits ok (h e)) → emits ok (try_catch m h).
Proof.
  intros Hm Hh w. unfold try_catch. destruct (Hm w) as (ds & Hds & Hok).
  destruct (m w) as [[a|e|] w1]; cbn [snd] in *; [by exists ds | | by exists ds].
  destruct (Hh e w1) as (ds' & Hds' & Hok').
  exists (ds ++ ds'). rewrite Hds', Hds, app_assoc. split; [done |].
  by apply Forall_app.
Qed.

Lemma emits_try_finally {A} (m : M A) f :
  emits ok m → emits ok f → emits ok (try_finally m f).
Proof.
  intros Hm Hf w. unfold try_finally. destruct (Hm w) as (ds & Hds & Hok).
  destruct (m w) as [[a|e|] w1]; cbn [snd] in *; [| |by exists ds].
  all: destruct (Hf w1) as (ds' & Hds' & Hok');
    destruct (f w1) as [[[]|e'|] w2]; cbn [snd] in *;
    exists (ds ++ ds'); rewrite Hds', Hds, app_assoc; (split; [done |]);
    by apply Forall_app.
Qed.

Lemma emits_settle {A} (m : M A) : emits ok m → emits ok (settle m).
Proof.
  intros Hm w. unfold settle. destruct (Hm w) as (ds & Hds & Hok).
  destruct (m w) as [c w1]. by exists ds.
Qed.

Lemma emits_for_of {A} (xs : list A) body :
  (∀ x, emits ok (body x)) → emits ok (for_of xs body).
Proof.
  intros Hbody. induction xs as [|x xs IH]; cbn [for_of].
  - by apply emits_quiet.
  - apply emits_bind; [apply Hbody | by intros _].
Qed.

Lemma emits_map_of {A C} (xs : list A) (f : A → M C) :
  (∀ x, emits ok (f x)) → emits ok (map_of xs f).
Proof.
  intros Hf. induction xs as [|x xs IH]; cbn [map_of].
  - by apply emits_quiet.
  - apply emits_bind; [apply Hf | intros y].
    apply emits_bind; [apply IH | intros ys]. by apply emits_quiet.
Qed.

Lemma emits_emitEvent env type data :
  (∀ t, ok (mkEvent t type data)) → emits ok (emitEvent env type data).
Proof.
  intros Hok w. rewrite delivered_emitEvent. eexists. split; [done |].
  unfold Bus.emitEvent. destruct (Bus.silent _ _); [constructor |].
  apply Forall_app. split; unfold Bus.emit; apply Forall_fmap, Forall_true; intros l; apply Hok.
Qed.

End Emits.

(** Decompose a goal [emits ok m] along the shape of [m]. *)
Ltac emits_step :=
  lazymatch goal with
  | |- emits _ (bind _ _) => apply emits_bind; [|intros ?]
  | |- emits _ (try_catch _ _) => apply emits_try_catch; [|intros ?]
  | |- emits _ (try_finally _ _) => apply emits_try_finally
  | |- emits _ (settle _) => apply emits_settle
  | |- emits _ (for_of _ _) => apply emits_for_of; intros ?
  | |- emits _ (map_of _ _) => apply emits_map_of; intros ?
  | |- emits _ (if ?b then _ else _) => destruct b
  | |- emits _ (match ?x with _ => _ end) => destruct x
  | |- emits _ _ => apply emits_quiet; solve [frame]
  end.

Section CoordinatorEvents.

Context (CONFIG : Config) (env : Env).

Lemma emits_transition jobId from to :
  to ≠ pending → emits coordinator_event (transition env jobId from to).
Proof.
  intros Hto. unfold transition. repeat emits_step.
  unfold emitJobStatus. by apply emits_emitEvent.
Qed.

Lemma emits_writeJobFiles jobs : emits coordinator_event (writeJobFiles env jobs).
Proof.
  unfold writeJobFiles, writeJobFile. repeat emits_step.
  unfold emitJobCreated. by apply emits_emitEvent.
Qed.

Lemma emits_runBatch i batch : emits coordinator_event (runBatch env i batch).
Proof.
  unfold runBatch. apply emits_bind; [|intros _].
  { apply emits_for_of; intros ij. unfold spawnWorker_start.
    apply emits_bind; [apply emits_quiet; frame | intros _].
    apply emits_bind; [apply emits_quiet; frame | intros _].
    by apply emits_transition. }
  apply emits_bind; [apply emits_quiet; frame | intros w].
  apply emits_bind; [|intros settled; apply emits_quiet, Promise_all_preserves].
  apply emits_map_of; intros ij.
  apply emits_bind; [|intros c; apply emits_quiet; frame].
  apply emits_settle. unfold spawnWorker_finish.
  apply emits_bind; [apply emits_quiet; frame | intros w1].
  destruct (createSprite_ok _); [|apply emits_quiet; frame].
  apply emits_try_finally; [|destruct (delete_ok _); apply emits_quiet; frame].
  apply emits_try_catch; [|intros e].
  - apply emits_bind; [destruct (steps_ok _); apply emits_quiet; frame | intros _].
    apply emits_bind; [by apply emits_transition | intros _].
    apply emits_quiet; frame.
  - apply emits_bind; [apply emits_quiet; frame | intros _].
    apply emits_bind; [by apply emits_transition | intros _].
    apply emits_quiet; frame.
Qed.

Lemma emits_runWorkers jobs : emits coordinator_event (runWorkers CONFIG env jobs).
Proof.
  unfold runWorkers. apply emits_bind; [apply emits_quiet; frame | intros _].
  generalize (S (length jobs)) 0 (@nil string, 0).
  intros fuel; induction fuel as [|fuel IH]; intros i acc; cbn [runWorkers_loop].
  - apply emits_quiet; frame.
  - destruct (i <? length jobs); [|apply emits_quiet; frame].
    apply emits_bind; [apply emits_quiet; frame | intros _].
    apply emits_bind; [apply emits_runBatch | intros rs]. apply IH.
Qed.

Lemma emits_iteration_tail n bf : emits coordinator_event (iteration_tail CONFIG env n bf).
Proof.
  unfold iteration_tail.
  apply emits_bind; [apply emits_quiet, mergeBranches_preserves; eauto with frame | intros _].
  apply emits_bind; [apply emits_quiet; frame | intros t].
  apply emits_bind; [apply emits_quiet; frame | intros _].
  apply emits_bind; [apply emits_quiet, updateProductState_preserves; eauto with frame | intros _].
  apply emits_bind; [apply emits_quiet, checkpoint_preserves; eauto with frame | intros _].
  do 3 (apply emits_bind; [apply emits_quiet; frame | intros _]).
  apply emits_bind; [|intros _; apply emits_quiet; frame].
  unfold emitIterationComplete. by apply emits_emitEvent.
Qed.

Lemma emits_runIteration : emits coordinator_event (runIteration CONFIG env).
Proof.
  intros w. rewrite runIteration_head.
  assert (emits coordinator_event
    (let* jobs := runAnalysis env in
     if length jobs =? 0 then console_log "No jobs generated. Stopping." >> ret false
     else writeJobFiles env jobs >>
          let* bf := runWorkers CONFIG env jobs in
          iteration_tail CONFIG env (S (this_iteration w)) bf)) as Hrest.
  { apply emits_bind; [apply emits_quiet, runAnalysis_preserves; eauto with frame | intros jobs].
    destruct (length jobs =? 0); [apply emits_quiet; frame |].
    apply emits_bind; [apply emits_writeJobFiles | intros _].
    apply emits_bind; [apply emits_runWorkers | intros bf].
    apply emits_iteration_tail. }
  destruct (Hrest (before_analysis env w)) as (ds & Hds & Hok).
  exists (Bus.emitEvent (bus w) (JS.toISOString (clock env (ticks w)))
            "iteration:start" (IterationStartData (S (this_iteration w))) ++ ds).
  split.
  - rewrite Hds. unfold before_analysis.
    rewrite checkpoint_preserves by eauto with frame.
    cbn [delivered set_console]. unfold emitIterationStart.
    rewrite delivered_emitEvent. by rewrite app_assoc.
  - apply Forall_app. split; [|done].
    unfold Bus.emitEvent. destruct (Bus.silent _ _); [constructor |].
    apply Forall_app. split; unfold Bus.emit; apply Forall_fmap, Forall_true; by intros l.
Qed.

Lemma emits_run : emits coordinator_event (run CONFIG env).
Proof.
  unfold run. apply emits_try_finally; [|repeat emits_step].
  apply emits_try_catch; [|intros e; repeat emits_step].
  apply emits_bind; [unfold initialize, mkdirSync; repeat emits_step | intros _].
  apply emits_bind; [apply emits_quiet; frame | intros w].
  apply emits_bind; [|intros _; repeat emits_step].
  generalize (S (maxIterations CONFIG - this_iteration w)).
  intros fuel; induction fuel as [|fuel IH]; cbn [run_loop]; [apply emits_quiet; frame |].
  apply emits_bind; [apply emits_runIteration | intros [|]]; [apply IH | apply emits_quiet; frame].
Qed.

End CoordinatorEvents.

(** X17. The events of the coordinator. Whatever happens during [run],
    every event handed to a listener is an [iteration:start], an
    [iteration:complete], a [job:created] or a [job:status] with the payload
    of its type, and a [job:status] never announces [pending]: the coordinator
    emits no [worker:spawned], no [merge:start] and no [merge:complete]. *)
Theorem coordinator_emits_four_event_types CONFIG env w :
  ∃ ds,
    delivered (run CONFIG env w).2 = delivered w ++ ds
    ∧ Forall (λ d, coordinator_event (dl_event d)
                   ∧ ev_type (dl_event d)
                     ∈ ["iteration:start"; "iteration:complete"; "job:created"; "job:status"])
             ds.
Proof.
  destruct (emits_run CONFIG env w) as (ds & Hds & Hok).
  exists ds. split; [done |].
  eapply Forall_impl; [exact Hok |]. intros d Hd. split; [done |].
  unfold coordinator_event in Hd.
  destruct (ev_data (dl_event d)); try done; [| | |destruct Hd as [Hd _]];
    rewrite Hd; repeat first [apply list_elem_of_here | apply list_elem_of_further].
Qed.
